(** * Systems_Mapping: the flowchart parser and tree layout of [script.js]

    A shallow embedding of the text-to-model parser ([parse]), the layout
    engine ([visibleChildren], [layoutTree] with its inner [firstPass] and
    [depthFirstSearch]) and the input handler ([onInput],
    [mergeCollapseState]) of [src/script.js], followed by the properties
    of the specification that concern them, and by further properties of
    the parser, of the layout and of the drawing ([render], [drawNode],
    [drawEdge]).

    Conventions of the embedding.
    - A JavaScript string is a [string]; a character stands for one UTF-16
      code unit below 256, so the only white space characters are TAB, LF,
      VT, FF, CR, SPACE and NBSP (code 160).
    - A JavaScript number that holds a slot or a coordinate is a rational
      [Q] kept in reduced form; the slot counter and the depth are natural
      numbers.  The arithmetic of the embedding is the exact one, which is
      the arithmetic of the source as long as doubles do not round:
      [exactPass], [exactLayout] and [exactEdges] say that none of the
      operations of a call does, and a property that needs it assumes
      it.
    - A plain object used as a dictionary ([nodes]) is the list of its own
      properties in creation order; reading [nodes[id]] falls back on the
      members of [Object.prototype].
    - [Map] objects are [gmap]s; the [Set] named [collapsed] is a [gset];
      the [Set] named [vis], which is iterated, is the list of its
      elements in insertion order.
    - Recursion that the source leaves unbounded takes a [fuel] argument
      that bounds the depth of the call stack. *)

From Stdlib Require Import Ascii String NArith ZArith QArith Qminmax Lia.
From Stdlib Require Import Decimal DecimalString Lqa Sorted.
From stdpp Require Import gmap strings list fin_maps.

Open Scope string_scope.
Open Scope list_scope.

(** ** JavaScript strings *)

Module Js.

Definition LF : ascii := ascii_of_N 10.
Definition CR : ascii := ascii_of_N 13.

(** [\s], which is also the set that [String.prototype.trim] strips. *)
Definition isSpace (c : ascii) : bool :=
  let n := N_of_ascii c in
  (N.eqb n 9 || N.eqb n 10 || N.eqb n 11 || N.eqb n 12 || N.eqb n 13
   || N.eqb n 32 || N.eqb n 160)%bool.

(** [\S] *)
Definition notSpace (c : ascii) : bool := negb (isSpace c).

(** The double quote, and the class of every other character. *)
Definition quote : ascii := ascii_of_N 34.

Definition notQuote (c : ascii) : bool := negb (Ascii.eqb c quote).

(** [text.split(/\r?\n/)]: the separator is LF, or CR immediately followed
    by LF; a CR alone stays in its line. The result is never empty. *)
Fixpoint split (s : string) : list string :=
  match s with
  | EmptyString => [EmptyString]
  | String c s' =>
    let keep :=
      match split s' with
      | l :: ls => String c l :: ls
      | [] => [String c EmptyString]
      end in
    if Ascii.eqb c LF then EmptyString :: split s'
    else if Ascii.eqb c CR then
      match s' with
      | String c2 s'' =>
        if Ascii.eqb c2 LF then EmptyString :: split s'' else keep
      | EmptyString => keep
      end
    else keep
  end.

Fixpoint trimStart (s : string) : string :=
  match s with
  | String c s' => if isSpace c then trimStart s' else s
  | EmptyString => EmptyString
  end.

Fixpoint trimEnd (s : string) : string :=
  match s with
  | EmptyString => EmptyString
  | String c s' =>
    match trimEnd s' with
    | EmptyString => if isSpace c then EmptyString else String c EmptyString
    | t => String c t
    end
  end.

Definition trim (s : string) : string := trimEnd (trimStart s).

Definition startsWith (s p : string) : bool := String.prefix p s.

Fixpoint dropChars (n : nat) (s : string) : string :=
  match n, s with
  | S n', String _ s' => dropChars n' s'
  | _, _ => s
  end.

(** *** The regular expressions of the parser

    Both patterns of [parse] are anchored sequences of literals, one
    optional character and greedy repetitions of a character class, some
    of them captured. [exec] is the backtracking matcher for that
    fragment: a repetition first takes as many characters as it can and
    gives them back one at a time while the rest of the pattern fails. *)

Inductive rx : Type :=
| Lit (l : string)
| Chr (c : ascii)
| Opt (c : ascii)
| Rep (capture : bool) (atLeastOne : bool) (class : ascii -> bool).

Fixpoint greedy {R : Type} (class : ascii -> bool) (s : string)
  (k : string -> string -> option R) : option R :=
  match s with
  | String c s' =>
    if class c then
      match greedy class s' (fun taken rest => k (String c taken) rest) with
      | Some r => Some r
      | None => k EmptyString s
      end
    else k EmptyString s
  | EmptyString => k EmptyString s
  end.

Definition isEmpty (s : string) : bool :=
  match s with EmptyString => true | _ => false end.

Fixpoint exec (p : list rx) (s : string) (caps : list string)
  : option (list string) :=
  match p with
  | [] => if isEmpty s then Some caps else None
  | Lit l :: p' =>
    if String.prefix l s then exec p' (dropChars (String.length l) s) caps
    else None
  | Chr c :: p' =>
    match s with
    | String c' s' => if Ascii.eqb c c' then exec p' s' caps else None
    | EmptyString => None
    end
  | Opt c :: p' =>
    let taken :=
      match s with
      | String c' s' => if Ascii.eqb c c' then exec p' s' caps else None
      | EmptyString => None
      end in
    match taken with
    | Some r => Some r
    | None => exec p' s caps
    end
  | Rep capture atLeastOne class :: p' =>
    greedy class s (fun taken rest =>
      if (atLeastOne && isEmpty taken)%bool then None
      else exec p' rest (if capture then caps ++ [taken] else caps))
  end.

(** The pattern of a node line: the word node, white space, a captured
    token without white space, white space, a double quote, a captured run
    of characters other than the double quote, an optional closing double
    quote, and the end of the line. *)
Definition nodePattern : list rx :=
  [ Lit "node"; Rep false true isSpace; Rep true true notSpace;
    Rep false true isSpace; Chr quote; Rep true false notQuote; Opt quote ].

(** [/^edge\s+(\S+)\s*->\s*(\S+)$/] *)
Definition edgePattern : list rx :=
  [ Lit "edge"; Rep false true isSpace; Rep true true notSpace;
    Rep false false isSpace; Lit "->"; Rep false false isSpace;
    Rep true true notSpace ].

(** [line.match(pattern)] for a pattern with two groups. *)
Definition match2 (p : list rx) (line : string) : option (string * string) :=
  match exec p line [] with
  | Some [a; b] => Some (a, b)
  | _ => None
  end.

(** [a || b] on strings: the empty string is falsy. *)
Definition orElse (a b : string) : string := if isEmpty a then b else a.

(** The decimal text of a line number inside a template literal. *)
Definition showNat (n : nat) : string := NilZero.string_of_uint (Nat.to_uint n).

(** *** Property keys

    [Object.keys] lists the keys that are array indices first, in
    ascending numeric order, and every other key after them in creation
    order. A key is an array index when it is the canonical decimal text
    of an integer below 2^32 - 1. *)

Definition digit (c : ascii) : option N :=
  let n := N_of_ascii c in
  if (N.leb 48 n && N.leb n 57)%bool then Some (n - 48)%N else None.

Fixpoint digits (s : string) (acc : N) : option N :=
  match s with
  | EmptyString => Some acc
  | String c s' =>
    match digit c with
    | Some d => digits s' (10 * acc + d)%N
    | None => None
    end
  end.

Definition arrayIndex (key : string) : option N :=
  match key with
  | EmptyString => None
  | String c rest =>
    if Ascii.eqb c "0"%char then (if isEmpty rest then Some 0%N else None)
    else
      match digits key 0 with
      | Some n => if N.ltb n (2 ^ 32 - 1) then Some n else None
      | None => None
      end
  end.

(** The names every plain object inherits from [Object.prototype]. *)
Definition objectPrototype : list string :=
  [ "constructor"; "__defineGetter__"; "__defineSetter__"; "hasOwnProperty";
    "__lookupGetter__"; "__lookupSetter__"; "isPrototypeOf";
    "propertyIsEnumerable"; "toString"; "valueOf"; "__proto__";
    "toLocaleString" ].

(** Array indices in ascending order (an insertion sort). *)
Fixpoint insertIndex (p : N * string) (l : list (N * string))
  : list (N * string) :=
  match l with
  | [] => [p]
  | q :: l' => if N.leb p.1 q.1 then p :: l else q :: insertIndex p l'
  end.

Definition sortIndices (l : list (N * string)) : list (N * string) :=
  foldr insertIndex [] l.

(** *** Plain objects used as dictionaries

    An object is the list of its own properties in creation order. A read
    [o[key]] that finds no own property goes on to [Object.prototype], so
    it yields a function or an object, never a node, for the names above. *)

Section Object.

Context {V : Type}.

Definition object : Type := list (string * V).

Inductive property : Type :=
| Own (v : V)
| Inherited
| Undefined.

Fixpoint own (o : object) (key : string) : option V :=
  match o with
  | [] => None
  | (k, v) :: o' => if String.eqb k key then Some v else own o' key
  end.

(** [o[key]] *)
Definition get (o : object) (key : string) : property :=
  match own o key with
  | Some v => Own v
  | None => if bool_decide (key ∈ objectPrototype) then Inherited else Undefined
  end.

(** The truth value of [o[key]]: every object and function is truthy. *)
Definition truthy (p : property) : bool :=
  match p with
  | Undefined => false
  | _ => true
  end.

(** [o[key] = v] for a key that [o[key]] finds undefined: a new own
    property, last in creation order. *)
Definition define (o : object) (key : string) (v : V) : object :=
  o ++ [(key, v)].

(** [Object.keys(o)] *)
Definition keys (o : object) : list string :=
  let created := map fst o in
  let indexed := omap (fun k => (fun n => (n, k)) <$> arrayIndex k) created in
  map snd (sortIndices indexed)
  ++ List.filter (fun k => bool_decide (arrayIndex k = None)) created.

End Object.

Arguments object : clear implicits.
Arguments property : clear implicits.

End Js.

(** ** The data model *)

Module Node.

Record t : Type := make { id : string; title : string; children : list string }.

(** [node.children.push(child)] *)
Definition push (child : string) (n : t) : t :=
  {| id := id n; title := title n; children := children n ++ [child] |}.

End Node.

Record edge : Type := { from : string; to : string; line : nat }.

Record model : Type :=
  { nodes : Js.object Node.t; edges : list edge; root : string }.

(** ** Parse Text Function *)

Inductive parseError : Type :=
| BadNodeSyntax (lineNum : nat)
| DuplicateNodeId (lineNum : nat) (id : string)
| BadEdgeSyntax (lineNum : nat)
| UnknownDirective (lineNum : nat)
| UnknownNodeFrom (lineNum : nat) (id : string)
| UnknownNodeTo (lineNum : nat) (id : string)
| NoNodesDefined.

(** The text of the [error] field. *)
Definition errorText (e : parseError) : string :=
  let q := String Js.quote EmptyString in
  match e with
  | BadNodeSyntax n => "Line " +:+ Js.showNat n +:+ ": Bad Node Syntax"
  | DuplicateNodeId n id =>
    "Line " +:+ Js.showNat n +:+ ": Duplicate Node id " +:+ q +:+ id +:+ q
  | BadEdgeSyntax n => "Line " +:+ Js.showNat n +:+ ": Bad Edge Syntax"
  | UnknownDirective n => "Line " +:+ Js.showNat n +:+ ": Unknown Directive"
  | UnknownNodeFrom n id =>
    "Line " +:+ Js.showNat n +:+ ": Unknown Node " +:+ q +:+ id +:+ q
  | UnknownNodeTo n id =>
    "Line " +:+ Js.showNat n +:+ ": unknown node " +:+ q +:+ id +:+ q
  | NoNodesDefined => "No Nodes Defined"
  end.

(** What a call of [parse] or of one of its loops comes to: a value, an
    object with an [error] field, or a [TypeError] that is thrown. *)
Inductive result (A : Type) : Type :=
| Ok (a : A)
| Failed (e : parseError)
| Thrown.

Arguments Ok {A} a.
Arguments Failed {A} e.
Arguments Thrown {A}.

(** The body of the first loop, for the line [raw] numbered [lineNum]. *)
Definition scanLine (lineNum : nat) (raw : string)
  (nodes : Js.object Node.t) (edges : list edge)
  : result (Js.object Node.t * list edge) :=
  let line := Js.trim raw in
  if Js.isEmpty line then Ok (nodes, edges)
  else if Js.startsWith line "node " then
    match Js.match2 Js.nodePattern line with
    | None => Failed (BadNodeSyntax lineNum)
    | Some (id, title) =>
      if Js.truthy (Js.get nodes id) then Failed (DuplicateNodeId lineNum id)
      else
        Ok (Js.define nodes id (Node.make id (Js.orElse title id) []), edges)
    end
  else if Js.startsWith line "edge " then
    match Js.match2 Js.edgePattern line with
    | None => Failed (BadEdgeSyntax lineNum)
    | Some (a, b) =>
      Ok (nodes, edges ++ [{| from := a; to := b; line := lineNum |}])
    end
  else Failed (UnknownDirective lineNum).

(** The first loop; [lineNum] is the number of lines read so far. *)
Fixpoint scan (lines : list string) (lineNum : nat)
  (nodes : Js.object Node.t) (edges : list edge)
  : result (Js.object Node.t * list edge) :=
  match lines with
  | [] => Ok (nodes, edges)
  | raw :: rest =>
    let lineNum := S lineNum in
    match scanLine lineNum raw nodes edges with
    | Ok (nodes', edges') => scan rest lineNum nodes' edges'
    | Failed e => Failed e
    | Thrown => Thrown
    end
  end.

(** [nodes[from].children.push(to)] when [nodes[from]] is a node. *)
Definition pushChild (from to : string) (nodes : Js.object Node.t)
  : Js.object Node.t :=
  map (fun p => if String.eqb p.1 from then (p.1, Node.push to p.2) else p)
      nodes.

(** The second loop. An endpoint that names a member of
    [Object.prototype] passes both tests; as a source it has no
    [children], and the [push] throws. *)
Fixpoint link (pending : list edge) (nodes : Js.object Node.t)
  : result (Js.object Node.t) :=
  match pending with
  | [] => Ok nodes
  | e :: rest =>
    if negb (Js.truthy (Js.get nodes (from e)))
    then Failed (UnknownNodeFrom (line e) (from e))
    else if negb (Js.truthy (Js.get nodes (to e)))
    then Failed (UnknownNodeTo (line e) (to e))
    else
      match Js.get nodes (from e) with
      | Js.Own _ => link rest (pushChild (from e) (to e) nodes)
      | _ => Thrown
      end
  end.

(** [Object.keys(nodes).find(id => !targets.has(id)) || Object.keys(nodes)[0]];
    [None] is [undefined]. *)
Definition chooseRoot (nodes : Js.object Node.t) (edges : list edge)
  : option string :=
  let targets : gset string := list_to_set (map to edges) in
  let declared := Js.keys nodes in
  match List.find (fun id => negb (bool_decide (id ∈ targets))) declared with
  | Some id => if Js.isEmpty id then head declared else Some id
  | None => head declared
  end.

Definition parse (text : string) : result model :=
  let lines := Js.split text in
  match scan lines 0 [] [] with
  | Ok (nodes, edges) =>
    match link edges nodes with
    | Ok nodes =>
      match chooseRoot nodes edges with
      | Some root =>
        if Js.isEmpty root then Failed NoNodesDefined
        else Ok {| nodes := nodes; edges := edges; root := root |}
      | None => Failed NoNodesDefined
      end
    | Failed e => Failed e
    | Thrown => Thrown
    end
  | Failed e => Failed e
  | Thrown => Thrown
  end.

(** ** Create FlowChart Layout *)

(** What a call of the layout comes to: a value, a [TypeError] (a property
    read on [undefined]), or a call stack deeper than [fuel]. *)
Inductive outcome (A : Type) : Type :=
| Done (a : A)
| TypeError
| OutOfFuel.

Arguments Done {A} a.
Arguments TypeError {A}.
Arguments OutOfFuel {A}.

#[export] Instance outcome_bind : MBind outcome :=
  fun A B k o =>
    match o with
    | Done a => k a
    | TypeError => TypeError
    | OutOfFuel => OutOfFuel
    end.

(** [items.forEach(item => body(item))] over a state that [body] updates. *)
Fixpoint forEach {A S : Type} (body : A -> S -> outcome S) (items : list A)
  (s : S) : outcome S :=
  match items with
  | [] => Done s
  | item :: rest => s' ← body item s; forEach body rest s'
  end.

Definition NODE_W : Q := 130.
Definition NODE_H : Q := 46.
Definition X_GAP : Q := 36.
Definition Y_GAP : Q := 80.

(** A natural number as a JavaScript number. *)
Definition ofNat (n : nat) : Q := inject_Z (Z.of_nat n).

(** The number read from [map.get(key)]. A miss is [undefined], which
    arithmetic would turn into NaN; no read of the layout misses (lemmas
    [firstPass_placed] and [layoutTree_reads]), and the embedding reads 0
    there. *)
Definition number (v : option Q) : Q := default 0%Q v.

(** [Math.min(x, ...xs)] and [Math.max(x, ...xs)] *)
Definition Math_min (x : Q) (xs : list Q) : Q := foldl Qmin x xs.
Definition Math_max (x : Q) (xs : list Q) : Q := foldl Qmax x xs.

(** [(Math.min(...xs) + Math.max(...xs)) / 2] for a list that is not
    empty, in the arithmetic of [Q]: the double of the source where
    neither the sum nor the quotient rounds. *)
Definition centre (x : Q) (xs : list Q) : Q :=
  Qred ((Math_min x xs + Math_max x xs) / 2).

Definition visibleChildren (collapsed : gset string) (id : string)
  (nodes : Js.object Node.t) : outcome (list string) :=
  if bool_decide (id ∈ collapsed) then Done []
  else
    match Js.get nodes id with
    | Js.Own n => Done (Node.children n)
    | Js.Inherited => Done []
    | Js.Undefined => TypeError
    end.

(** The three variables of [layoutTree] that [firstPass] updates. *)
Record pass : Type :=
  { xPosition : gmap string Q; xPositionNext : nat; depth : gmap string nat }.

Definition setDepth (id : string) (d : nat) (p : pass) : pass :=
  {| xPosition := xPosition p; xPositionNext := xPositionNext p;
     depth := <[id := d]> (depth p) |}.

(** [xPosition.set(id, xPositionNext++)] *)
Definition placeLeaf (id : string) (p : pass) : pass :=
  {| xPosition := <[id := ofNat (xPositionNext p)]> (xPosition p);
     xPositionNext := S (xPositionNext p);
     depth := depth p |}.

(** The two statements after [kids.forEach], for [kids = k :: ks]. *)
Definition placeParent (id k : string) (ks : list string) (p : pass) : pass :=
  let slot := fun c => number (xPosition p !! c) in
  {| xPosition := <[id := centre (slot k) (map slot ks)]> (xPosition p);
     xPositionNext := xPositionNext p;
     depth := depth p |}.

Module Coord.

Record t : Type := make { x : Q; y : Q }.

End Coord.

(** What [layoutTree] returns. [coords] maps an id to the object that
    [coords[id] = ...] stores and [coords[id]] reads back. (For the id
    [__proto__] the assignment replaces the prototype of [coords] and the
    read returns that prototype, so the object is read back all the
    same.) *)
Record layout : Type := { coords : gmap string Coord.t; vis : list string }.

Section Layout.

Variable collapsed : gset string.
Variable nodes : Js.object Node.t.

Definition children (id : string) : outcome (list string) :=
  visibleChildren collapsed id nodes.

Fixpoint firstPass (fuel : nat) (id : string) (d : nat) (p : pass)
  : outcome pass :=
  match fuel with
  | O => OutOfFuel
  | S fuel' =>
    let p := setDepth id d p in
    kids ← children id;
    match kids with
    | [] => Done (placeLeaf id p)
    | k :: ks =>
      p' ← forEach (fun c => firstPass fuel' c (S d)) kids p;
      Done (placeParent id k ks p')
    end
  end.

Fixpoint depthFirstSearch (fuel : nat) (id : string) (vis : list string)
  : outcome (list string) :=
  match fuel with
  | O => OutOfFuel
  | S fuel' =>
    if bool_decide (id ∈ vis) then Done vis
    else
      let vis := vis ++ [id] in
      kids ← children id;
      forEach (depthFirstSearch fuel') kids vis
  end.

(** The object that the last loop stores under [coords[id]], in the
    arithmetic of [Q]: the doubles of the source where neither product
    rounds. *)
Definition coordOf (p : pass) (id : string) : Coord.t :=
  Coord.make
    (Qred (number (xPosition p !! id) * (NODE_W + X_GAP)))
    (Qred (ofNat (default 0%nat (depth p !! id)) * (NODE_H + Y_GAP))).

Definition emptyPass : pass :=
  {| xPosition := ∅; xPositionNext := 0; depth := ∅ |}.

Definition layoutFrom (fuel : nat) (root : string) : outcome layout :=
  p ← firstPass fuel root 0 emptyPass;
  vis ← depthFirstSearch fuel root [];
  Done {| coords := foldl (fun c id => <[id := coordOf p id]> c) ∅ vis;
          vis := vis |}.

End Layout.

Definition layoutTree (fuel : nat) (collapsed : gset string) (m : model)
  : outcome layout :=
  layoutFrom collapsed (nodes m) fuel (root m).

(** ** The page: collapse state, drawing and input handling

    The state that outlives one call: the [collapsed] set, [currentModel],
    the status line and what has been appended to the SVG element. Saving
    the text ([saveSource]) and [fitViewBox] touch none of these and are
    left out. *)

Inductive marker : Type := Expandable | Collapsible | Plain.

Inductive shape : Type :=
| Connector (parentX parentY childX childY : Q)
| Box (id title : string) (mark : marker) (x y : Q).

Record page : Type :=
  { collapsed : gset string;
    currentModel : option model;
    status : bool * string;
    svg : list shape }.

Definition setStatus (ok : bool) (message : string) (p : page) : page :=
  {| collapsed := collapsed p; currentModel := currentModel p;
     status := (ok, message); svg := svg p |}.

Definition clearSvg (p : page) : page :=
  {| collapsed := collapsed p; currentModel := currentModel p;
     status := status p; svg := [] |}.

Definition draw (s : list shape) (p : page) : page :=
  {| collapsed := collapsed p; currentModel := currentModel p;
     status := status p; svg := svg p ++ s |}.

(** [mergeCollapseState(oldSet, newNodes)]: [oldSet.delete(id)] for every
    [id] whose [newNodes[id]] is falsy. *)
Definition mergeCollapseState (oldSet : gset string)
  (newNodes : Js.object Node.t) : gset string :=
  filter (fun id => Js.truthy (Js.get newNodes id) = true) oldSet.

(** [node.children || []] and [node.title || id] for [node = nodes[id]];
    reading a property of [undefined] throws. *)
Definition childrenOf (nodes : Js.object Node.t) (id : string)
  : outcome (list string) :=
  match Js.get nodes id with
  | Js.Own n => Done (Node.children n)
  | Js.Inherited => Done []
  | Js.Undefined => TypeError
  end.

Definition titleOf (nodes : Js.object Node.t) (id : string) : outcome string :=
  match Js.get nodes id with
  | Js.Own n => Done (Js.orElse (Node.title n) id)
  | Js.Inherited => Done id
  | Js.Undefined => TypeError
  end.

(** [coords[id]], whose fields are read at once. *)
Definition coordsAt (l : layout) (id : string) : outcome Coord.t :=
  match coords l !! id with
  | Some c => Done c
  | None => TypeError
  end.

(** The connectors of one visible node, in the order of its children. *)
Definition drawEdges (m : model) (l : layout) (id : string)
  : outcome (list shape) :=
  kids ← childrenOf (nodes m) id;
  forEach (fun idChild drawn =>
      if bool_decide (idChild ∈ vis l) then
        a ← coordsAt l id;
        b ← coordsAt l idChild;
        Done (drawn ++ [Connector (Coord.x a) (Coord.y a) (Coord.x b) (Coord.y b)])
      else Done drawn)
    kids [].

Definition drawNode (collapsed : gset string) (m : model) (l : layout)
  (id : string) : outcome shape :=
  kids ← childrenOf (nodes m) id;
  title ← titleOf (nodes m) id;
  c ← coordsAt l id;
  let mark :=
    if bool_decide (id ∈ collapsed) then Expandable
    else if bool_decide (kids = []) then Plain else Collapsible in
  Done (Box id title mark (Coord.x c) (Coord.y c)).

(** [render(model)]; an exception leaves the page as it was when thrown,
    which the outcome does not record. *)
Definition render (fuel : nat) (m : model) (p : page) : outcome page :=
  let p := clearSvg
    {| collapsed := collapsed p; currentModel := Some m;
       status := status p; svg := svg p |} in
  l ← layoutTree fuel (collapsed p) m;
  p ← forEach (fun id p => s ← drawEdges m l id; Done (draw s p)) (vis l) p;
  forEach (fun id p => s ← drawNode (collapsed p) m l id; Done (draw [s] p))
          (vis l) p.

(** The click listener that [drawNode] installs on the box of [id]. With
    no current model, [render(currentModel)] throws at the first read of
    the model. *)
Definition click (fuel : nat) (id title : string) (childrenCount : nat)
  (p : page) : outcome page :=
  match childrenCount with
  | O => Done p
  | S _ =>
    let toggled :=
      if bool_decide (id ∈ collapsed p) then collapsed p ∖ {[id]}
      else collapsed p ∪ {[id]} in
    let word :=
      if bool_decide (id ∈ toggled) then "Collapsed " else "Expanded " in
    let p :=
      setStatus true (word +:+ Js.orElse title id)
        {| collapsed := toggled; currentModel := currentModel p;
           status := status p; svg := svg p |} in
    match currentModel p with
    | Some m => render fuel m p
    | None => TypeError
    end
  end.

(** [onInput], for the text [text] of the editor. A [TypeError] thrown by
    [parse] ends the handler at once. *)
Definition onInput (fuel : nat) (text : string) (p : page) : outcome page :=
  match parse text with
  | Failed e => Done (clearSvg (setStatus false (errorText e) p))
  | Thrown => TypeError
  | Ok m =>
    let p :=
      {| collapsed := mergeCollapseState (collapsed p) (nodes m);
         currentModel := currentModel p; status := status p; svg := svg p |} in
    let p :=
      setStatus true
        ("Parsed " +:+ Js.showNat (length (Js.keys (nodes m))) +:+ " Nodes") p in
    render fuel m p
  end.

(** ** The call tree of [firstPass]

    [firstPass] never reads what it writes to decide where to go: the calls
    it makes from [id] depend on [collapsed] and [nodes] alone. [callTree]
    records them, one node per call with the calls made from it in order,
    and [walk] replays the assignments of [firstPass] along such a tree. *)

#[warnings="-register-all"]
Inductive tree : Type := Tree (id : string) (kids : list tree).

Definition label (t : tree) : string :=
  match t with Tree id _ => id end.

Definition subtrees (t : tree) : list tree :=
  match t with Tree _ kids => kids end.

(** The ids in the order in which the calls start. *)
Fixpoint preorder (t : tree) : list string :=
  match t with
  | Tree id kids => id :: concat (map preorder kids)
  end.

(** The ids of the calls that find no visible child, in call order. *)
Fixpoint leaves (t : tree) : list string :=
  match t with
  | Tree id [] => [id]
  | Tree id kids => concat (map leaves kids)
  end.

(** [items.map(f)] for an [f] that may fail, left to right. *)
Fixpoint visit {A B : Type} (f : A -> outcome B) (items : list A)
  : outcome (list B) :=
  match items with
  | [] => Done []
  | item :: rest => b ← f item; bs ← visit f rest; Done (b :: bs)
  end.

Fixpoint callTree (collapsed : gset string) (nodes : Js.object Node.t)
  (fuel : nat) (id : string) : outcome tree :=
  match fuel with
  | O => OutOfFuel
  | S fuel' =>
    kids ← children collapsed nodes id;
    ts ← visit (callTree collapsed nodes fuel') kids;
    Done (Tree id ts)
  end.

Fixpoint walk (t : tree) (d : nat) (p : pass) : pass :=
  match t with
  | Tree id kids =>
    let p := setDepth id d p in
    match kids with
    | [] => placeLeaf id p
    | k :: ks =>
      placeParent id (label k) (map label ks)
        (foldl (fun p c => walk c (S d) p) p kids)
    end
  end.

(** ** Visible paths

    [visiblePath collapsed nodes π]: every id of [π] but the first is a
    visible child of the one before it. *)

Inductive visiblePath (collapsed : gset string) (nodes : Js.object Node.t)
  : list string -> Prop :=
| path_end (a : string) : visiblePath collapsed nodes [a]
| path_step (a b : string) (π kids : list string) :
    children collapsed nodes a = Done kids ->
    b ∈ kids ->
    visiblePath collapsed nodes (b :: π) ->
    visiblePath collapsed nodes (a :: b :: π).

(** [id] can be reached from [root] along visible children. *)
Definition shown (collapsed : gset string) (nodes : Js.object Node.t)
  (root id : string) : Prop :=
  exists π, visiblePath collapsed nodes (root :: π) /\ last (root :: π) = Some id.

(** The calls of a tree, each as the tree below it, in call order. *)
Fixpoint calls (t : tree) : list tree :=
  match t with
  | Tree _ kids => t :: concat (map calls kids)
  end.

(** [walk] over the calls made from one node, in order. *)
Definition walkAll (kids : list tree) (d : nat) (p : pass) : pass :=
  foldl (fun p c => walk c d p) p kids.

(** [t] is the tree of the calls that [firstPass] makes from its root. *)
Definition isCallTree (collapsed : gset string) (nodes : Js.object Node.t)
  (t : tree) : Prop :=
  exists fuel, callTree collapsed nodes fuel (label t) = Done t.

(** ** Notions used to state the properties *)

(** The ids that the node lines of a text declare, in the order of the
    lines. *)

Definition declaredId (raw : string) : option string :=
  let line := Js.trim raw in
  if Js.isEmpty line then None
  else if Js.startsWith line "node "
       then fst <$> Js.match2 Js.nodePattern line
       else None.

Definition declared (text : string) : list string :=
  omap declaredId (Js.split text).

(** The slot that the first pass reads for [id]. *)
Definition slotOf (p : pass) (id : string) : Q := number (xPosition p !! id).


(** The ids of a tree with the level of each call, the root being at
    level [d]. *)
Fixpoint levels (t : tree) (d : nat) : list (string * nat) :=
  match t with
  | Tree id kids => (id, d) :: concat (map (fun k => levels k (S d)) kids)
  end.

(** Every id that some node of the model has as a child. *)
Definition allChildren (nodes : Js.object Node.t) : list string :=
  concat (map (fun p => Node.children p.2) nodes).

(** No read of [nodes[id].children] throws on the way down from [root]. *)
Definition closed (collapsed : gset string) (nodes : Js.object Node.t)
  (root : string) : Prop :=
  forall x, shown collapsed nodes root x ->
            children collapsed nodes x <> TypeError.

(** Every child of every node reads as truthy in [nodes]. *)
Definition wellLinked (nodes : Js.object Node.t) : Prop :=
  Forall (fun p => forall ch, ch ∈ Node.children p.2 ->
                     Js.truthy (Js.get nodes ch) = true) nodes.

(** The state of an id, as far as the layout reads it. *)
Definition entry (p : pass) (x : string) : option Q * option nat :=
  (xPosition p !! x, depth p !! x).

(** [walk] never removes an entry, and leaves one for every id of the
    tree. *)
Definition grows (p p' : pass) : Prop :=
  forall x, (is_Some (xPosition p !! x) -> is_Some (xPosition p' !! x))
         /\ (is_Some (depth p !! x) -> is_Some (depth p' !! x)).

Definition placed (p : pass) (x : string) : Prop :=
  is_Some (xPosition p !! x) /\ is_Some (depth p !! x).

(** Every visible child of an id of [new] is in [vis]. *)
Definition closedIn (collapsed : gset string) (nodes : Js.object Node.t)
  (new vis : list string) : Prop :=
  forall x kids k,
    x ∈ new -> children collapsed nodes x = Done kids -> k ∈ kids -> k ∈ vis.

(** The errors of the line scan. *)
Definition lineError (e : parseError) : Prop :=
  match e with
  | BadNodeSyntax _ | DuplicateNodeId _ _ | BadEdgeSyntax _
  | UnknownDirective _ => True
  | UnknownNodeFrom _ _ | UnknownNodeTo _ _ | NoNodesDefined => False
  end.

(** An edge that the second loop accepts. *)
Definition linkable (nodes : Js.object Node.t) (e : edge) : Prop :=
  is_Some (Js.own nodes (from e)) /\ Js.truthy (Js.get nodes (to e)) = true.

(** [x] lies one level below [y], one of the ids of [within] that has it
    as a visible child. *)
Definition below (collapsed : gset string) (nodes : Js.object Node.t)
  (p : pass) (within : list string) (x : string) : Prop :=
  exists y kids d,
    y ∈ within /\ children collapsed nodes y = Done kids /\ x ∈ kids /\
    depth p !! y = Some d /\ depth p !! x = Some (S d).

(** The root of [t] is at depth [d], and every id below it in [t] lies one
    level below one of the ids of [t]. *)
Definition levelled (collapsed : gset string) (nodes : Js.object Node.t)
  (t : tree) (d : nat) (p : pass) : Prop :=
  depth p !! label t = Some d /\
  forall x, x ∈ concat (map preorder (subtrees t)) ->
            below collapsed nodes p (preorder t) x.

(** ** Texts for the examples *)

Definition quoted (s : string) : string :=
  String Js.quote s +:+ String Js.quote EmptyString.

Definition nodeLine (id title : string) : string :=
  "node " +:+ id +:+ " " +:+ quoted title.

Definition edgeLine (a b : string) : string :=
  "edge " +:+ a +:+ " -> " +:+ b.

Definition textOf (lines : list string) : string :=
  String.concat (String Js.LF EmptyString) lines.

(** ** Models for the examples *)

(** R has the children A and B, and A has the child C. *)
Definition treeText : string :=
  textOf [nodeLine "R" "root"; nodeLine "A" "a"; nodeLine "B" "b";
          nodeLine "C" "c"; edgeLine "R" "A"; edgeLine "R" "B";
          edgeLine "A" "C"].

Definition treeModel : model :=
  {| nodes := [("R", Node.make "R" "root" ["A"; "B"]);
               ("A", Node.make "A" "a" ["C"]);
               ("B", Node.make "B" "b" []);
               ("C", Node.make "C" "c" [])];
     edges := [{| from := "R"; to := "A"; line := 5 |};
               {| from := "R"; to := "B"; line := 6 |};
               {| from := "A"; to := "C"; line := 7 |}];
     root := "R" |}.

Definition treeLayout : layout :=
  {| coords := list_to_map [("R", Coord.make 83 0); ("A", Coord.make 0 126);
                            ("C", Coord.make 0 252); ("B", Coord.make 166 126)];
     vis := ["R"; "A"; "C"; "B"] |}.

(** What the first pass leaves for [treeModel]. *)
Definition treePass : pass :=
  {| xPosition := list_to_map [("R", 1 # 2); ("A", 0); ("C", 0); ("B", 1)]%Q;
     xPositionNext := 2;
     depth := list_to_map [("R", 0); ("A", 1); ("C", 2); ("B", 1)] |}.

(** R has the children A and B, and A has the child B as well. *)
Definition dagText : string :=
  textOf [nodeLine "R" "root"; nodeLine "A" "a"; nodeLine "B" "b";
          edgeLine "R" "A"; edgeLine "R" "B"; edgeLine "A" "B"].

Definition dagModel : model :=
  {| nodes := [("R", Node.make "R" "root" ["A"; "B"]);
               ("A", Node.make "A" "a" ["B"]);
               ("B", Node.make "B" "b" [])];
     edges := [{| from := "R"; to := "A"; line := 4 |};
               {| from := "R"; to := "B"; line := 5 |};
               {| from := "A"; to := "B"; line := 6 |}];
     root := "R" |}.

Definition dagLayout : layout :=
  {| coords := list_to_map [("R", Coord.make 83 0); ("A", Coord.make 0 126);
                            ("B", Coord.make 166 126)];
     vis := ["R"; "A"; "B"] |}.

Definition selfLoopText : string :=
  textOf [nodeLine "A" "a"; edgeLine "A" "A"].

Definition selfLoop : model :=
  {| nodes := [("A", Node.make "A" "a" ["A"])];
     edges := [{| from := "A"; to := "A"; line := 2 |}];
     root := "A" |}.

Definition rootText : string :=
  textOf [nodeLine "B" "b"; nodeLine "A" "a"; nodeLine "C" "c";
          edgeLine "A" "B"; edgeLine "A" "C"].

Definition blankText : string := textOf [""; "   "; ""].

Definition edgesOnlyText : string := textOf [edgeLine "A" "B"].

Definition indexText : string := textOf [nodeLine "2" "two"; nodeLine "1" "one"].

Definition orderText : string :=
  textOf [nodeLine "A" "a"; edgeLine "A" "B"; edgeLine "C" "D"; "oops"].

Definition refsText : string :=
  textOf [nodeLine "A" "a"; edgeLine "A" "A"; edgeLine "C" "D"; edgeLine "A" "B"].



Definition staleText : string :=
  textOf [nodeLine "A" "a"; nodeLine "B" "b"; edgeLine "A" "C"].

Definition freshText : string :=
  textOf [nodeLine "A" "a"; nodeLine "B" "b"; edgeLine "A" "B"].

Definition somePage : page :=
  {| collapsed := {["A"; "Z"]}; currentModel := None;
     status := (true, EmptyString); svg := [] |}.

Definition treeCalls : tree :=
  Tree "R" [Tree "A" [Tree "C" []]; Tree "B" []].

(** A has the child B twice. *)
Definition doubledText : string :=
  textOf [nodeLine "A" "a"; nodeLine "B" "b"; edgeLine "A" "B";
          edgeLine "A" "B"].

(** R has the children A and B, and B has the children C and D. *)
Definition wideText : string :=
  textOf [nodeLine "R" "root"; nodeLine "A" "a"; nodeLine "B" "b";
          nodeLine "C" "c"; nodeLine "D" "d"; edgeLine "R" "A";
          edgeLine "R" "B"; edgeLine "B" "C"; edgeLine "B" "D"].

Definition wideModel : model :=
  {| nodes := [("R", Node.make "R" "root" ["A"; "B"]);
               ("A", Node.make "A" "a" []);
               ("B", Node.make "B" "b" ["C"; "D"]);
               ("C", Node.make "C" "c" []);
               ("D", Node.make "D" "d" [])];
     edges := [{| from := "R"; to := "A"; line := 6 |};
               {| from := "R"; to := "B"; line := 7 |};
               {| from := "B"; to := "C"; line := 8 |};
               {| from := "B"; to := "D"; line := 9 |}];
     root := "R" |}.

Definition wideCalls : tree :=
  Tree "R" [Tree "A" []; Tree "B" [Tree "C" []; Tree "D" []]].

(** A caterpillar: each of the ids s0, ..., sn has two children, the next
    of them (a leaf for sn) and then a leaf of its own. *)
Fixpoint spine (n k : nat) : Js.object Node.t :=
  let s := "s" +:+ Js.showNat k in
  let b := "b" +:+ Js.showNat k in
  match n with
  | O => [(s, Node.make s s ["a"; b]); ("a", Node.make "a" "a" []);
          (b, Node.make b b [])]
  | S n' =>
    (s, Node.make s s ["s" +:+ Js.showNat (S k); b])
    :: (b, Node.make b b []) :: spine n' (S k)
  end.

Definition links (ns : Js.object Node.t) : list (string * string) :=
  concat (map (fun p => map (fun ch => (p.1, ch)) (Node.children p.2)) ns).

Definition caterpillarText (n : nat) : string :=
  let ns := spine n 0 in
  textOf (map (fun p => nodeLine p.1 (Node.title p.2)) ns
          ++ map (fun e => edgeLine e.1 e.2) (links ns)).

Definition caterpillar (n : nat) : model :=
  let ns := spine n 0 in
  {| nodes := ns;
     edges := imap (fun i e => {| from := e.1; to := e.2;
                                   line := length ns + S i |}) (links ns);
     root := "s0" |}.

(** ** Draw Edge Function *)

(** The points of the path that [drawEdge] draws: where it moves to, and
    the ends of its three lines, in the arithmetic of [Q]. *)
Definition pathDefinition (parentX parentY childX childY : Q)
  : list (Q * Q) :=
  let parentCenterX := (parentX + NODE_W / 2)%Q in
  let parentBottomY := (parentY + NODE_H)%Q in
  let childCenterX := (childX + NODE_W / 2)%Q in
  let childTopY := childY in
  let midpointY := ((parentBottomY + childTopY) / 2)%Q in
  [ (parentCenterX, parentBottomY); (parentCenterX, midpointY);
    (childCenterX, midpointY); (childCenterX, childTopY) ].

(** ** Doubles

    The numbers of the source are IEEE 754 doubles. An operation on
    doubles returns the double that is nearest to its exact result, which
    is the exact result when that is a double. So where every value that
    the source computes is a double in the arithmetic of [Q], no operation
    rounds, and the values of the embedding are the values of the
    source. *)

(** [q] is a double of magnitude below 2^53: [m / 2^k] for integers
    [|m| < 2^53] and [0 <= k <= 1074]. *)
Definition double (q : Q) : bool :=
  let q := Qred q in
  let den := Z.pos (Qden q) in
  ((Z.abs (Qnum q) <? 2 ^ 53) && (den =? 2 ^ Z.log2 den)
   && (Z.log2 den <=? 1074))%Z%bool.

(** No operation of the calls of [firstPass] along [t] rounds, for a call
    at depth [d] in the state [p]: the depth [d + 1] of the calls for the
    children, the counter before and after [xPositionNext++], the sum of
    the least and of the greatest slot of the children, and its half. *)
Fixpoint exactPass (t : tree) (d : nat) (p : pass) : bool :=
  match t with
  | Tree id kids =>
    let p := setDepth id d p in
    match kids with
    | [] =>
      double (ofNat (xPositionNext p)) && double (ofNat (S (xPositionNext p)))
    | k :: ks =>
      let each :=
        foldl (fun r c => (r.1 && exactPass c (S d) r.2, walk c (S d) r.2))
              (true, p) kids in
      let slot := slotOf each.2 in
      let lo := Math_min (slot (label k)) (map slot (map label ks)) in
      let hi := Math_max (slot (label k)) (map slot (map label ks)) in
      double (ofNat (S d)) && each.1
      && double (lo + hi) && double ((lo + hi) / 2)
    end
  end.

(** Neither product of [coords[id] = ...] rounds. *)
Definition exactCoord (p : pass) (id : string) : bool :=
  double (slotOf p id * (NODE_W + X_GAP))
  && double (ofNat (default 0%nat (depth p !! id)) * (NODE_H + Y_GAP)).

(** [layoutTree(model)] returns and no operation of it rounds. *)
Definition exactLayout (fuel : nat) (collapsed : gset string) (m : model)
  : bool :=
  match callTree collapsed (nodes m) fuel (root m),
        firstPass collapsed (nodes m) fuel (root m) 0 emptyPass,
        depthFirstSearch collapsed (nodes m) fuel (root m) [] with
  | Done t, Done p, Done vis =>
    exactPass t 0 emptyPass && forallb (exactCoord p) vis
  | _, _, _ => false
  end.

(** No operation of [drawEdge] rounds: the sum [parentBottomY + childTopY]
    and the coordinates of the four points. *)
Definition exactPath (parentX parentY childX childY : Q) : bool :=
  double (parentY + NODE_H + childY)
  && forallb (fun point => double point.1 && double point.2)
       (pathDefinition parentX parentY childX childY).

(** No operation of the calls of [drawEdge] for the children [kids] of
    [id] rounds. *)
Definition exactEdges (l : layout) (id : string) (kids : list string)
  : bool :=
  match coords l !! id with
  | Some a =>
    forallb (fun idChild =>
        match coords l !! idChild with
        | Some b => exactPath (Coord.x a) (Coord.y a) (Coord.x b) (Coord.y b)
        | None => true
        end) kids
  | None => true
  end.

(** ** Notions used to state the further properties *)

(** The edge that a line of the text declares. *)
Definition declaredEdge (raw : string) : option (string * string) :=
  let line := Js.trim raw in
  if Js.isEmpty line then None
  else if Js.startsWith line "node " then None
  else if Js.startsWith line "edge " then Js.match2 Js.edgePattern line
  else None.

(** The line number that an error message carries. *)
Definition errorLine (e : parseError) : option nat :=
  match e with
  | BadNodeSyntax n | DuplicateNodeId n _ | BadEdgeSyntax n
  | UnknownDirective n | UnknownNodeFrom n _ | UnknownNodeTo n _ => Some n
  | NoNodesDefined => None
  end.

(** Every character of [s] is in [class]. *)
Fixpoint allOf (class : ascii -> bool) (s : string) : bool :=
  match s with
  | EmptyString => true
  | String c s' => (class c && allOf class s')%bool
  end.

(** A node as the first loop creates it, from a line of [lines], under an
    id that [nodes] does not hold. *)
Definition created (lines : list string) (nodes : Js.object Node.t)
  (p : string * Node.t) : Prop :=
  exists raw title,
    raw ∈ lines /\
    Js.match2 Js.nodePattern (Js.trim raw) = Some (p.1, title) /\
    p.2 = Node.make p.1 (Js.orElse title p.1) [] /\
    Js.truthy (Js.get nodes p.1) = false.

(** An edge as the first loop records it: the edge of the line of [lines]
    whose number it carries, [n] lines having been read before. *)
Definition recorded (lines : list string) (n : nat) (e : edge) : Prop :=
  exists i raw,
    lines !! i = Some raw /\ line e = n + S i /\
    declaredEdge raw = Some (from e, to e).

(** The node that the second loop makes of [p] with the edges [pending]. *)
Definition linked (pending : list edge) (p : string * Node.t)
  : string * Node.t :=
  (p.1,
   Node.make (Node.id p.2) (Node.title p.2)
     (Node.children p.2
      ++ map to (List.filter (fun e => String.eqb p.1 (from e)) pending))).

(** A run of white space, and a token: a run of other characters that is
    not empty. *)
Definition blanks (ws : string) : Prop := allOf Js.isSpace ws = true.

Definition token (s : string) : Prop :=
  s <> EmptyString /\ allOf Js.notSpace s = true.

(** [class] cannot take the first character of [rest]. *)
Definition stops (class : ascii -> bool) (rest : string) : Prop :=
  match rest with
  | String c _ => class c = false
  | EmptyString => True
  end.

(** A line of text: it holds no line feed. *)
Definition oneLine (l : string) : Prop :=
  allOf (fun c => negb (Ascii.eqb c Js.LF)) l = true.

(** A line that the first loop reads without an error of syntax: a blank
    line, a node line or an edge line. *)
Definition wellFormed (raw : string) : Prop :=
  Js.trim raw = EmptyString \/ is_Some (declaredId raw)
  \/ is_Some (declaredEdge raw).

(** A slot that lies among the values [lo], ..., [hi - 1] of the
    counter. *)
Definition within (lo hi : nat) (s : Q) : Prop :=
  (ofNat lo <= s)%Q /\ (s + 1 <= ofNat hi)%Q.

(** Two slots that leave room for a box and a gap. *)
Definition apart (a b : Q) : Prop := (a + 1 <= b)%Q \/ (b + 1 <= a)%Q.

(** One slot at least to the right. *)
Definition rightOf (a b : Q) : Prop := (a + 1 <= b)%Q.

(** The visible children [kids] of [x] stand in order, each to the right
    of the one before, and [x] stands midway between the first and the
    last of them. *)
Definition inOrder (p : pass) (x : string) (kids : list string) : Prop :=
  match kids with
  | [] => True
  | k :: ks =>
    StronglySorted rightOf (map (slotOf p) kids) /\
    xPosition p !! x
    = Some (Qred ((slotOf p k + slotOf p (default k (last ks))) / 2))
  end.

(** The level of the last of the calls for [x], in the order of the
    calls. *)
Definition lastLevel (t : tree) (d : nat) (x : string) : option nat :=
  snd <$> last (filter (fun e => e.1 = x) (levels t d)).

(** Two lists of points with equal coordinates. *)
Definition samePoints (ps qs : list (Q * Q)) : Prop :=
  Forall2 (fun u v => (u.1 == v.1)%Q /\ (u.2 == v.2)%Q) ps qs.

(** ** A layout for the examples *)

(** The layout of [treeModel] with A collapsed. *)
Definition foldedLayout : layout :=
  {| coords := list_to_map [("R", Coord.make 83 0); ("A", Coord.make 0 126);
                            ("B", Coord.make 166 126)];
     vis := ["R"; "A"; "B"] |}.

(** The layout of [treeModel] with R collapsed. *)
Definition rootLayout : layout :=
  {| coords := list_to_map [("R", Coord.make 0 0)]; vis := ["R"] |}.

(** The layout of [wideModel], and the layout of what lies below B in
    it. *)
Definition wideLayout : layout :=
  {| coords := list_to_map [("R", Coord.make (249 # 2) 0);
                            ("A", Coord.make 0 126);
                            ("B", Coord.make 249 126);
                            ("C", Coord.make 166 252);
                            ("D", Coord.make 332 252)];
     vis := ["R"; "A"; "B"; "C"; "D"] |}.

Definition subLayout : layout :=
  {| coords := list_to_map [("B", Coord.make 83 0); ("C", Coord.make 0 126);
                            ("D", Coord.make 166 126)];
     vis := ["B"; "C"; "D"] |}.

(** The lines of [treeText], indented and ending with a carriage
    return. *)
Definition paddedText : string :=
  String.concat (String Js.CR (String Js.LF EmptyString))
    (map (fun l => "  " +:+ l)
       [nodeLine "R" "root"; nodeLine "A" "a"; nodeLine "B" "b";
        nodeLine "C" "c"; edgeLine "R" "A"; edgeLine "R" "B";
        edgeLine "A" "C"])
  +:+ String Js.CR EmptyString.

(** * Properties *)

(** ** The embedding at work *)

Example split_lines :
  Js.split ("a" +:+ String Js.CR (String Js.LF "b") +:+ String Js.LF ""
            +:+ String Js.CR "c")
  = ["a"; "b"; String Js.CR "c"].
Proof. reflexivity. Qed.

Example split_empty : Js.split "" = [""].
Proof. reflexivity. Qed.

Example trim_both_ends :
  Js.trim (String (ascii_of_N 9) "  node A  " +:+ String (ascii_of_N 160) "")
  = "node A".
Proof. reflexivity. Qed.

(** The closing quote of a title may be missing; nothing may follow it. *)
Example node_line_open_title :
  Js.match2 Js.nodePattern ("node  A  " +:+ String Js.quote "my title")
  = Some ("A", "my title").
Proof. reflexivity. Qed.

Example node_line_trailing_text :
  Js.match2 Js.nodePattern (nodeLine "A" "t" +:+ " x") = None.
Proof. reflexivity. Qed.

(** The first token of an edge line is as long as the rest allows. *)
Example edge_line_two_arrows :
  Js.match2 Js.edgePattern "edge A->B->C" = Some ("A->B", "C").
Proof. reflexivity. Qed.

Example edge_line_spaces :
  Js.match2 Js.edgePattern "edge A  ->B" = Some ("A", "B").
Proof. reflexivity. Qed.

Example keys_order :
  Js.keys [("b", 1); ("10", 2); ("a", 3); ("9", 4); ("07", 5)]
  = ["9"; "10"; "b"; "a"; "07"].
Proof. reflexivity. Qed.

(** Names that every object inherits: declaring one is a duplicate, an
    edge to one is accepted, an edge from one throws. *)
Example parse_inherited_name :
  parse (textOf [nodeLine "toString" "t"])
  = Failed (DuplicateNodeId 1 "toString") /\
  parse (textOf [nodeLine "A" "a"; edgeLine "A" "toString"])
  = Ok {| nodes := [("A", Node.make "A" "a" ["toString"])];
          edges := [{| from := "A"; to := "toString"; line := 2 |}];
          root := "A" |} /\
  parse (textOf [nodeLine "A" "a"; edgeLine "toString" "A"]) = Thrown.
Proof. repeat split; reflexivity. Qed.

Example errorText_duplicate :
  errorText (DuplicateNodeId 3 "A") = "Line 3: Duplicate Node id " +:+ quoted "A".
Proof. reflexivity. Qed.

Example treeText_parses : parse treeText = Ok treeModel.
Proof. reflexivity. Qed.

Example treeModel_layout : layoutTree 3 ∅ treeModel = Done treeLayout.
Proof. vm_compute. reflexivity. Qed.

Example treeModel_stack : layoutTree 2 ∅ treeModel = OutOfFuel.
Proof. vm_compute. reflexivity. Qed.

Example dagText_parses : parse dagText = Ok dagModel.
Proof. reflexivity. Qed.

(** ** Doubles *)

(** A positive divisor of a power of two is a power of two. *)
Lemma divide_pow2 (k : Z) :
  (0 <= k)%Z ->
  forall d : Z, (0 < d)%Z -> (d | 2 ^ k)%Z ->
  exists j : Z, (0 <= j <= k)%Z /\ d = (2 ^ j)%Z.
Proof.
  intros Hk. pattern k. apply natlike_ind; [| |exact Hk]; clear k Hk.
  - intros d Hd Hdiv. exists 0%Z. split; [lia|].
    apply Z.divide_1_r_nonneg in Hdiv; [exact Hdiv|lia].
  - intros k Hk IH d Hd Hdiv. rewrite Z.pow_succ_r in Hdiv by exact Hk.
    destruct (Z.Even_or_Odd d) as [[d' ->]|[d' ->]].
    + destruct (IH d') as (j & Hj & ->); [lia| |].
      { apply (Z.mul_divide_cancel_l _ _ 2); [lia|exact Hdiv]. }
      exists (Z.succ j). split; [lia|]. rewrite Z.pow_succ_r by lia.
      reflexivity.
    + destruct (IH (2 * d' + 1)%Z) as (j & Hj & E); [lia| |].
      { apply (Z.gauss _ 2); [exact Hdiv|].
        rewrite Z.gcd_comm, Z.add_comm, Z.mul_comm, Z.gcd_add_mult_diag_r.
        apply Z.gcd_1_r. }
      exists j. split; [lia|exact E].
Qed.

(** [double] is what its description says. *)
Lemma double_spec (q : Q) :
  double q = true <->
  exists m k : Z,
    (Z.abs m < 2 ^ 53)%Z /\ (0 <= k <= 1074)%Z /\
    (q == inject_Z m / inject_Z (2 ^ k))%Q.
Proof.
  unfold double. rewrite !andb_true_iff, Z.ltb_lt, Z.eqb_eq, Z.leb_le. split.
  - intros [[Hm Hden] Hk].
    exists (Qnum (Qred q)), (Z.log2 (Z.pos (Qden (Qred q)))).
    split; [exact Hm|]. split; [split; [apply Z.log2_nonneg|exact Hk]|].
    rewrite <- Hden, <- Qmake_Qdiv. destruct (Qred q) eqn:E. simpl.
    rewrite <- E. symmetry. apply Qred_correct.
  - intros (m & k & Hm & [Hk0 Hk] & E).
    assert (Hpos : (0 < 2 ^ k)%Z) by (apply Z.pow_pos_nonneg; lia).
    assert (E' : (q == m # Z.to_pos (2 ^ k))%Q).
    { rewrite E, Qmake_Qdiv, Z2Pos.id by exact Hpos. reflexivity. }
    apply Qred_complete in E'. rewrite E'. unfold Qred.
    pose proof (Z.ggcd_correct_divisors m (Z.pos (Z.to_pos (2 ^ k)))) as Hg.
    pose proof (Z.ggcd_gcd m (Z.pos (Z.to_pos (2 ^ k)))) as Hgcd.
    destruct (Z.ggcd m (Z.pos (Z.to_pos (2 ^ k)))) as [g [n d]].
    cbn [fst] in Hgcd. destruct Hg as [Hn Hd]. cbn [snd Qnum Qden].
    rewrite Z2Pos.id in Hd, Hgcd by exact Hpos.
    assert (Hg0 : (0 <= g)%Z) by (rewrite Hgcd; apply Z.gcd_nonneg).
    assert (Hg1 : (0 < g)%Z).
    { destruct (Z.eq_dec g 0%Z) as [->|]; [|lia]. rewrite Z.mul_0_l in Hd. lia. }
    assert (Hd0 : (0 < d)%Z).
    { destruct (Z.lt_ge_cases 0%Z d) as [|Hle]; [assumption|].
      assert (g * d <= 0)%Z by (apply Z.mul_nonneg_nonpos; lia). lia. }
    rewrite Z2Pos.id by exact Hd0.
    destruct (divide_pow2 k Hk0 d Hd0) as (j & [Hj0 Hjk] & Hj).
    { exists g. exact Hd. }
    rewrite Hj, Z.log2_pow2 by exact Hj0.
    split; [split; [|reflexivity]|lia].
    assert (Z.abs n <= Z.abs m)%Z; [|lia].
    rewrite Hn, Z.abs_mul, (Z.abs_eq g) by exact Hg0.
    rewrite <- (Z.mul_1_l (Z.abs n)) at 1.
    apply Z.mul_le_mono_nonneg_r; [apply Z.abs_nonneg|lia].
Qed.

(** Where rounding begins. In the layout of a caterpillar of 83 ids no
    operation rounds. With 85 ids the first pass is exact still, and the
    product for the x of the root is no double; with 97 ids a mean of the
    first pass is none. *)
Example rounding_begins :
  parse (caterpillarText 2) = Ok (caterpillar 2) /\
  (length (nodes (caterpillar 40)) = 83 /\
   exactLayout 50 ∅ (caterpillar 40) = true) /\
  (length (nodes (caterpillar 41)) = 85 /\
   (t ← callTree ∅ (nodes (caterpillar 41)) 50 "s0";
    Done (exactPass t 0 emptyPass)) = Done true /\
   (p ← firstPass ∅ (nodes (caterpillar 41)) 50 "s0" 0 emptyPass;
    Done (double (slotOf p "s0" * (NODE_W + X_GAP)))) = Done false /\
   exactLayout 50 ∅ (caterpillar 41) = false) /\
  (length (nodes (caterpillar 47)) = 97 /\
   (t ← callTree ∅ (nodes (caterpillar 47)) 50 "s0";
    Done (exactPass t 0 emptyPass)) = Done false).
Proof. repeat split; vm_compute; reflexivity. Qed.

(** ** Outcomes *)

Lemma bind_Done {A B : Type} (o : outcome A) (k : A -> outcome B) (b : B) :
  o ≫= k = Done b <-> exists a, o = Done a /\ k a = Done b.
Proof.
  destruct o as [a| |]; simpl; split.
  - intros H. exists a. auto.
  - intros (a' & [= <-] & H). exact H.
  - discriminate.
  - intros (a' & [=] & _).
  - discriminate.
  - intros (a' & [=] & _).
Qed.

(** ** Trees *)

Lemma tree_induction (P : tree -> Prop) :
  (forall id kids, Forall P kids -> P (Tree id kids)) -> forall t, P t.
Proof.
  intros step. fix IH 1. intros [id kids]. apply step.
  induction kids as [|k kids IHkids]; constructor; [apply IH | apply IHkids].
Qed.

Lemma elem_of_concat_map {A B : Type} (f : A -> list B) (l : list A) (x : B) :
  x ∈ concat (map f l) <-> exists a, a ∈ l /\ x ∈ f a.
Proof.
  induction l as [|a l IH]; simpl.
  - rewrite elem_of_nil. split; [tauto|]. intros (a & Ha & _).
    apply elem_of_nil in Ha. exact Ha.
  - rewrite elem_of_app, IH. split.
    + intros [H|(a' & Ha' & H)].
      * exists a. split; [apply list_elem_of_here|exact H].
      * exists a'. split; [apply list_elem_of_further, Ha'|exact H].
    + intros (a' & Ha' & H). apply elem_of_cons in Ha' as [->|Ha'].
      * left. exact H.
      * right. exists a'. auto.
Qed.

Lemma length_concat_map_le {A B : Type} (f : A -> list B) (l : list A) (a : A) :
  a ∈ l -> length (f a) <= length (concat (map f l)).
Proof.
  induction 1 as [a l|a a' l _ IH]; simpl; rewrite length_app; lia.
Qed.

Section CallTree.

Variable collapsed : gset string.
Variable nodes : Js.object Node.t.

#[local] Abbreviation children := (children collapsed nodes).
#[local] Abbreviation callTree := (callTree collapsed nodes).
#[local] Abbreviation firstPass := (firstPass collapsed nodes).

Lemma visit_Done {A B : Type} (f : A -> outcome B) (l : list A) (bs : list B) :
  visit f l = Done bs <-> Forall2 (fun a b => f a = Done b) l bs.
Proof.
  revert bs. induction l as [|a l IH]; intros bs; simpl.
  - split.
    + intros [= <-]. constructor.
    + intros H. inversion H. reflexivity.
  - rewrite bind_Done. split.
    + intros (b & Hb & H). apply bind_Done in H as (bs' & Hbs & [= <-]).
      constructor; [exact Hb | apply IH, Hbs].
    + intros H. inversion H as [|? b ? bs' Hb Hbs]; subst.
      exists b. split; [exact Hb|]. apply bind_Done. exists bs'.
      split; [apply IH, Hbs | reflexivity].
Qed.

Lemma callTree_S (fuel : nat) (id : string) (t : tree) :
  callTree (S fuel) id = Done t <->
  exists kids ts, children id = Done kids /\
    Forall2 (fun k s => callTree fuel k = Done s) kids ts /\ t = Tree id ts.
Proof.
  simpl. rewrite bind_Done. split.
  - intros (kids & Hk & H). apply bind_Done in H as (ts & Hts & [= <-]).
    exists kids, ts. rewrite <- visit_Done. auto.
  - intros (kids & ts & Hk & Hts & ->). exists kids. split; [exact Hk|].
    apply bind_Done. exists ts. rewrite visit_Done. auto.
Qed.

Lemma callTree_label (fuel : nat) (id : string) (t : tree) :
  callTree fuel id = Done t -> label t = id.
Proof.
  destruct fuel; [discriminate|]. rewrite callTree_S.
  intros (? & ? & _ & _ & ->). reflexivity.
Qed.

Lemma callTree_labels (fuel : nat) (kids : list string) (ts : list tree) :
  Forall2 (fun k s => callTree fuel k = Done s) kids ts -> map label ts = kids.
Proof.
  induction 1 as [|k s kids ts H _ IH]; simpl; [reflexivity|].
  rewrite IH, (callTree_label _ _ _ H). reflexivity.
Qed.

(** More fuel changes nothing once a call tree is complete. *)
Lemma callTree_mono (fuel : nat) :
  forall fuel' id t, fuel <= fuel' -> callTree fuel id = Done t ->
    callTree fuel' id = Done t.
Proof.
  induction fuel as [|fuel IH]; intros fuel' id t Hle; [discriminate|].
  destruct fuel' as [|fuel']; [lia|]. rewrite !callTree_S.
  intros (kids & ts & Hk & Hts & ->). exists kids, ts. split; [exact Hk|].
  split; [|reflexivity].
  eapply Forall2_impl; [exact Hts|]. intros k s. apply IH. lia.
Qed.

Lemma callTree_det (fuel fuel' : nat) (id : string) (t t' : tree) :
  callTree fuel id = Done t -> callTree fuel' id = Done t' -> t = t'.
Proof.
  intros H H'.
  apply (callTree_mono _ (Nat.max fuel fuel')) in H; [|lia].
  apply (callTree_mono _ (Nat.max fuel fuel')) in H'; [|lia].
  congruence.
Qed.

(** [firstPass] is [walk] along the call tree. *)
Lemma firstPass_walk (fuel : nat) :
  forall id d p,
    firstPass fuel id d p = callTree fuel id ≫= fun t => Done (walk t d p).
Proof.
  induction fuel as [|fuel IH]; intros id d p; [reflexivity|].
  simpl. destruct (children id) as [kids| |]; simpl; [|reflexivity..].
  assert (Hkids : forall l q,
    forEach (fun c => firstPass fuel c (S d)) l q =
    visit (callTree fuel) l ≫= fun ts =>
      Done (foldl (fun p c => walk c (S d) p) q ts)).
  { induction l as [|c l IHl]; intros q; simpl; [reflexivity|].
    rewrite IH. destruct (callTree fuel c) as [s| |]; simpl; [|reflexivity..].
    rewrite IHl. destruct (visit (callTree fuel) l); reflexivity. }
  destruct kids as [|k ks]; [reflexivity|].
  rewrite Hkids.
  destruct (visit (callTree fuel) (k :: ks)) as [ts| |] eqn:Hts; simpl;
    [|reflexivity..].
  apply visit_Done in Hts.
  pose proof (callTree_labels _ _ _ Hts) as Hl.
  destruct ts as [|s ss]; [inversion Hts|].
  simpl in Hl. injection Hl as -> <-. reflexivity.
Qed.

Lemma isCallTree_kids (id : string) (ts : list tree) :
  isCallTree collapsed nodes (Tree id ts) ->
  children id = Done (map label ts) /\ Forall (isCallTree collapsed nodes) ts.
Proof.
  intros [fuel H]. destruct fuel; [discriminate|].
  apply callTree_S in H as (kids & ts' & Hk & Hts & [= <-]).
  rewrite (callTree_labels _ _ _ Hts). split; [exact Hk|].
  clear Hk. induction Hts as [|k s kids ts H _ IH]; constructor; [|exact IH].
  exists fuel. rewrite (callTree_label _ _ _ H). exact H.
Qed.

Lemma preorder_calls (t : tree) : preorder t = map label (calls t).
Proof.
  induction t as [id kids IH] using tree_induction. simpl. f_equal.
  induction IH as [|k kids Hk _ IHkids]; simpl; [reflexivity|].
  rewrite map_app, Hk, IHkids. reflexivity.
Qed.

Lemma calls_self (t : tree) : t ∈ calls t.
Proof. destruct t. simpl. apply list_elem_of_here. Qed.

Lemma calls_kid (id : string) (kids : list tree) (k s : tree) :
  k ∈ kids -> s ∈ calls k -> s ∈ calls (Tree id kids).
Proof.
  intros Hk Hs. simpl. apply list_elem_of_further.
  apply elem_of_concat_map. exists k. auto.
Qed.

Lemma calls_inv (id : string) (kids : list tree) (s : tree) :
  s ∈ calls (Tree id kids) ->
  s = Tree id kids \/ exists k, k ∈ kids /\ s ∈ calls k.
Proof.
  simpl. intros [->|H]%elem_of_cons; [left; reflexivity|]. right.
  apply elem_of_concat_map in H. exact H.
Qed.

Lemma preorder_inv (id : string) (kids : list tree) (x : string) :
  x ∈ preorder (Tree id kids) <->
  x = id \/ exists k, k ∈ kids /\ x ∈ preorder k.
Proof.
  simpl. rewrite elem_of_cons, elem_of_concat_map. reflexivity.
Qed.

Lemma calls_isCallTree (t : tree) :
  isCallTree collapsed nodes t ->
  forall s, s ∈ calls t -> isCallTree collapsed nodes s.
Proof.
  induction t as [id kids IH] using tree_induction. intros Ht s Hs.
  apply calls_inv in Hs as [->|(k & Hk & Hs)]; [exact Ht|].
  apply isCallTree_kids in Ht as [_ Hkids].
  rewrite Forall_forall in IH, Hkids. eapply IH; eauto.
Qed.

Lemma calls_size (t : tree) :
  forall s, s ∈ calls t -> length (preorder s) <= length (preorder t).
Proof.
  induction t as [id kids IH] using tree_induction. intros s Hs.
  apply calls_inv in Hs as [->|(k & Hk & Hs)]; [lia|].
  rewrite Forall_forall in IH. specialize (IH k Hk s Hs).
  simpl. pose proof (length_concat_map_le preorder kids k Hk). lia.
Qed.

(** A call tree that is complete never calls its own root again. *)
Lemma callTree_acyclic (id : string) (kids : list tree) :
  isCallTree collapsed nodes (Tree id kids) ->
  forall k, k ∈ kids -> id ∉ preorder k.
Proof.
  intros Ht k Hk Hid.
  rewrite preorder_calls in Hid. apply list_elem_of_fmap in Hid as (s & Hl & Hs).
  assert (Hsub : s ∈ calls (Tree id kids)) by (eapply calls_kid; eauto).
  pose proof (calls_isCallTree _ Ht s Hsub) as [fuel' Hs'].
  destruct Ht as [fuel Ht]. simpl in Ht. rewrite <- Hl in Hs'.
  pose proof (callTree_det _ _ _ _ _ Ht Hs') as E.
  pose proof (calls_size k s Hs) as Hle. rewrite <- E in Hle.
  assert (length (preorder k) < length (preorder (Tree id kids))); [|lia].
  simpl. pose proof (length_concat_map_le preorder kids k Hk). lia.
Qed.

(** The ids of a call tree are closed under visible children. *)
Lemma callTree_closed (t : tree) (y x : string) (kids : list string) :
  isCallTree collapsed nodes t ->
  y ∈ preorder t -> children y = Done kids -> x ∈ kids -> x ∈ preorder t.
Proof.
  intros Ht Hy Hkids Hx. rewrite preorder_calls in *.
  apply list_elem_of_fmap in Hy as (s & -> & Hs).
  pose proof (calls_isCallTree _ Ht s Hs) as Hs'.
  destruct s as [y ss]. simpl in Hkids.
  apply isCallTree_kids in Hs' as [Hy _]. rewrite Hy in Hkids.
  injection Hkids as <-.
  apply list_elem_of_fmap in Hx as (s' & -> & Hs').
  apply list_elem_of_fmap. exists s'. split; [reflexivity|].
  clear -Hs Hs'. induction t as [id kids IH] using tree_induction.
  apply calls_inv in Hs as [[= -> ->]|(k & Hk & Hs)].
  - eapply calls_kid; [exact Hs'|apply calls_self].
  - rewrite Forall_forall in IH. eapply calls_kid; eauto.
Qed.

End CallTree.

(** ** What [walk] writes *)

Lemma walk_leaf (id : string) (d : nat) (p : pass) :
  walk (Tree id []) d p = placeLeaf id (setDepth id d p).
Proof. reflexivity. Qed.

Lemma walk_parent (id : string) (k : tree) (ks : list tree) (d : nat) (p : pass) :
  walk (Tree id (k :: ks)) d p =
  placeParent id (label k) (map label ks)
    (walkAll (k :: ks) (S d) (setDepth id d p)).
Proof. reflexivity. Qed.

Lemma walkAll_cons (k : tree) (ks : list tree) (d : nat) (p : pass) :
  walkAll (k :: ks) d p = walkAll ks d (walk k d p).
Proof. reflexivity. Qed.

Lemma entry_setDepth_ne (id x : string) (d : nat) (p : pass) :
  x ≠ id -> entry (setDepth id d p) x = entry p x.
Proof. intros H. unfold entry. simpl. rewrite lookup_insert_ne; auto. Qed.

Lemma entry_placeLeaf_ne (id x : string) (p : pass) :
  x ≠ id -> entry (placeLeaf id p) x = entry p x.
Proof. intros H. unfold entry. simpl. rewrite lookup_insert_ne; auto. Qed.

Lemma entry_placeParent_ne (id k x : string) (ks : list string) (p : pass) :
  x ≠ id -> entry (placeParent id k ks p) x = entry p x.
Proof. intros H. unfold entry. simpl. rewrite lookup_insert_ne; auto. Qed.

Lemma walkAll_frame (ts : list tree) (x : string) :
  Forall (fun t => forall d p, x ∉ preorder t -> entry (walk t d p) x = entry p x)
         ts ->
  forall d p, x ∉ concat (map preorder ts) ->
    entry (walkAll ts d p) x = entry p x.
Proof.
  induction 1 as [|t ts Ht _ IH]; intros d p Hx; [reflexivity|].
  simpl in Hx. apply not_elem_of_app in Hx as [Hx1 Hx2].
  rewrite walkAll_cons, IH, Ht; auto.
Qed.

(** [walk t] leaves alone every id that is not in [t]. *)
Lemma walk_frame (t : tree) (x : string) :
  forall d p, x ∉ preorder t -> entry (walk t d p) x = entry p x.
Proof.
  induction t as [id kids IH] using tree_induction. intros d p Hx.
  simpl in Hx. apply not_elem_of_cons in Hx as [Hne Hx].
  destruct kids as [|k ks].
  - rewrite walk_leaf, entry_placeLeaf_ne, entry_setDepth_ne; auto.
  - rewrite walk_parent, entry_placeParent_ne, walkAll_frame,
      entry_setDepth_ne; auto.
Qed.


Lemma walkAll_xPosition_other (ts : list tree) (x : string) (d : nat) (p : pass) :
  x ∉ concat (map preorder ts) ->
  xPosition (walkAll ts d p) !! x = xPosition p !! x.
Proof.
  intros H.
  enough (E : entry (walkAll ts d p) x = entry p x)
    by (unfold entry in E; congruence).
  apply walkAll_frame; [|exact H]. apply Forall_forall. intros t _.
  apply walk_frame.
Qed.

Lemma walkAll_depth_other (ts : list tree) (x : string) (d : nat) (p : pass) :
  x ∉ concat (map preorder ts) ->
  depth (walkAll ts d p) !! x = depth p !! x.
Proof.
  intros H.
  enough (E : entry (walkAll ts d p) x = entry p x)
    by (unfold entry in E; congruence).
  apply walkAll_frame; [|exact H]. apply Forall_forall. intros t _.
  apply walk_frame.
Qed.

(** The counter moves by one for every leaf call. *)
Lemma walkAll_next (ts : list tree) :
  Forall (fun t => forall d p,
            xPositionNext (walk t d p) = xPositionNext p + length (leaves t)) ts ->
  forall d p, xPositionNext (walkAll ts d p)
              = xPositionNext p + length (concat (map leaves ts)).
Proof.
  induction 1 as [|t ts Ht _ IH]; intros d p.
  - simpl. lia.
  - rewrite walkAll_cons, IH, Ht. simpl. rewrite length_app. lia.
Qed.

Lemma walk_next (t : tree) :
  forall d p, xPositionNext (walk t d p) = xPositionNext p + length (leaves t).
Proof.
  induction t as [id kids IH] using tree_induction. intros d p.
  destruct kids as [|k ks]; [simpl; lia|].
  rewrite walk_parent.
  change (xPositionNext (placeParent ?a ?b ?c ?q)) with (xPositionNext q).
  rewrite (walkAll_next _ IH). reflexivity.
Qed.

Lemma grows_refl (p : pass) : grows p p.
Proof. intros x. auto. Qed.

Lemma grows_trans (p q r : pass) : grows p q -> grows q r -> grows p r.
Proof. intros H1 H2 x. destruct (H1 x), (H2 x). auto. Qed.

Lemma is_Some_insert {A : Type} (m : gmap string A) (i x : string) (a : A) :
  is_Some (m !! x) -> is_Some (<[i := a]> m !! x).
Proof.
  intros H. destruct (decide (i = x)) as [->|Hne];
    [rewrite lookup_insert_eq; eauto | rewrite lookup_insert_ne; auto].
Qed.

Lemma grows_setDepth (id : string) (d : nat) (p : pass) :
  grows p (setDepth id d p).
Proof. intros x. simpl. auto using is_Some_insert. Qed.

Lemma grows_placeLeaf (id : string) (p : pass) : grows p (placeLeaf id p).
Proof. intros x. simpl. auto using is_Some_insert. Qed.

Lemma grows_placeParent (id k : string) (ks : list string) (p : pass) :
  grows p (placeParent id k ks p).
Proof. intros x. simpl. auto using is_Some_insert. Qed.

Lemma walkAll_grows (ts : list tree) :
  Forall (fun t => forall d p, grows p (walk t d p)) ts ->
  forall d p, grows p (walkAll ts d p).
Proof.
  induction 1 as [|t ts Ht _ IH]; intros d p; [apply grows_refl|].
  rewrite walkAll_cons. eapply grows_trans; [apply Ht|apply IH].
Qed.

Lemma walk_grows (t : tree) : forall d p, grows p (walk t d p).
Proof.
  induction t as [id kids IH] using tree_induction. intros d p.
  destruct kids as [|k ks].
  - rewrite walk_leaf.
    eapply grows_trans; [apply grows_setDepth|apply grows_placeLeaf].
  - rewrite walk_parent.
    eapply grows_trans; [apply grows_setDepth|].
    eapply grows_trans; [apply walkAll_grows, IH|apply grows_placeParent].
Qed.

Lemma placed_grows (p p' : pass) (x : string) :
  grows p p' -> placed p x -> placed p' x.
Proof. intros H [H1 H2]. destruct (H x). split; auto. Qed.

Lemma walk_placed_root (t : tree) (d : nat) (p : pass) :
  placed (walk t d p) (label t).
Proof.
  destruct t as [id kids]. simpl label.
  assert (H : is_Some (depth (setDepth id d p) !! id))
    by (simpl; rewrite lookup_insert_eq; eauto).
  destruct kids as [|k ks].
  - rewrite walk_leaf. split; [|exact H]. simpl. rewrite lookup_insert_eq. eauto.
  - rewrite walk_parent. split; [simpl; rewrite lookup_insert_eq; eauto|].
    simpl depth.
    refine (proj2 (walkAll_grows (k :: ks) _ (S d) (setDepth id d p) id) H).
    apply Forall_forall. intros t _. apply walk_grows.
Qed.

Lemma walkAll_placed (ts : list tree) (x : string) :
  Forall (fun t => forall d p, x ∈ preorder t -> placed (walk t d p) x) ts ->
  forall d p, x ∈ concat (map preorder ts) -> placed (walkAll ts d p) x.
Proof.
  induction 1 as [|t ts Ht _ IH]; intros d p Hx; simpl in Hx.
  - apply elem_of_nil in Hx. destruct Hx.
  - rewrite walkAll_cons. apply elem_of_app in Hx as [Hx|Hx]; [|auto].
    eapply placed_grows; [|apply Ht, Hx].
    apply walkAll_grows, Forall_forall. intros t' _. apply walk_grows.
Qed.

Lemma walk_placed (t : tree) (x : string) :
  forall d p, x ∈ preorder t -> placed (walk t d p) x.
Proof.
  induction t as [id kids IH] using tree_induction. intros d p Hx.
  simpl in Hx. apply elem_of_cons in Hx as [->|Hx];
    [apply (walk_placed_root (Tree id kids))|].
  destruct kids as [|k ks]; [apply elem_of_nil in Hx; destruct Hx|].
  rewrite walk_parent.
  eapply placed_grows; [apply grows_placeParent|].
  apply walkAll_placed; auto.
Qed.

(** ** Visible paths and the visible set *)

Section Visible.

Variable collapsed : gset string.
Variable nodes : Js.object Node.t.

#[local] Abbreviation children := (children collapsed nodes).
#[local] Abbreviation callTree := (callTree collapsed nodes).
#[local] Abbreviation shown := (shown collapsed nodes).
#[local] Abbreviation depthFirstSearch := (depthFirstSearch collapsed nodes).
#[local] Abbreviation closedIn := (closedIn collapsed nodes).

Lemma shown_root (a : string) : shown a a.
Proof. exists []. split; [constructor|reflexivity]. Qed.

Lemma shown_step (a b x : string) (kids : list string) :
  children a = Done kids -> b ∈ kids -> shown b x -> shown a x.
Proof.
  intros Hk Hb (π & Hπ & Hl). exists (b :: π). split.
  - econstructor; eauto.
  - exact Hl.
Qed.

(** The ids of a call tree are the ids its root shows. *)
Lemma preorder_shown (t : tree) :
  isCallTree collapsed nodes t ->
  forall x, x ∈ preorder t <-> shown (label t) x.
Proof.
  intros Ht x. split.
  - revert Ht. induction t as [id kids IH] using tree_induction.
    intros Ht Hx. simpl label.
    apply preorder_inv in Hx as [->|(k & Hk & Hx)]; [apply shown_root|].
    pose proof (isCallTree_kids _ _ _ _ Ht) as [Hkids Hts].
    rewrite Forall_forall in IH, Hts.
    eapply shown_step; [exact Hkids| |apply (IH k Hk (Hts k Hk) Hx)].
    apply list_elem_of_fmap. exists k. auto.
  - intros (π & Hπ & Hl).
    assert (Hin : label t ∈ preorder t) by (destruct t; apply list_elem_of_here).
    revert Hπ Hl Hin. generalize (label t).
    induction π as [|b π IH]; intros a Hπ Hl Ha.
    + injection Hl as <-. exact Ha.
    + inversion Hπ as [|? ? ? kids Hk Hb Hπ']; subst.
      apply (IH b Hπ' Hl). eapply callTree_closed; eauto.
Qed.

(** *** The depth-first search *)

Lemma depthFirstSearch_spec (fuel : nat) :
  forall id vis vis',
    depthFirstSearch fuel id vis = Done vis' ->
    exists new, vis' = vis ++ new /\ id ∈ vis' /\
      (forall x, x ∈ new -> shown id x) /\ closedIn new vis' /\
      (NoDup vis -> NoDup vis').
Proof.
  induction fuel as [|fuel IH]; intros id vis vis'; [discriminate|].
  simpl. case_bool_decide as Hin.
  - intros [= <-]. exists []. rewrite app_nil_r.
    repeat split; auto.
    + intros x Hx. apply elem_of_nil in Hx. destruct Hx.
    + intros x kids k Hx. apply elem_of_nil in Hx. destruct Hx.
  - rewrite bind_Done. intros (kids & Hkids & Hall).
    assert (Hloop : forall l v v',
      forEach (depthFirstSearch fuel) l v = Done v' ->
      exists new, v' = v ++ new /\ (forall k, k ∈ l -> k ∈ v') /\
        (forall x, x ∈ new -> exists k, k ∈ l /\ shown k x) /\
        closedIn new v' /\ (NoDup v -> NoDup v')).
    { clear -IH. induction l as [|c l IHl]; intros v v'; simpl.
      - intros [= <-]. exists []. rewrite app_nil_r. repeat split; auto.
        + intros k Hk. apply elem_of_nil in Hk. destruct Hk.
        + intros x Hx. apply elem_of_nil in Hx. destruct Hx.
        + intros x kids k Hx. apply elem_of_nil in Hx. destruct Hx.
      - rewrite bind_Done. intros (v1 & Hc & Hrest).
        apply IH in Hc as (n1 & -> & Hc1 & Hs1 & Hcl1 & Hnd1).
        apply IHl in Hrest as (n2 & -> & Hk2 & Hs2 & Hcl2 & Hnd2).
        exists (n1 ++ n2). rewrite app_assoc. repeat split; auto.
        + intros k [->|Hk]%elem_of_cons; [|auto].
          apply elem_of_app. left. exact Hc1.
        + intros x [Hx|Hx]%elem_of_app.
          * exists c. split; [apply list_elem_of_here|auto].
          * destruct (Hs2 x Hx) as (k & Hk & Hkx). exists k.
            split; [apply list_elem_of_further, Hk|exact Hkx].
        + intros x kids k [Hx|Hx]%elem_of_app Hkids Hk.
          * apply elem_of_app. left. eapply Hcl1; eauto.
          * eapply Hcl2; eauto. }
    apply Hloop in Hall as (new & -> & Hk & Hs & Hcl & Hnd).
    exists (id :: new).
    assert (E : vis ++ id :: new = (vis ++ [id]) ++ new)
      by (rewrite <- app_assoc; reflexivity).
    rewrite <- E in *. repeat split.
    + apply elem_of_app. right. apply list_elem_of_here.
    + intros x [->|Hx]%elem_of_cons; [apply shown_root|].
      destruct (Hs x Hx) as (k & Hkin & Hkx). eapply shown_step; eauto.
    + intros x kids' k [->|Hx]%elem_of_cons Hkids' Hkin.
      * rewrite Hkids in Hkids'. injection Hkids' as <-. auto.
      * eapply Hcl; eauto.
    + intros Hvis. apply Hnd.
      apply NoDup_app. repeat split; [exact Hvis| |apply NoDup_singleton].
      intros x Hx ->%list_elem_of_singleton. auto.
Qed.

(** The search ends wherever the first pass does. *)
Lemma depthFirstSearch_total (fuel : nat) :
  forall id t vis, callTree fuel id = Done t ->
    exists vis', depthFirstSearch fuel id vis = Done vis'.
Proof.
  induction fuel as [|fuel IH]; intros id t vis; [discriminate|].
  rewrite callTree_S. intros (kids & ts & Hkids & Hts & _).
  simpl. case_bool_decide; [eauto|]. rewrite Hkids. simpl.
  generalize (vis ++ [id]). clear -IH Hts.
  induction Hts as [|k s kids ts Hk _ IHk]; intros v; simpl; [eauto|].
  destruct (IH k s v Hk) as (v1 & ->). simpl. apply IHk.
Qed.

(** From the empty set, the search returns the ids that the root shows,
    each once. *)
Lemma depthFirstSearch_shown (fuel : nat) (root : string) (vis : list string) :
  depthFirstSearch fuel root [] = Done vis ->
  NoDup vis /\ forall x, x ∈ vis <-> shown root x.
Proof.
  intros H. apply depthFirstSearch_spec in H as (new & E & Hroot & Hs & Hcl & Hnd).
  simpl in E. subst new. split; [apply Hnd, NoDup_nil_2|].
  intros x. split; [apply Hs|].
  intros (π & Hπ & Hl). revert Hπ Hl Hroot. generalize root.
  induction π as [|b π IH]; intros a Hπ Hl Ha.
  - injection Hl as <-. exact Ha.
  - inversion Hπ as [|? ? ? kids Hk Hb Hπ']; subst.
    apply (IH b Hπ' Hl). eapply Hcl; eauto.
Qed.

End Visible.

(** ** What [layoutTree] returns *)

Lemma coords_lookup (f : string -> Coord.t) (ids : list string) :
  forall (m : gmap string Coord.t) (x : string),
    foldl (fun c id => <[id := f id]> c) m ids !! x =
    if bool_decide (x ∈ ids) then Some (f x) else m !! x.
Proof.
  induction ids as [|a ids IH]; intros m x.
  - rewrite bool_decide_eq_false_2 by apply not_elem_of_nil. reflexivity.
  - change (foldl ?g m (a :: ids)) with (foldl g (g m a) ids).
    rewrite IH. destruct (decide (x ∈ ids)) as [Hin|Hin].
    + rewrite !bool_decide_eq_true_2; auto using list_elem_of_further.
    + rewrite (bool_decide_eq_false_2 _ Hin).
      destruct (decide (x = a)) as [->|Hne].
      * rewrite bool_decide_eq_true_2 by apply list_elem_of_here.
        apply lookup_insert_eq.
      * rewrite bool_decide_eq_false_2, lookup_insert_ne; auto.
        intros [?|?]%elem_of_cons; auto.
Qed.

Section LayoutFacts.

Variable collapsed : gset string.
Variable nodes : Js.object Node.t.

#[local] Abbreviation callTree := (callTree collapsed nodes).
#[local] Abbreviation firstPass := (firstPass collapsed nodes).
#[local] Abbreviation layoutFrom := (layoutFrom collapsed nodes).
#[local] Abbreviation shown := (shown collapsed nodes).

Lemma firstPass_Done (fuel : nat) (id : string) (d : nat) (p p' : pass) :
  firstPass fuel id d p = Done p' <->
  exists t, callTree fuel id = Done t /\ p' = walk t d p.
Proof.
  rewrite firstPass_walk, bind_Done. split.
  - intros (t & Ht & [= <-]). eauto.
  - intros (t & Ht & ->). eauto.
Qed.

(** The outcome of the first pass is the outcome of the whole layout. *)
Lemma layoutFrom_total (fuel : nat) (root : string) (t : tree) :
  callTree fuel root = Done t ->
  exists vis,
    depthFirstSearch collapsed nodes fuel root [] = Done vis /\
    layoutFrom fuel root =
      Done {| coords :=
                foldl (fun c id => <[id := coordOf (walk t 0 emptyPass) id]> c)
                      ∅ vis;
              vis := vis |}.
Proof.
  intros Ht. destruct (depthFirstSearch_total _ _ _ _ _ [] Ht) as [vis Hvis].
  exists vis. split; [exact Hvis|]. unfold layoutFrom.
  rewrite firstPass_walk, Ht. simpl. rewrite Hvis. reflexivity.
Qed.

Lemma layoutFrom_Done (fuel : nat) (root : string) (l : layout) :
  layoutFrom fuel root = Done l ->
  exists t, callTree fuel root = Done t /\
    depthFirstSearch collapsed nodes fuel root [] = Done (vis l) /\
    coords l =
      foldl (fun c id => <[id := coordOf (walk t 0 emptyPass) id]> c) ∅ (vis l).
Proof.
  unfold layoutFrom. rewrite bind_Done. intros (p & Hp & H).
  apply firstPass_Done in Hp as (t & Ht & ->).
  apply bind_Done in H as (vis & Hvis & [= <-]). exists t. auto.
Qed.

Lemma layoutFrom_OutOfFuel (fuel : nat) (root : string) :
  callTree fuel root = OutOfFuel -> layoutFrom fuel root = OutOfFuel.
Proof. intros H. unfold layoutFrom. rewrite firstPass_walk, H. reflexivity. Qed.

(** Everything the later proofs use about a layout that is returned. *)
Lemma layoutFrom_facts (fuel : nat) (root : string) (l : layout) :
  layoutFrom fuel root = Done l ->
  exists t, callTree fuel root = Done t /\
    firstPass fuel root 0 emptyPass = Done (walk t 0 emptyPass) /\
    NoDup (vis l) /\
    (forall x, x ∈ vis l <-> x ∈ preorder t) /\
    (forall x, x ∈ vis l <-> shown root x) /\
    (forall x, coords l !! x =
       if bool_decide (x ∈ vis l) then Some (coordOf (walk t 0 emptyPass) x)
       else None) /\
    (forall x, x ∈ vis l -> placed (walk t 0 emptyPass) x).
Proof.
  intros H. apply layoutFrom_Done in H as (t & Ht & Hvis & Hc).
  exists t. split; [exact Ht|].
  apply depthFirstSearch_shown in Hvis as [Hnd Hshown].
  assert (Hct : isCallTree collapsed nodes t).
  { exists fuel. rewrite (callTree_label _ _ _ _ _ Ht). exact Ht. }
  assert (Hpre : forall x, x ∈ vis l <-> x ∈ preorder t).
  { intros x. rewrite Hshown, (preorder_shown _ _ _ Hct).
    rewrite (callTree_label _ _ _ _ _ Ht). reflexivity. }
  split; [apply firstPass_Done; eauto|].
  split; [exact Hnd|]. split; [exact Hpre|]. split; [exact Hshown|]. split.
  - intros x. rewrite Hc.
    rewrite (coords_lookup (coordOf (walk t 0 emptyPass))), lookup_empty.
    reflexivity.
  - intros x Hx. apply walk_placed, Hpre, Hx.
Qed.

(** The ids with a coordinate are the ids of the visible set. *)
Lemma layoutFrom_dom (fuel : nat) (root : string) (l : layout) :
  layoutFrom fuel root = Done l -> dom (coords l) = list_to_set (vis l).
Proof.
  intros H. apply layoutFrom_facts in H as (t & _ & _ & _ & _ & _ & Hc & _).
  apply set_eq. intros x. rewrite elem_of_dom, Hc, elem_of_list_to_set.
  case_bool_decide as Hx; split; intros Hx'; eauto; try contradiction.
  destruct Hx' as [? [=]].
Qed.

(** No read of the layout misses: the first pass has left a slot and a
    depth for every id of the visible set ... *)
Lemma layoutTree_reads (fuel : nat) (root : string) (l : layout) (p : pass) :
  layoutFrom fuel root = Done l ->
  firstPass fuel root 0 emptyPass = Done p ->
  forall id, id ∈ vis l -> placed p id.
Proof.
  intros H Hp. apply layoutFrom_facts in H as (t & _ & Hp' & _ & _ & _ & _ & H).
  rewrite Hp in Hp'. injection Hp' as ->. exact H.
Qed.

(** ... and the calls for the children of an id have left a slot for
    each of them when the slot of the id is computed. *)
Lemma firstPass_placed (fuel d : nat) (kids : list string) (q p1 : pass) :
  forEach (fun c => firstPass fuel c d) kids q = Done p1 ->
  forall kid, kid ∈ kids -> is_Some (xPosition p1 !! kid).
Proof.
  revert q. induction kids as [|c kids IH]; intros q H kid Hkid.
  { apply elem_of_nil in Hkid. destruct Hkid. }
  simpl in H. apply bind_Done in H as (q1 & Hc & H).
  apply elem_of_cons in Hkid as [->|Hkid]; [|eauto].
  apply firstPass_Done in Hc as (t & Ht & ->).
  assert (Hin : placed (walk t d q) c).
  { apply walk_placed. rewrite <- (callTree_label _ _ _ _ _ Ht).
    destruct t. apply list_elem_of_here. }
  clear IH. revert H Hin. generalize (walk t d q).
  induction kids as [|c' kids IH]; intros q' H Hin; simpl in H.
  - injection H as <-. apply Hin.
  - apply bind_Done in H as (q2 & Hc' & H).
    apply firstPass_Done in Hc' as (t' & _ & ->).
    apply (IH _ H). eapply placed_grows; [apply walk_grows|exact Hin].
Qed.

End LayoutFacts.

(** ** The two loops of [parse] *)

Lemma scanLine_not_Thrown (n : nat) (raw : string) (nodes : Js.object Node.t)
  (edges : list edge) : scanLine n raw nodes edges <> Thrown.
Proof.
  unfold scanLine.
  repeat match goal with
         | |- context [if ?b then _ else _] => destruct b
         | |- context [match ?o with Some _ => _ | None => _ end] => destruct o
         | |- context [let '(_, _) := ?p in _] => destruct p
         end; discriminate.
Qed.

Lemma scanLine_lineError (n : nat) (raw : string) (nodes : Js.object Node.t)
  (edges : list edge) (e : parseError) :
  scanLine n raw nodes edges = Failed e -> lineError e.
Proof.
  unfold scanLine.
  repeat match goal with
         | |- context [if ?b then _ else _] => destruct b
         | |- context [match ?o with Some _ => _ | None => _ end] => destruct o
         | |- context [let '(_, _) := ?p in _] => destruct p
         end; intros [= <-] || discriminate; exact I.
Qed.

Lemma scan_app (pre post : list string) :
  forall n nodes edges,
    scan (pre ++ post) n nodes edges =
    match scan pre n nodes edges with
    | Ok (nodes', edges') => scan post (n + length pre) nodes' edges'
    | Failed e => Failed e
    | Thrown => Thrown
    end.
Proof.
  induction pre as [|raw pre IH]; intros n nodes edges; simpl.
  - rewrite Nat.add_0_r. reflexivity.
  - destruct (scanLine (S n) raw nodes edges) as [[nodes' edges']| |];
      [|reflexivity..].
    rewrite IH. replace (S n + length pre) with (n + S (length pre)) by lia.
    reflexivity.
Qed.

Lemma scan_not_Thrown (lines : list string) :
  forall n nodes edges, scan lines n nodes edges <> Thrown.
Proof.
  induction lines as [|raw lines IH]; intros n nodes edges; simpl;
    [discriminate|].
  destruct (scanLine (S n) raw nodes edges) as [[nodes' edges']| |] eqn:E;
    [apply IH|discriminate|].
  exfalso. eapply scanLine_not_Thrown, E.
Qed.

Lemma scan_lineError (lines : list string) :
  forall n nodes edges e, scan lines n nodes edges = Failed e -> lineError e.
Proof.
  induction lines as [|raw lines IH]; intros n nodes edges e; simpl;
    [discriminate|].
  destruct (scanLine (S n) raw nodes edges) as [[nodes' edges']| |] eqn:E.
  - apply IH.
  - intros [= <-]. eapply scanLine_lineError, E.
  - discriminate.
Qed.

(** [pushChild] changes no key, so no test of the second loop. *)
Lemma own_pushChild (a b key : string) (nodes : Js.object Node.t) :
  Js.own (pushChild a b nodes) key =
  (fun n => if String.eqb key a then Node.push b n else n) <$> Js.own nodes key.
Proof.
  induction nodes as [|[k n] nodes IH]; simpl; [reflexivity|].
  destruct (String.eqb k a) eqn:Ea; simpl.
  - destruct (String.eqb k key) eqn:Ek; simpl; [|exact IH].
    apply String.eqb_eq in Ea, Ek. subst.
    rewrite String.eqb_refl. reflexivity.
  - destruct (String.eqb k key) eqn:Ek; simpl; [|exact IH].
    apply String.eqb_eq in Ek. subst. rewrite Ea. reflexivity.
Qed.

Lemma keys_pushChild (a b : string) (nodes : Js.object Node.t) :
  map fst (pushChild a b nodes) = map fst nodes.
Proof.
  induction nodes as [|[k n] nodes IH]; simpl; [reflexivity|].
  rewrite IH. destruct (String.eqb k a); reflexivity.
Qed.

Lemma truthy_pushChild (a b key : string) (nodes : Js.object Node.t) :
  Js.truthy (Js.get (pushChild a b nodes) key) = Js.truthy (Js.get nodes key).
Proof.
  unfold Js.get. rewrite own_pushChild.
  destruct (Js.own nodes key); simpl; [reflexivity|].
  destruct (bool_decide _); reflexivity.
Qed.

Lemma linkable_pushChild (a b : string) (nodes : Js.object Node.t) (e : edge) :
  linkable (pushChild a b nodes) e <-> linkable nodes e.
Proof.
  unfold linkable. rewrite truthy_pushChild, own_pushChild.
  rewrite fmap_is_Some. reflexivity.
Qed.

Lemma link_app (pre post : list edge) :
  forall nodes,
    link (pre ++ post) nodes =
    match link pre nodes with
    | Ok nodes' => link post nodes'
    | Failed e => Failed e
    | Thrown => Thrown
    end.
Proof.
  induction pre as [|e pre IH]; intros nodes; simpl; [reflexivity|].
  destruct (negb (Js.truthy (Js.get nodes (from e)))); [reflexivity|].
  destruct (negb (Js.truthy (Js.get nodes (to e)))); [reflexivity|].
  destruct (Js.get nodes (from e)); auto.
Qed.

Lemma link_linkable (pre : list edge) :
  forall nodes, Forall (linkable nodes) pre ->
    exists nodes', link pre nodes = Ok nodes' /\
      map fst nodes' = map fst nodes /\
      forall key, Js.truthy (Js.get nodes' key) = Js.truthy (Js.get nodes key).
Proof.
  induction pre as [|e pre IH]; intros nodes Hall; simpl; [eauto|].
  apply Forall_cons in Hall as [[[n Hn] Hto] Hall].
  unfold Js.get at 1 3. rewrite Hn, Hto. simpl.
  destruct (IH (pushChild (from e) (to e) nodes)) as (nodes' & -> & Hk & Ht).
  { eapply Forall_impl; [exact Hall|]. intros e'. apply linkable_pushChild. }
  exists nodes'. split; [reflexivity|]. split.
  - rewrite Hk. apply keys_pushChild.
  - intros key. rewrite Ht. apply truthy_pushChild.
Qed.

Lemma link_Ok (pending : list edge) :
  forall nodes nodes', link pending nodes = Ok nodes' ->
    Forall (linkable nodes) pending.
Proof.
  induction pending as [|e pending IH]; intros nodes nodes'; simpl;
    [constructor|].
  destruct (Js.truthy (Js.get nodes (from e))) eqn:Hf; [|discriminate].
  destruct (Js.truthy (Js.get nodes (to e))) eqn:Ht; [|discriminate].
  simpl. unfold Js.get in Hf |- * at 1.
  destruct (Js.own nodes (from e)) as [n|] eqn:Hn.
  - intros H. constructor.
    + split; [rewrite Hn; eauto|exact Ht].
    + apply IH in H. eapply Forall_impl; [exact H|].
      intros e'. apply linkable_pushChild.
  - destruct (bool_decide _); discriminate.
Qed.

(** ** Call trees without a repeated id *)

Lemma leaves_preorder (t : tree) : forall x, x ∈ leaves t -> x ∈ preorder t.
Proof.
  induction t as [id kids IH] using tree_induction. intros x Hx.
  destruct kids as [|k ks].
  - exact Hx.
  - change (leaves (Tree id (k :: ks))) with (concat (map leaves (k :: ks)))
      in Hx.
    apply elem_of_concat_map in Hx as (s & Hs & Hx).
    apply preorder_inv. right. exists s. split; [exact Hs|].
    rewrite Forall_forall in IH. auto.
Qed.

Lemma walkAll_leaf_slots (ts : list tree) :
  Forall (fun t => NoDup (preorder t) -> forall d p i x,
            leaves t !! i = Some x ->
            xPosition (walk t d p) !! x = Some (ofNat (xPositionNext p + i)))
         ts ->
  NoDup (concat (map preorder ts)) ->
  forall d p i x, concat (map leaves ts) !! i = Some x ->
    xPosition (walkAll ts d p) !! x = Some (ofNat (xPositionNext p + i)).
Proof.
  induction 1 as [|t ts Ht _ IH]; intros Hnd d p i x Hi; [discriminate|].
  simpl in Hnd, Hi. apply NoDup_app in Hnd as (Hnd1 & Hdisj & Hnd2).
  rewrite walkAll_cons. apply lookup_app_Some in Hi as [Hi|[Hlen Hi]].
  - rewrite walkAll_xPosition_other; [auto|].
    apply Hdisj, leaves_preorder. eapply list_elem_of_lookup_2, Hi.
  - rewrite (IH Hnd2 d (walk t d p) _ x Hi), walk_next. do 2 f_equal. lia.
Qed.

(** In a call tree without a repeated id, the leaves take the slots from
    the counter on, in call order. *)
Lemma walk_leaf_slots (t : tree) :
  NoDup (preorder t) ->
  forall d p i x, leaves t !! i = Some x ->
    xPosition (walk t d p) !! x = Some (ofNat (xPositionNext p + i)).
Proof.
  induction t as [id kids IH] using tree_induction. intros Hnd d p i x Hi.
  destruct kids as [|k ks].
  - destruct i; [|discriminate]. injection Hi as <-.
    rewrite walk_leaf. simpl. rewrite lookup_insert_eq, Nat.add_0_r.
    reflexivity.
  - change (leaves (Tree id (k :: ks))) with (concat (map leaves (k :: ks)))
      in Hi.
    change (preorder (Tree id (k :: ks)))
      with (id :: concat (map preorder (k :: ks))) in Hnd.
    apply NoDup_cons in Hnd as [Hid Hnd].
    rewrite walk_parent. simpl xPosition. rewrite lookup_insert_ne.
    + apply (walkAll_leaf_slots (k :: ks) IH Hnd (S d) (setDepth id d p) i x Hi).
    + intros ->. apply Hid.
      apply list_elem_of_lookup_2 in Hi.
      apply elem_of_concat_map in Hi as (s & Hs & Hx).
      apply elem_of_concat_map. exists s. split; [exact Hs|].
      apply leaves_preorder, Hx.
Qed.

Lemma leaves_NoDup (t : tree) : NoDup (preorder t) -> NoDup (leaves t).
Proof.
  intros Hnd. apply NoDup_alt. intros i j x Hi Hj.
  pose proof (walk_leaf_slots t Hnd 0 emptyPass i x Hi) as Ei.
  pose proof (walk_leaf_slots t Hnd 0 emptyPass j x Hj) as Ej.
  rewrite Ei in Ej. injection Ej as E. lia.
Qed.

Section Leaves.

Variable collapsed : gset string.
Variable nodes : Js.object Node.t.

#[local] Abbreviation children := (children collapsed nodes).
#[local] Abbreviation isCallTree := (isCallTree collapsed nodes).

Lemma calls_leaves (t : tree) :
  forall s x, s ∈ calls t -> x ∈ leaves s -> x ∈ leaves t.
Proof.
  induction t as [id kids IH] using tree_induction. intros s x Hs Hx.
  apply calls_inv in Hs as [->|(k & Hk & Hs)]; [exact Hx|].
  rewrite Forall_forall in IH. specialize (IH k Hk s x Hs Hx).
  destruct kids as [|k' ks]; [apply elem_of_nil in Hk; destruct Hk|].
  change (leaves (Tree id (k' :: ks))) with (concat (map leaves (k' :: ks))).
  apply elem_of_concat_map. eauto.
Qed.

(** The leaves of a call tree are its ids without a visible child. *)
Lemma leaves_children (t : tree) :
  isCallTree t ->
  forall x, x ∈ leaves t <-> x ∈ preorder t /\ children x = Done [].
Proof.
  intros Ht x. split.
  - revert Ht. induction t as [id kids IH] using tree_induction.
    intros Ht Hx. pose proof (isCallTree_kids _ _ _ _ Ht) as [Hk Hcts].
    destruct kids as [|k ks].
    + apply list_elem_of_singleton in Hx as ->.
      split; [apply list_elem_of_here|exact Hk].
    + change (leaves (Tree id (k :: ks)))
        with (concat (map leaves (k :: ks))) in Hx.
      apply elem_of_concat_map in Hx as (s & Hs & Hx).
      rewrite Forall_forall in IH, Hcts.
      destruct (IH s Hs (Hcts s Hs) Hx) as [Hin Hnone].
      split; [|exact Hnone]. apply preorder_inv. eauto.
  - intros [Hx Hnone]. rewrite preorder_calls in Hx.
    apply list_elem_of_fmap in Hx as (s & -> & Hs).
    pose proof (calls_isCallTree _ _ _ Ht s Hs) as Hs'.
    destruct s as [y ss]. simpl in Hnone |- *.
    apply isCallTree_kids in Hs' as [Hy _]. rewrite Hy in Hnone.
    injection Hnone as Hss. destruct ss; [|discriminate].
    eapply calls_leaves; [exact Hs|]. apply list_elem_of_here.
Qed.

End Leaves.

Lemma slot_distinct (i j : nat) :
  (Qred (ofNat i * (NODE_W + X_GAP)) == Qred (ofNat j * (NODE_W + X_GAP)))%Q ->
  i = j.
Proof.
  rewrite !Qred_correct. intros H.
  apply Qmult_inj_r in H; [|discriminate].
  unfold ofNat in H. apply (proj1 (inject_Z_injective _ _)) in H. lia.
Qed.

Lemma levels_preorder (t : tree) : forall d, map fst (levels t d) = preorder t.
Proof.
  induction t as [id kids IH] using tree_induction. intros d. simpl. f_equal.
  induction IH as [|k kids Hk _ IHkids]; simpl; [reflexivity|].
  rewrite map_app, Hk, IHkids. reflexivity.
Qed.

Lemma levels_elem_of (t : tree) (d : nat) (x : string) (k : nat) :
  (x, k) ∈ levels t d -> x ∈ preorder t.
Proof.
  intros H. rewrite <- (levels_preorder t d).
  apply list_elem_of_fmap. exists (x, k). auto.
Qed.

Lemma walkAll_levels (ts : list tree) :
  Forall (fun t => NoDup (preorder t) -> forall d p x k,
            (x, k) ∈ levels t d -> depth (walk t d p) !! x = Some k) ts ->
  NoDup (concat (map preorder ts)) ->
  forall d p x k, (x, k) ∈ concat (map (fun t => levels t d) ts) ->
    depth (walkAll ts d p) !! x = Some k.
Proof.
  induction 1 as [|t ts Ht _ IH]; intros Hnd d p x k Hx.
  { apply elem_of_nil in Hx. destruct Hx. }
  simpl in Hnd, Hx. apply NoDup_app in Hnd as (Hnd1 & Hdisj & Hnd2).
  rewrite walkAll_cons. apply elem_of_app in Hx as [Hx|Hx]; [|auto].
  rewrite walkAll_depth_other; [auto|].
  eapply Hdisj, levels_elem_of, Hx.
Qed.

(** In a call tree without a repeated id, every id ends at the level of
    its call. *)
Lemma walk_levels (t : tree) :
  NoDup (preorder t) ->
  forall d p x k, (x, k) ∈ levels t d -> depth (walk t d p) !! x = Some k.
Proof.
  induction t as [id kids IH] using tree_induction. intros Hnd d p x k Hx.
  change (preorder (Tree id kids)) with (id :: concat (map preorder kids))
    in Hnd.
  apply NoDup_cons in Hnd as [Hid Hnd].
  change (levels (Tree id kids) d)
    with ((id, d) :: concat (map (fun t => levels t (S d)) kids)) in Hx.
  destruct kids as [|kt kts].
  - apply list_elem_of_singleton in Hx. injection Hx as -> ->.
    rewrite walk_leaf. simpl. apply lookup_insert_eq.
  - rewrite walk_parent.
    change (depth (placeParent ?a ?b ?c ?q)) with (depth q).
    apply elem_of_cons in Hx as [Hx|Hx].
    + injection Hx as -> ->. rewrite walkAll_depth_other by exact Hid.
      simpl. apply lookup_insert_eq.
    + apply walkAll_levels; assumption.
Qed.

(** ** Error order (C5) *)

(** C5. [parse] returns the error of the first line that fails the scan
    (bad node syntax, bad edge syntax, unknown directive, duplicate node
    id), whatever the edges refer to; an unknown-node error is reported
    only after the scan of every line has succeeded, for the first edge,
    in declaration order, that has an unknown endpoint, and the source
    endpoint of that edge is tested before its target. *)
Theorem parse_error_order (text : string) :
  (forall pre raw post nodes edges e,
     Js.split text = pre ++ raw :: post ->
     scan pre 0 [] [] = Ok (nodes, edges) ->
     scanLine (S (length pre)) raw nodes edges = Failed e ->
     parse text = Failed e /\ lineError e) /\
  (forall nodes edges pre e post,
     scan (Js.split text) 0 [] [] = Ok (nodes, edges) ->
     edges = pre ++ e :: post ->
     Forall (linkable nodes) pre ->
     (Js.truthy (Js.get nodes (from e)) = false ->
      parse text = Failed (UnknownNodeFrom (line e) (from e))) /\
     (Js.truthy (Js.get nodes (from e)) = true ->
      Js.truthy (Js.get nodes (to e)) = false ->
      parse text = Failed (UnknownNodeTo (line e) (to e)))) /\
  (forall e, parse text = Failed e -> ~ lineError e ->
     exists nodes edges, scan (Js.split text) 0 [] [] = Ok (nodes, edges)).
Proof.
  split; [|split].
  - intros pre raw post nodes edges e Hsplit Hpre Hraw.
    split; [|eapply scanLine_lineError, Hraw].
    unfold parse. rewrite Hsplit, scan_app, Hpre. simpl. rewrite Hraw.
    reflexivity.
  - intros nodes edges pre e post Hscan -> Hpre.
    unfold parse. rewrite Hscan, link_app.
    destruct (link_linkable pre nodes Hpre) as (nodes' & -> & _ & Ht).
    simpl. rewrite !Ht. split.
    + intros ->. reflexivity.
    + intros -> ->. reflexivity.
  - intros e Hparse Hline. unfold parse in Hparse.
    destruct (scan (Js.split text) 0 [] []) as [[nodes edges]|e'|] eqn:Hscan.
    + eauto.
    + injection Hparse as ->. apply scan_lineError in Hscan. contradiction.
    + discriminate.
Qed.

Lemma parse_error_order_witness :
  (parse orderText = Failed (UnknownDirective 4) /\
   lineError (UnknownDirective 4)) /\
  parse refsText = Failed (UnknownNodeFrom 3 "C").
Proof.
  split.
  - destruct (parse_error_order orderText) as (H & _ & _).
    eapply (H [nodeLine "A" "a"; edgeLine "A" "B"; edgeLine "C" "D"] "oops" []);
      reflexivity.
  - destruct (parse_error_order refsText) as (_ & H & _).
    refine (proj1 (H _ _ [ {| from := "A"; to := "A"; line := 2 |} ]
                     {| from := "C"; to := "D"; line := 3 |}
                     [ {| from := "A"; to := "B"; line := 4 |} ]
                     eq_refl eq_refl _) eq_refl).
    constructor; [|constructor]. split; [eexists; reflexivity|reflexivity].
Defined.

(** ** Root selection (C4) *)

Lemma greedy_Some {R : Type} (class : ascii -> bool) (s : string) :
  forall (k : string -> string -> option R) (r : R),
    Js.greedy class s k = Some r -> exists taken rest, k taken rest = Some r.
Proof.
  induction s as [|c s IH]; intros k r; simpl; [eauto|].
  destruct (class c); [|eauto].
  destruct (Js.greedy class s _) as [r'|] eqn:E; [|eauto].
  intros [= ->]. apply IH in E as (taken & rest & E). eauto.
Qed.

(** A match only ever adds captures. *)
Lemma exec_captures (p : list Js.rx) :
  forall s caps r, Js.exec p s caps = Some r -> exists more, r = caps ++ more.
Proof.
  induction p as [|x p IH]; intros s caps r; simpl.
  - destruct (Js.isEmpty s); [|discriminate]. intros [= <-].
    exists []. rewrite app_nil_r. reflexivity.
  - destruct x as [l|c|c|capture atLeastOne class].
    + destruct (String.prefix l s); [apply IH|discriminate].
    + destruct s as [|c' s]; [discriminate|].
      destruct (Ascii.eqb c c'); [apply IH|discriminate].
    + destruct s as [|c' s]; [apply IH|].
      destruct (Ascii.eqb c c'); [|apply IH].
      destruct (Js.exec p s caps) eqn:E; [|apply IH].
      intros [= <-]. eapply IH, E.
    + intros H. apply greedy_Some in H as (taken & rest & H).
      destruct (atLeastOne && Js.isEmpty taken)%bool; [discriminate|].
      apply IH in H as (more & ->).
      destruct capture; [|eauto]. rewrite <- app_assoc. eauto.
Qed.

Lemma exec_Lit (l : string) (p : list Js.rx) (s : string) (caps r : list string) :
  Js.exec (Js.Lit l :: p) s caps = Some r ->
  Js.exec p (Js.dropChars (String.length l) s) caps = Some r.
Proof.
  cbn [Js.exec]. destruct (String.prefix l s); [auto|discriminate].
Qed.

Lemma exec_Rep (capture atLeastOne : bool) (class : ascii -> bool)
  (p : list Js.rx) (s : string) (caps r : list string) :
  Js.exec (Js.Rep capture atLeastOne class :: p) s caps = Some r ->
  exists taken rest,
    (atLeastOne && Js.isEmpty taken)%bool = false /\
    Js.exec p rest (if capture then caps ++ [taken] else caps) = Some r.
Proof.
  cbn [Js.exec]. intros H. apply greedy_Some in H as (taken & rest & H).
  exists taken, rest.
  destruct (atLeastOne && Js.isEmpty taken)%bool; [discriminate|auto].
Qed.

(** The id of a node line is not empty. *)
Lemma nodePattern_id (line id title : string) :
  Js.match2 Js.nodePattern line = Some (id, title) -> id <> EmptyString.
Proof.
  unfold Js.match2.
  destruct (Js.exec Js.nodePattern line []) as [caps|] eqn:E; [|discriminate].
  unfold Js.nodePattern in E.
  apply exec_Lit, exec_Rep in E as (t1 & r1 & _ & E).
  apply exec_Rep in E as (t2 & r2 & Ht2 & E).
  apply exec_captures in E as (more & ->).
  destruct more as [|b [|c more]]; try discriminate.
  intros [= <- _] ->. discriminate.
Qed.

Lemma find_Some_first {A : Type} (f : A -> bool) (l : list A) (x : A) :
  List.find f l = Some x ->
  exists pre post, l = pre ++ x :: post /\ f x = true /\
    forall y, y ∈ pre -> f y = false.
Proof.
  induction l as [|a l IH]; simpl; [discriminate|].
  destruct (f a) eqn:Ha.
  - intros [= ->]. exists [], l. repeat split; auto.
    intros y Hy. apply elem_of_nil in Hy. destruct Hy.
  - intros H. apply IH in H as (pre & post & -> & Hx & Hpre).
    exists (a :: pre), post. repeat split; auto.
    intros y [->|Hy]%elem_of_cons; auto.
Qed.

Lemma find_None_all {A : Type} (f : A -> bool) (l : list A) :
  List.find f l = None -> forall y, y ∈ l -> f y = false.
Proof.
  induction l as [|a l IH]; simpl; intros H y Hy.
  - apply elem_of_nil in Hy. destruct Hy.
  - destruct (f a) eqn:Ha; [discriminate|].
    apply elem_of_cons in Hy as [->|Hy]; auto.
Qed.

(** Without array indices, [Object.keys] is the creation order. *)
Lemma keys_creation_order {V : Type} (o : Js.object V) :
  (forall k, k ∈ map fst o -> Js.arrayIndex k = None) ->
  Js.keys o = map fst o.
Proof.
  unfold Js.keys. generalize (map fst o). intros ks Hks.
  assert (E1 : omap (fun k => (fun n => (n, k)) <$> Js.arrayIndex k) ks = []).
  { induction ks as [|k ks IH]; [reflexivity|]. simpl.
    rewrite (Hks k) by apply list_elem_of_here. simpl.
    apply IH. intros k' Hk'. apply Hks, list_elem_of_further, Hk'. }
  rewrite E1. simpl.
  induction ks as [|k ks IH]; [reflexivity|]. simpl.
  rewrite (Hks k) by apply list_elem_of_here.
  rewrite bool_decide_eq_true_2 by reflexivity. f_equal.
  apply IH.
  - intros k' Hk'. apply Hks, list_elem_of_further, Hk'.
  - clear -E1 Hks. simpl in E1.
    rewrite (Hks k) in E1 by apply list_elem_of_here. exact E1.
Qed.

(** The scan declares the ids of the node lines, in their order. *)
Lemma scanLine_declared (n : nat) (raw : string) (nodes nodes' : Js.object Node.t)
  (edges edges' : list edge) :
  scanLine n raw nodes edges = Ok (nodes', edges') ->
  map fst nodes' = map fst nodes ++ option_list (declaredId raw).
Proof.
  unfold scanLine, declaredId.
  destruct (Js.isEmpty (Js.trim raw)).
  { intros [= <- <-]. simpl. rewrite app_nil_r. reflexivity. }
  destruct (Js.startsWith (Js.trim raw) "node ").
  { destruct (Js.match2 Js.nodePattern (Js.trim raw)) as [[id title]|];
      [|discriminate].
    destruct (Js.truthy (Js.get nodes id)); [discriminate|].
    intros [= <- <-]. unfold Js.define. rewrite map_app. reflexivity. }
  destruct (Js.startsWith (Js.trim raw) "edge "); [|discriminate].
  destruct (Js.match2 Js.edgePattern (Js.trim raw)) as [[a b]|];
    [|discriminate].
  intros [= <- <-]. simpl. rewrite app_nil_r. reflexivity.
Qed.

Lemma scan_declared (lines : list string) :
  forall n nodes edges nodes' edges',
    scan lines n nodes edges = Ok (nodes', edges') ->
    map fst nodes' = map fst nodes ++ omap declaredId lines.
Proof.
  induction lines as [|raw lines IH]; intros n nodes edges nodes' edges'; simpl.
  - intros [= <- <-]. rewrite app_nil_r. reflexivity.
  - destruct (scanLine (S n) raw nodes edges) as [[nodes1 edges1]| |] eqn:E;
      [|discriminate..].
    intros H. apply IH in H. rewrite H.
    rewrite (scanLine_declared _ _ _ _ _ _ E), <- app_assoc. f_equal.
    destruct (declaredId raw); reflexivity.
Qed.

Lemma declaredId_nonempty (raw id : string) :
  declaredId raw = Some id -> id <> EmptyString.
Proof.
  unfold declaredId. destruct (Js.isEmpty _); [discriminate|].
  destruct (Js.startsWith _ _); [|discriminate].
  destruct (Js.match2 Js.nodePattern (Js.trim raw)) as [[a b]|] eqn:E;
    [|discriminate].
  intros [= <-]. eapply nodePattern_id, E.
Qed.

Lemma declared_nonempty (text id : string) :
  id ∈ declared text -> id <> EmptyString.
Proof.
  unfold declared. intros H. apply list_elem_of_omap in H as (raw & _ & H).
  eapply declaredId_nonempty, H.
Qed.

Lemma parse_Ok (text : string) (m : model) :
  parse text = Ok m ->
  exists scanned,
    scan (Js.split text) 0 [] [] = Ok (scanned, edges m) /\
    link (edges m) scanned = Ok (nodes m) /\
    chooseRoot (nodes m) (edges m) = Some (root m) /\
    root m <> EmptyString.
Proof.
  unfold parse.
  destruct (scan (Js.split text) 0 [] []) as [[scanned es]| |]; [|discriminate..].
  destruct (link es scanned) as [ns| |] eqn:Hlink; [|discriminate..].
  destruct (chooseRoot ns es) as [r|] eqn:Hroot; [|discriminate].
  destruct (Js.isEmpty r) eqn:Hr; [discriminate|].
  intros [= <-]. simpl. exists scanned. repeat split; auto.
  intros ->. discriminate.
Qed.

Lemma parse_declared (text : string) (m : model) :
  parse text = Ok m -> map fst (nodes m) = declared text.
Proof.
  intros H. apply parse_Ok in H as (scanned & Hscan & Hlink & _).
  apply scan_declared in Hscan. simpl in Hscan.
  pose proof (link_Ok _ _ _ Hlink) as Hall.
  apply link_linkable in Hall as (ns & Hns & Hkeys & _).
  rewrite Hns in Hlink. injection Hlink as ->.
  rewrite Hkeys, Hscan. reflexivity.
Qed.

Lemma scan_blank (lines : list string) :
  (forall raw, raw ∈ lines -> Js.trim raw = EmptyString) ->
  forall n nodes edges, scan lines n nodes edges = Ok (nodes, edges).
Proof.
  induction lines as [|raw lines IH]; intros Hblank n nodes edges; simpl;
    [reflexivity|].
  unfold scanLine. rewrite (Hblank raw) by apply list_elem_of_here. simpl.
  apply IH. intros raw' H. apply Hblank, list_elem_of_further, H.
Qed.

(** C4, amended. For every text that parses and declares no id that is an
    array index, the root is the first declared id, in declaration order,
    that no edge has as its target, and the first declared id when every
    declared id is a target; a text that declares no node gives no model;
    and a text whose lines are all blank fails with the error No Nodes
    Defined. *)
Theorem parse_root (text : string) :
  (forall m, parse text = Ok m ->
     (forall id, id ∈ declared text -> Js.arrayIndex id = None) ->
     map fst (nodes m) = declared text /\
     ((exists pre post,
         declared text = pre ++ root m :: post /\
         (root m ∉ map to (edges m)) /\
         forall id, id ∈ pre -> id ∈ map to (edges m)) \/
      ((forall id, id ∈ declared text -> id ∈ map to (edges m)) /\
       head (declared text) = Some (root m)))) /\
  (declared text = [] -> forall m, parse text <> Ok m) /\
  ((forall raw, raw ∈ Js.split text -> Js.trim raw = EmptyString) ->
   parse text = Failed NoNodesDefined).
Proof.
  split; [|split].
  - intros m Hparse Hindex.
    pose proof (parse_declared _ _ Hparse) as Hdecl. split; [exact Hdecl|].
    apply parse_Ok in Hparse as (_ & _ & _ & Hroot & _).
    unfold chooseRoot in Hroot.
    rewrite keys_creation_order in Hroot by (rewrite Hdecl; exact Hindex).
    rewrite Hdecl in Hroot.
    set (free := fun id : string =>
      negb (bool_decide (id ∈ (list_to_set (map to (edges m)) : gset string))))
      in Hroot.
    assert (Hfree : forall id, free id = false -> id ∈ map to (edges m)).
    { intros id H. unfold free in H. apply negb_false_iff in H.
      apply bool_decide_eq_true_1 in H. apply elem_of_list_to_set in H.
      exact H. }
    destruct (List.find free (declared text)) as [id|] eqn:Hfind.
    + apply find_Some_first in Hfind as (pre & post & E & Hid & Hpre).
      assert (Hne : Js.isEmpty id = false).
      { assert (id ∈ declared text) as Hin%declared_nonempty
          by (rewrite E; apply elem_of_app; right; apply list_elem_of_here).
        destruct id; [contradiction|reflexivity]. }
      rewrite Hne in Hroot. injection Hroot as <-. left.
      exists pre, post. split; [exact E|]. split; [|auto].
      intros Hin. unfold free in Hid. apply negb_true_iff in Hid.
      apply bool_decide_eq_false_1 in Hid. apply Hid, elem_of_list_to_set, Hin.
    + right. split; [|exact Hroot].
      intros id Hin. apply Hfree. eapply find_None_all; eauto.
  - intros Hnone m Hparse.
    pose proof (parse_declared _ _ Hparse) as Hdecl.
    rewrite Hnone in Hdecl. apply map_eq_nil in Hdecl.
    apply parse_Ok in Hparse as (_ & _ & _ & Hroot & _).
    rewrite Hdecl in Hroot. discriminate.
  - intros Hblank. unfold parse. rewrite scan_blank by exact Hblank.
    reflexivity.
Qed.

Lemma parse_root_witness :
  (exists m, parse rootText = Ok m /\ root m = "A" /\
     map fst (nodes m) = declared rootText /\
     ((exists pre post,
         declared rootText = pre ++ root m :: post /\
         (root m ∉ map to (edges m)) /\
         forall id, id ∈ pre -> id ∈ map to (edges m)) \/
      ((forall id, id ∈ declared rootText -> id ∈ map to (edges m)) /\
       head (declared rootText) = Some (root m)))) /\
  (declared edgesOnlyText = [] /\ forall m, parse edgesOnlyText <> Ok m) /\
  parse blankText = Failed NoNodesDefined.
Proof.
  split; [|split].
  - eexists. split; [reflexivity|]. split; [reflexivity|].
    apply (proj1 (parse_root rootText)); [reflexivity|].
    intros id Hid. vm_compute in Hid.
    repeat (apply elem_of_cons in Hid as [->|Hid]; [reflexivity|]).
    apply elem_of_nil in Hid. destruct Hid.
  - split; [reflexivity|].
    apply (proj1 (proj2 (parse_root edgesOnlyText))). reflexivity.
  - apply (proj2 (proj2 (parse_root blankText))).
    intros raw Hraw. vm_compute in Hraw.
    repeat (apply elem_of_cons in Hraw as [->|Hraw]; [reflexivity|]).
    apply elem_of_nil in Hraw. destruct Hraw.
Defined.

(** C4 as it was stated fails. A text of one edge line declares no node
    and fails with an unknown-node error, not with No Nodes Defined. (And
    where ids are array indices, [Object.keys] lists them in numeric
    order: the root of [indexText] is the second declared id.) *)
Lemma parse_root_counterexample :
  (declared edgesOnlyText = [] /\
   parse edgesOnlyText = Failed (UnknownNodeFrom 1 "A")) /\
  (declared indexText = ["2"; "1"] /\
   exists m, parse indexText = Ok m /\ edges m = [] /\ root m = "1").
Proof.
  split; [split; reflexivity|]. split; [reflexivity|].
  eexists. split; [reflexivity|]. split; reflexivity.
Qed.

(** ** Termination (C1) *)

Lemma callTree_selfLoop (fuel : nat) :
  callTree ∅ (nodes selfLoop) fuel "A" = OutOfFuel.
Proof.
  induction fuel as [|fuel IH]; [reflexivity|].
  cbn [callTree]. change (children ∅ (nodes selfLoop) "A") with (Done ["A"]).
  cbn [mbind outcome_bind visit]. rewrite IH. reflexivity.
Qed.

(** C1, at its failing input. The text of one node with an edge to itself
    parses, and on its model [firstPass], which has no guard against
    meeting an id again, never returns: the layout runs out of any call
    stack. [depthFirstSearch], which has the guard, returns at once on
    the same model. *)
Theorem firstPass_self_loop :
  parse selfLoopText = Ok selfLoop /\
  (forall fuel d p, firstPass ∅ (nodes selfLoop) fuel "A" d p = OutOfFuel) /\
  (forall fuel, layoutTree fuel ∅ selfLoop = OutOfFuel) /\
  depthFirstSearch ∅ (nodes selfLoop) 2 "A" [] = Done ["A"].
Proof.
  split; [reflexivity|]. split; [|split].
  - intros fuel d p. rewrite firstPass_walk, callTree_selfLoop. reflexivity.
  - intros fuel. apply layoutFrom_OutOfFuel, callTree_selfLoop.
  - reflexivity.
Qed.

(** ** When the layout returns

    The first pass returns exactly when no property read throws and no
    visible path from the root meets an id twice. The first holds of every
    parsed model; the second fails as soon as the edges close a cycle that
    the root shows. *)

Lemma own_elem_of {V : Type} (o : Js.object V) (k : string) (v : V) :
  Js.own o k = Some v -> (k, v) ∈ o.
Proof.
  induction o as [|[k' v'] o IH]; simpl; [discriminate|].
  destruct (String.eqb k' k) eqn:E.
  - apply String.eqb_eq in E as ->. intros [= ->]. apply list_elem_of_here.
  - intros H. apply list_elem_of_further, IH, H.
Qed.

Lemma own_is_Some {V : Type} (o : Js.object V) (k : string) :
  k ∈ map fst o -> is_Some (Js.own o k).
Proof.
  induction o as [|[k' v'] o IH]; simpl; intros H.
  - apply elem_of_nil in H. destruct H.
  - destruct (String.eqb k' k) eqn:E; [eauto|].
    apply elem_of_cons in H as [->|H]; [|auto].
    rewrite String.eqb_refl in E. discriminate.
Qed.

Lemma insertIndex_elem_of (p q : N * string) (l : list (N * string)) :
  q ∈ Js.insertIndex p l -> q = p \/ q ∈ l.
Proof.
  induction l as [|a l IH]; simpl.
  - intros ->%list_elem_of_singleton. auto.
  - destruct (N.leb p.1 a.1).
    + intros [->|H]%elem_of_cons; auto.
    + intros [->|H]%elem_of_cons; [right; apply list_elem_of_here|].
      destruct (IH H) as [->|H']; [auto|].
      right. apply list_elem_of_further, H'.
Qed.

Lemma sortIndices_elem_of (q : N * string) (l : list (N * string)) :
  q ∈ Js.sortIndices l -> q ∈ l.
Proof.
  induction l as [|a l IH]; simpl; [auto|].
  intros [->|H]%insertIndex_elem_of; [apply list_elem_of_here|].
  apply list_elem_of_further, IH, H.
Qed.

(** [Object.keys] lists own keys only. *)
Lemma keys_elem_of {V : Type} (o : Js.object V) (k : string) :
  k ∈ Js.keys o -> k ∈ map fst o.
Proof.
  unfold Js.keys. intros [H|H]%elem_of_app.
  - apply list_elem_of_fmap in H as ([n k'] & -> & H).
    apply sortIndices_elem_of, list_elem_of_omap in H as (k'' & Hin & H).
    destruct (Js.arrayIndex k''); [|discriminate].
    injection H as _ <-. exact Hin.
  - apply list_elem_of_In, filter_In in H as [H _].
    apply list_elem_of_In, H.
Qed.

Lemma children_not_OutOfFuel (c : gset string) (nodes : Js.object Node.t)
  (x : string) : children c nodes x <> OutOfFuel.
Proof.
  unfold children, visibleChildren. destruct (bool_decide _); [discriminate|].
  destruct (Js.get nodes x); discriminate.
Qed.

Lemma children_truthy (c : gset string) (nodes : Js.object Node.t) (x : string) :
  Js.truthy (Js.get nodes x) = true -> children c nodes x <> TypeError.
Proof.
  unfold children, visibleChildren. destruct (bool_decide _); [discriminate|].
  destruct (Js.get nodes x); discriminate.
Qed.

Lemma children_own (c : gset string) (nodes : Js.object Node.t) (a b : string)
  (kids : list string) :
  children c nodes a = Done kids -> b ∈ kids ->
  exists n, (a, n) ∈ nodes /\ b ∈ Node.children n.
Proof.
  unfold children, visibleChildren. destruct (bool_decide _).
  { intros [= <-] H. apply elem_of_nil in H. destruct H. }
  unfold Js.get. destruct (Js.own nodes a) as [n|] eqn:E.
  - intros [= <-] H. exists n. split; [apply own_elem_of, E|exact H].
  - destruct (bool_decide _); [|discriminate].
    intros [= <-] H. apply elem_of_nil in H. destruct H.
Qed.

Section Termination.

Variable collapsed : gset string.
Variable nodes : Js.object Node.t.

#[local] Abbreviation children := (children collapsed nodes).
#[local] Abbreviation callTree := (callTree collapsed nodes).
#[local] Abbreviation visiblePath := (visiblePath collapsed nodes).
#[local] Abbreviation shown := (shown collapsed nodes).
#[local] Abbreviation closed := (closed collapsed nodes).

(** Enough stack for the longest visible path is enough for the first
    pass. *)
Lemma callTree_total (fuel : nat) :
  forall id,
    (forall π, visiblePath (id :: π) -> length π < fuel) ->
    closed id ->
    exists t, callTree fuel id = Done t.
Proof.
  induction fuel as [|fuel IH]; intros id Hlen Hclosed.
  { specialize (Hlen [] (path_end _ _ id)). simpl in Hlen. lia. }
  destruct (children id) as [kids| |] eqn:Hkids.
  - assert (Hall : forall k, k ∈ kids -> exists s, callTree fuel k = Done s).
    { intros k Hk. apply IH.
      - intros π Hπ.
        assert (H : visiblePath (id :: k :: π)) by (econstructor; eauto).
        apply Hlen in H. simpl in H. lia.
      - intros x Hx. apply Hclosed. eapply shown_step; eauto. }
    assert (exists ts, Forall2 (fun k s => callTree fuel k = Done s) kids ts)
      as [ts Hts].
    { clear Hkids. induction kids as [|k kids IHk].
      - exists []. constructor.
      - destruct (Hall k) as [s Hs]; [apply list_elem_of_here|].
        destruct IHk as [ts Hts].
        { intros k' Hk'. apply Hall, list_elem_of_further, Hk'. }
        exists (s :: ts). constructor; auto. }
    exists (Tree id ts). apply callTree_S. exists kids, ts. auto.
  - exfalso. apply (Hclosed id); [apply shown_root|exact Hkids].
  - exfalso. eapply children_not_OutOfFuel, Hkids.
Qed.

(** Every id of a visible path but the first is a child in the model. *)
Lemma visiblePath_children (π : list string) :
  visiblePath π -> forall x, x ∈ tail π -> x ∈ allChildren nodes.
Proof.
  induction 1 as [a|a b π kids Hk Hb _ IH]; intros x Hx; simpl in Hx.
  - apply elem_of_nil in Hx. destruct Hx.
  - apply elem_of_cons in Hx as [->|Hx]; [|auto].
    destruct (children_own _ _ _ _ _ Hk Hb) as (n & Hn & Hin).
    apply elem_of_concat_map. exists (a, n). auto.
Qed.

Lemma visiblePath_shown (π : list string) :
  visiblePath π -> forall a x, head π = Some a -> x ∈ π -> shown a x.
Proof.
  induction 1 as [a|a b π kids Hk Hb _ IH]; intros r x [= <-] Hx.
  - apply list_elem_of_singleton in Hx as ->. apply shown_root.
  - apply elem_of_cons in Hx as [->|Hx]; [apply shown_root|].
    eapply shown_step; eauto.
Qed.

(** A complete call tree has no visible path that meets an id twice. *)
Lemma callTree_paths_NoDup (t : tree) :
  isCallTree collapsed nodes t ->
  forall π, visiblePath (label t :: π) -> NoDup (label t :: π).
Proof.
  induction t as [id ts IH] using tree_induction. intros Ht π Hπ.
  simpl label in *. destruct π as [|b π]; [apply NoDup_singleton|].
  inversion Hπ as [|? ? ? kids Hk Hb Hπ']; subst.
  pose proof (isCallTree_kids _ _ _ _ Ht) as [Hid Hcts].
  rewrite Hid in Hk. injection Hk as <-.
  apply list_elem_of_fmap in Hb as (s & -> & Hs).
  rewrite Forall_forall in IH, Hcts.
  apply NoDup_cons. split; [|apply (IH s Hs (Hcts s Hs)), Hπ'].
  intros Hin. apply (callTree_acyclic _ _ _ _ Ht s Hs).
  apply (preorder_shown _ _ _ (Hcts s Hs)).
  eapply visiblePath_shown; [exact Hπ'|reflexivity|exact Hin].
Qed.

End Termination.

(** *** Parsed models *)

Lemma scanLine_childless (n : nat) (raw : string)
  (nodes nodes' : Js.object Node.t) (edges edges' : list edge) :
  scanLine n raw nodes edges = Ok (nodes', edges') ->
  Forall (fun p => Node.children p.2 = []) nodes ->
  Forall (fun p => Node.children p.2 = []) nodes'.
Proof.
  unfold scanLine.
  destruct (Js.isEmpty (Js.trim raw)); [intros [= <- <-]; auto|].
  destruct (Js.startsWith (Js.trim raw) "node ").
  { destruct (Js.match2 Js.nodePattern (Js.trim raw)) as [[id title]|];
      [|discriminate].
    destruct (Js.truthy (Js.get nodes id)); [discriminate|].
    intros [= <- <-] H. unfold Js.define. apply Forall_app. split; [exact H|].
    constructor; [reflexivity|constructor]. }
  destruct (Js.startsWith (Js.trim raw) "edge "); [|discriminate].
  destruct (Js.match2 Js.edgePattern (Js.trim raw)) as [[a b]|];
    [|discriminate].
  intros [= <- <-]. auto.
Qed.

Lemma scan_childless (lines : list string) :
  forall n nodes edges nodes' edges',
    scan lines n nodes edges = Ok (nodes', edges') ->
    Forall (fun p => Node.children p.2 = []) nodes ->
    Forall (fun p => Node.children p.2 = []) nodes'.
Proof.
  induction lines as [|raw lines IH]; intros n nodes edges nodes' edges'; simpl.
  - intros [= <- <-]. auto.
  - destruct (scanLine (S n) raw nodes edges) as [[nodes1 edges1]| |] eqn:E;
      [|discriminate..].
    intros H Hall. eapply IH; [exact H|]. eapply scanLine_childless; eauto.
Qed.

Lemma wellLinked_pushChild (a b : string) (nodes : Js.object Node.t) :
  Js.truthy (Js.get nodes b) = true ->
  wellLinked nodes -> wellLinked (pushChild a b nodes).
Proof.
  unfold wellLinked. intros Hb H.
  assert (Hinner : forall l : Js.object Node.t,
    Forall (fun p => forall ch, ch ∈ Node.children p.2 ->
                       Js.truthy (Js.get nodes ch) = true) l ->
    Forall (fun p => forall ch, ch ∈ Node.children p.2 ->
                       Js.truthy (Js.get (pushChild a b nodes) ch) = true)
           (pushChild a b l)).
  { induction 1 as [|[k n] l Hn _ IH]; simpl; constructor; auto.
    intros ch. rewrite truthy_pushChild.
    destruct (String.eqb k a); simpl; [|apply Hn].
    intros [Hch| ->%list_elem_of_singleton]%elem_of_app; auto. }
  apply Hinner, H.
Qed.

Lemma link_wellLinked (pending : list edge) :
  forall nodes nodes', link pending nodes = Ok nodes' ->
    wellLinked nodes -> wellLinked nodes'.
Proof.
  induction pending as [|e pending IH]; intros nodes nodes'; simpl.
  - intros [= <-]. auto.
  - destruct (Js.truthy (Js.get nodes (from e))); [|discriminate].
    destruct (Js.truthy (Js.get nodes (to e))) eqn:Hto; [|discriminate].
    simpl. destruct (Js.get nodes (from e)); try discriminate.
    intros H Hwl. eapply IH; [exact H|]. apply wellLinked_pushChild; auto.
Qed.

Lemma parse_wellLinked (text : string) (m : model) :
  parse text = Ok m -> wellLinked (nodes m).
Proof.
  intros H. apply parse_Ok in H as (scanned & Hscan & Hlink & _).
  eapply link_wellLinked; [exact Hlink|].
  apply scan_childless in Hscan; [|constructor].
  unfold wellLinked. eapply Forall_impl; [exact Hscan|].
  intros p -> ch Hch. apply elem_of_nil in Hch. destruct Hch.
Qed.

(** The root of a parsed model is one of its nodes. *)
Lemma parse_root_own (text : string) (m : model) :
  parse text = Ok m -> is_Some (Js.own (nodes m) (root m)).
Proof.
  intros H. apply parse_Ok in H as (_ & _ & _ & Hroot & _).
  apply own_is_Some, keys_elem_of. unfold chooseRoot in Hroot.
  assert (Hhead : head (Js.keys (nodes m)) = Some (root m) ->
                  root m ∈ Js.keys (nodes m)).
  { destruct (Js.keys (nodes m)); [discriminate|].
    intros [= ->]. apply list_elem_of_here. }
  destruct (List.find _ _) as [id|] eqn:Hfind; [|auto].
  destruct (Js.isEmpty id); [auto|]. injection Hroot as <-.
  apply find_some in Hfind as [Hin _]. apply list_elem_of_In, Hin.
Qed.

(** On a parsed model no property read of the layout throws. *)
Lemma parse_closed (text : string) (m : model) (c : gset string) :
  parse text = Ok m -> closed c (nodes m) (root m).
Proof.
  intros H x (π & Hπ & Hlast). apply children_truthy.
  destruct π as [|b π].
  - injection Hlast as <-. destruct (parse_root_own _ _ H) as [n Hn].
    unfold Js.get. rewrite Hn. reflexivity.
  - assert (Hx : x ∈ b :: π).
    { change (last (b :: π) = Some x) in Hlast.
      apply last_Some in Hlast as (l' & ->).
      apply elem_of_app. right. apply list_elem_of_here. }
    apply (visiblePath_children _ _ _ Hπ) in Hx.
    apply elem_of_concat_map in Hx as ([a n] & Hn & Hx).
    pose proof (parse_wellLinked _ _ H) as Hwl. unfold wellLinked in Hwl.
    rewrite Forall_forall in Hwl. apply (Hwl _ Hn), Hx.
Qed.

(** The layout of a parsed model returns, on a stack that is deep enough,
    exactly when no visible path from the root meets an id twice. *)
Lemma layoutTree_returns (text : string) (m : model) (c : gset string) :
  parse text = Ok m ->
  (exists fuel l, layoutTree fuel c m = Done l) <->
  (forall π, visiblePath c (nodes m) (root m :: π) -> NoDup (root m :: π)).
Proof.
  intros Hparse. split.
  - intros (fuel & l & Hl) π Hπ. unfold layoutTree in Hl.
    apply layoutFrom_Done in Hl as (t & Ht & _).
    pose proof (callTree_label _ _ _ _ _ Ht) as Hlabel.
    rewrite <- Hlabel in Hπ |- *.
    apply (callTree_paths_NoDup c (nodes m)); [|exact Hπ].
    exists fuel. rewrite Hlabel. exact Ht.
  - intros Hpaths.
    destruct (callTree_total c (nodes m) (S (length (allChildren (nodes m))))
                (root m)) as [t Ht].
    + intros π Hπ. pose proof (Hpaths π Hπ) as Hnd.
      apply NoDup_cons in Hnd as [_ Hnd].
      enough (length π <= length (allChildren (nodes m))) by lia.
      apply submseteq_length, NoDup_submseteq; [exact Hnd|].
      intros x Hx. apply (visiblePath_children _ _ _ Hπ). exact Hx.
    + eapply parse_closed, Hparse.
    + destruct (layoutFrom_total _ _ _ _ _ Ht) as (v & _ & Hl). eauto.
Qed.

(** ** Slots (C2) *)

Lemma Qmin_cases (x y : Q) : Qmin x y = x \/ Qmin x y = y.
Proof.
  unfold Qmin, GenericMinMax.gmin. destruct (x ?= y)%Q; auto.
Qed.

Lemma Qmax_cases (x y : Q) : Qmax x y = x \/ Qmax x y = y.
Proof.
  unfold Qmax, GenericMinMax.gmax. destruct (x ?= y)%Q; auto.
Qed.

(** [Math_min] is the least of its arguments, [Math_max] the greatest. *)
Lemma Math_min_spec (xs : list Q) :
  forall x,
    (forall y, y ∈ x :: xs -> (Math_min x xs <= y)%Q) /\
    Math_min x xs ∈ x :: xs.
Proof.
  unfold Math_min. induction xs as [|a xs IH]; intros x; simpl.
  - split; [|apply list_elem_of_here].
    intros y ->%list_elem_of_singleton. apply Qle_refl.
  - destruct (IH (Qmin x a)) as [Hle Hin]. split.
    + intros y [->|[->|Hy]%elem_of_cons]%elem_of_cons.
      * eapply Qle_trans; [apply Hle, list_elem_of_here|apply Q.le_min_l].
      * eapply Qle_trans; [apply Hle, list_elem_of_here|apply Q.le_min_r].
      * apply Hle, list_elem_of_further, Hy.
    + apply elem_of_cons in Hin as [E|Hin].
      * rewrite E. destruct (Qmin_cases x a) as [->| ->].
        -- apply list_elem_of_here.
        -- apply list_elem_of_further, list_elem_of_here.
      * do 2 apply list_elem_of_further. exact Hin.
Qed.

Lemma Math_max_spec (xs : list Q) :
  forall x,
    (forall y, y ∈ x :: xs -> (y <= Math_max x xs)%Q) /\
    Math_max x xs ∈ x :: xs.
Proof.
  unfold Math_max. induction xs as [|a xs IH]; intros x; simpl.
  - split; [|apply list_elem_of_here].
    intros y ->%list_elem_of_singleton. apply Qle_refl.
  - destruct (IH (Qmax x a)) as [Hle Hin]. split.
    + intros y [->|[->|Hy]%elem_of_cons]%elem_of_cons.
      * eapply Qle_trans; [apply Q.le_max_l|apply Hle, list_elem_of_here].
      * eapply Qle_trans; [apply Q.le_max_r|apply Hle, list_elem_of_here].
      * apply Hle, list_elem_of_further, Hy.
    + apply elem_of_cons in Hin as [E|Hin].
      * rewrite E. destruct (Qmax_cases x a) as [->| ->].
        -- apply list_elem_of_here.
        -- apply list_elem_of_further, list_elem_of_here.
      * do 2 apply list_elem_of_further. exact Hin.
Qed.

(** Children at the slots 0, [mid] and 4: the parent is at 2 wherever the
    middle child is. *)
Lemma centre_outermost (mid : Q) :
  (0 <= mid)%Q -> (mid <= 4)%Q -> centre 0 [mid; 4%Q] = 2%Q.
Proof.
  intros H0 H4. unfold centre.
  change 2%Q with (Qred ((0 + 4) / 2)). apply Qred_complete.
  assert (Hmin : (Math_min 0 [mid; 4%Q] == 0)%Q).
  { unfold Math_min. simpl.
    eapply Qeq_trans; [apply Q.min_l|apply Q.min_l, H0].
    eapply Qle_trans; [apply Q.le_min_l|discriminate]. }
  assert (Hmax : (Math_max 0 [mid; 4%Q] == 4)%Q).
  { unfold Math_max. simpl. apply Q.max_r, Q.max_lub; [discriminate|exact H4]. }
  rewrite Hmin, Hmax. reflexivity.
Qed.

Lemma centre_ext (p q : pass) (k : string) (ks : list string) :
  (forall kid, kid ∈ k :: ks -> xPosition p !! kid = xPosition q !! kid) ->
  centre (slotOf p k) (map (slotOf p) ks) = centre (slotOf q k) (map (slotOf q) ks).
Proof.
  intros H. unfold slotOf. rewrite (H k) by apply list_elem_of_here.
  f_equal. apply map_ext_in. intros kid Hkid.
  rewrite H; [reflexivity|]. apply list_elem_of_further, list_elem_of_In, Hkid.
Qed.

Section Slots.

Variable collapsed : gset string.
Variable nodes : Js.object Node.t.

#[local] Abbreviation children := (children collapsed nodes).
#[local] Abbreviation callTree := (callTree collapsed nodes).
#[local] Abbreviation firstPass := (firstPass collapsed nodes).
#[local] Abbreviation isCallTree := (isCallTree collapsed nodes).

Lemma forEach_firstPass (fuel d : nat) (kids : list string) :
  forall q,
    forEach (fun c => firstPass fuel c d) kids q =
    visit (callTree fuel) kids ≫= fun ts => Done (walkAll ts d q).
Proof.
  induction kids as [|c kids IH]; intros q; simpl; [reflexivity|].
  rewrite firstPass_walk.
  destruct (callTree fuel c) as [s| |]; simpl; [|reflexivity..].
  rewrite IH. destruct (visit (callTree fuel) kids); reflexivity.
Qed.

(** When a call for an id with visible children returns, the slot of the
    id is the centre of the slots that its children have then. *)
Lemma walk_centre_root (id : string) (k : tree) (ks : list tree) (d : nat)
  (p : pass) :
  isCallTree (Tree id (k :: ks)) ->
  let p' := walk (Tree id (k :: ks)) d p in
  (forall kid, kid ∈ label k :: map label ks ->
     is_Some (xPosition p' !! kid)) /\
  xPosition p' !! id
  = Some (centre (slotOf p' (label k)) (map (slotOf p') (map label ks))).
Proof.
  intros Ht p'. subst p'. rewrite walk_parent.
  set (p1 := walkAll (k :: ks) (S d) (setDepth id d p)).
  assert (Hne : forall kid, kid ∈ label k :: map label ks -> kid <> id).
  { intros kid Hkid ->.
    change (label k :: map label ks) with (map label (k :: ks)) in Hkid.
    apply list_elem_of_fmap in Hkid as (s & Hl & Hs).
    eapply callTree_acyclic; [exact Ht|exact Hs|].
    rewrite Hl. destruct s. apply list_elem_of_here. }
  assert (Hsame : forall kid, kid ∈ label k :: map label ks ->
            xPosition (placeParent id (label k) (map label ks) p1) !! kid
            = xPosition p1 !! kid).
  { intros kid Hkid. simpl. apply lookup_insert_ne. intros ->.
    eapply Hne; eauto. }
  split.
  - intros kid Hkid. rewrite Hsame by exact Hkid.
    change (label k :: map label ks) with (map label (k :: ks)) in Hkid.
    apply list_elem_of_fmap in Hkid as (s & -> & Hs).
    refine (proj1 (walkAll_placed (k :: ks) (label s) _ (S d) _ _)).
    + apply Forall_forall. intros t _. apply walk_placed.
    + apply elem_of_concat_map. exists s. split; [exact Hs|].
      destruct s. apply list_elem_of_here.
  - rewrite (centre_ext _ p1 _ _ Hsame). simpl. apply lookup_insert_eq.
Qed.

Lemma walkAll_centred (ts : list tree) :
  Forall isCallTree ts ->
  NoDup (concat (map preorder ts)) ->
  Forall (fun t => forall d p x k ks,
            x ∈ preorder t -> children x = Done (k :: ks) ->
            xPosition (walk t d p) !! x
            = Some (centre (slotOf (walk t d p) k)
                           (map (slotOf (walk t d p)) ks))) ts ->
  forall d p x k ks,
    x ∈ concat (map preorder ts) -> children x = Done (k :: ks) ->
    xPosition (walkAll ts d p) !! x
    = Some (centre (slotOf (walkAll ts d p) k)
                   (map (slotOf (walkAll ts d p)) ks)).
Proof.
  intros Hct Hnd Hall. revert Hct Hnd.
  induction Hall as [|t ts Ht _ IH]; intros Hct Hnd d p x k ks Hx Hk.
  { apply elem_of_nil in Hx. destruct Hx. }
  apply Forall_cons in Hct as [Hct Hcts].
  simpl in Hnd, Hx. apply NoDup_app in Hnd as (_ & Hdisj & Hnd).
  rewrite walkAll_cons.
  destruct (decide (x ∈ concat (map preorder ts))) as [Hin|Hout];
    [apply IH; auto|].
  apply elem_of_app in Hx as [Hx|Hx]; [|contradiction].
  assert (Hkids : forall kid, kid ∈ k :: ks ->
            xPosition (walkAll ts d (walk t d p)) !! kid
            = xPosition (walk t d p) !! kid).
  { intros kid Hkid. apply walkAll_xPosition_other, Hdisj.
    eapply callTree_closed; eauto. }
  rewrite (centre_ext _ (walk t d p) _ _ Hkids).
  rewrite walkAll_xPosition_other by exact Hout. apply Ht; auto.
Qed.

(** In a call tree without a repeated id, this is so for every id of the
    tree when the outermost call returns. *)
Lemma walk_centred (t : tree) :
  isCallTree t -> NoDup (preorder t) ->
  forall d p x k ks,
    x ∈ preorder t -> children x = Done (k :: ks) ->
    xPosition (walk t d p) !! x
    = Some (centre (slotOf (walk t d p) k) (map (slotOf (walk t d p)) ks)).
Proof.
  induction t as [id kids IH] using tree_induction.
  intros Ht Hnd d p x k ks Hx Hk.
  pose proof (isCallTree_kids _ _ _ _ Ht) as [Hkids Hcts].
  change (preorder (Tree id kids)) with (id :: concat (map preorder kids))
    in Hnd, Hx.
  apply NoDup_cons in Hnd as [Hid Hnd].
  apply elem_of_cons in Hx as [->|Hx].
  - rewrite Hkids in Hk. destruct kids as [|kt kts]; [discriminate|].
    injection Hk as <- <-. apply (walk_centre_root id kt kts d p Ht).
  - destruct kids as [|kt kts]; [apply elem_of_nil in Hx; destruct Hx|].
    rewrite walk_parent.
    set (p1 := walkAll (kt :: kts) (S d) (setDepth id d p)).
    assert (Hne : forall y, y ∈ concat (map preorder (kt :: kts)) ->
              xPosition (placeParent id (label kt) (map label kts) p1) !! y
              = xPosition p1 !! y).
    { intros y Hy. simpl. apply lookup_insert_ne. intros ->. auto. }
    assert (Hclosed : forall kid, kid ∈ k :: ks ->
              kid ∈ concat (map preorder (kt :: kts))).
    { intros kid Hkid. apply elem_of_concat_map in Hx as (s & Hs & Hx).
      apply elem_of_concat_map. exists s. split; [exact Hs|].
      rewrite Forall_forall in Hcts. eapply callTree_closed; eauto. }
    rewrite (centre_ext _ p1 k ks) by (intros kid Hkid; apply Hne; auto).
    rewrite Hne by exact Hx.
    apply walkAll_centred; auto.
    rewrite Forall_forall in IH, Hcts |- *. intros s Hs d' q y k' ks' Hy Hk'.
    apply IH; auto.
    clear -Hnd Hs. induction Hs as [s l|s s' l _ IHs]; simpl in Hnd;
      apply NoDup_app in Hnd as (H1 & _ & H2); auto.
Qed.

End Slots.

(** C2, amended. In every pass, a call of [firstPass] for an id without
    visible children gives the id the value of the counter and moves the
    counter on by one, and the counter never goes back: over a whole call
    it moves by the number of leaf calls. A call for an id with visible
    children first runs the calls for the children, in order, and then
    gives the id a slot which, where no operation of the call rounds, is
    the mean of the least and of the greatest of the slots its children
    have at that point, whatever lies between them (2 for children at 0, 2
    and 4, and wherever the middle one is). When the calls meet no id
    twice, these are the slots when the outermost call returns: the i-th
    leaf reached has the i-th value of the counter, and every id with
    visible children is at the centre of its children. *)
Theorem slot_assignment (fuel : nat) (c : gset string)
  (nodes : Js.object Node.t) (id : string) (d : nat) (p p' : pass)
  (t : tree) :
  firstPass c nodes fuel id d p = Done p' ->
  callTree c nodes fuel id = Done t ->
  xPositionNext p <= xPositionNext p' /\
  xPositionNext p' = xPositionNext p + length (leaves t) /\
  (children c nodes id = Done [] ->
     xPosition p' !! id = Some (ofNat (xPositionNext p)) /\
     xPositionNext p' = S (xPositionNext p)) /\
  (forall k ks, children c nodes id = Done (k :: ks) ->
     (exists fuel' p1,
        fuel = S fuel' /\
        forEach (fun kid => firstPass c nodes fuel' kid (S d)) (k :: ks)
                (setDepth id d p) = Done p1 /\
        p' = placeParent id k ks p1) /\
     (forall kid, kid ∈ k :: ks -> is_Some (xPosition p' !! kid)) /\
     let lo := Math_min (slotOf p' k) (map (slotOf p') ks) in
     let hi := Math_max (slotOf p' k) (map (slotOf p') ks) in
     (exists slot,
        xPosition p' !! id = Some slot /\
        (exactPass t d p = true -> (slot == (lo + hi) / 2)%Q)) /\
     (forall kid, kid ∈ k :: ks ->
        (lo <= slotOf p' kid)%Q /\ (slotOf p' kid <= hi)%Q) /\
     (exists a b, a ∈ k :: ks /\ b ∈ k :: ks /\
        lo = slotOf p' a /\ hi = slotOf p' b)) /\
  (NoDup (preorder t) ->
     (forall i x, leaves t !! i = Some x ->
        xPosition p' !! x = Some (ofNat (xPositionNext p + i))) /\
     (forall x k ks,
        x ∈ preorder t -> children c nodes x = Done (k :: ks) ->
        exists slot,
          xPosition p' !! x = Some slot /\
          (exactPass t d p = true ->
           (slot == (Math_min (slotOf p' k) (map (slotOf p') ks)
                     + Math_max (slotOf p' k) (map (slotOf p') ks)) / 2)%Q)))
  /\
  (forall mid, (0 <= mid)%Q -> (mid <= 4)%Q -> centre 0 [mid; 4%Q] = 2%Q).
Proof.
  intros Hpass Ht. pose proof Hpass as Hwalk.
  apply firstPass_Done in Hwalk as (t0 & Ht0 & ->).
  rewrite Ht in Ht0. injection Ht0 as <-.
  assert (Hct : isCallTree c nodes t).
  { exists fuel. rewrite (callTree_label _ _ _ _ _ Ht). exact Ht. }
  destruct fuel as [|fuel']; [discriminate|].
  pose proof Ht as Ht'.
  apply callTree_S in Ht' as (kids & ts & Hkids & Hts & ->).
  pose proof (callTree_labels _ _ _ _ _ Hts) as Hlabels.
  split; [rewrite walk_next; lia|]. split; [apply walk_next|].
  split; [|split; [|split]].
  - rewrite Hkids. intros [= ->]. inversion Hts; subst.
    rewrite walk_leaf. simpl. rewrite lookup_insert_eq. auto.
  - rewrite Hkids. intros k ks [= ->].
    destruct ts as [|kt kts]; [inversion Hts|].
    injection Hlabels as <- <-.
    destruct (walk_centre_root c nodes id kt kts d p Hct) as [Hsome Hcentre].
    set (p' := walk (Tree id (kt :: kts)) d p) in *.
    split; [|split; [exact Hsome|]].
    { exists fuel', (walkAll (kt :: kts) (S d) (setDepth id d p)).
      split; [reflexivity|]. split; [|reflexivity].
      rewrite forEach_firstPass.
      rewrite (proj2 (visit_Done _ _ _) Hts). reflexivity. }
    cbv zeta. split; [|split].
    + eexists. split; [exact Hcentre|]. intros _. apply Qred_correct.
    + intros kid Hkid.
      assert (Hin : slotOf p' kid
                    ∈ slotOf p' (label kt) :: map (slotOf p') (map label kts)).
      { change (slotOf p' kid ∈ map (slotOf p') (label kt :: map label kts)).
        apply list_elem_of_fmap. eauto. }
      split.
      * apply Math_min_spec, Hin.
      * apply Math_max_spec, Hin.
    + destruct (Math_min_spec (map (slotOf p') (map label kts))
                  (slotOf p' (label kt))) as [_ Hlo].
      destruct (Math_max_spec (map (slotOf p') (map label kts))
                  (slotOf p' (label kt))) as [_ Hhi].
      apply (list_elem_of_fmap (slotOf p') (label kt :: map label kts))
        in Hlo as (a & Ea & Ha).
      apply (list_elem_of_fmap (slotOf p') (label kt :: map label kts))
        in Hhi as (b & Eb & Hb).
      exists a, b. auto.
  - intros Hnd. split.
    + intros i x Hi. apply walk_leaf_slots; assumption.
    + intros x k ks Hx Hk. eexists.
      split; [apply (walk_centred c nodes _ Hct Hnd d p x k ks Hx Hk)|].
      intros _. apply Qred_correct.
  - intros mid. apply centre_outermost.
Qed.

Lemma slot_assignment_witness :
  (firstPass ∅ (nodes treeModel) 3 "R" 0 emptyPass = Done treePass /\
   exactPass treeCalls 0 emptyPass = true /\
   xPositionNext treePass = 0 + length ["C"; "B"] /\
   children ∅ (nodes treeModel) "R" = Done ["A"; "B"] /\
   (exists slot,
      xPosition treePass !! "R" = Some slot /\
      (slot == (Math_min (slotOf treePass "A") [slotOf treePass "B"]
                + Math_max (slotOf treePass "A") [slotOf treePass "B"]) / 2)%Q)
   /\
   NoDup (preorder treeCalls) /\
   xPosition treePass !! "C" = Some (ofNat (0 + 0)) /\
   xPosition treePass !! "B" = Some (ofNat (0 + 1)) /\
   children ∅ (nodes treeModel) "A" = Done ["C"] /\
   (exists slot,
      xPosition treePass !! "A" = Some slot /\
      (slot == (Math_min (slotOf treePass "C") []
                + Math_max (slotOf treePass "C") []) / 2)%Q) /\
   centre 0 [1%Q; 4%Q] = 2%Q) /\
  (exists q q',
     firstPass ∅ (nodes treeModel) 2 "A" 1 (setDepth "R" 0 emptyPass)
     = Done q /\
     xPositionNext q = 1 /\
     firstPass ∅ (nodes treeModel) 1 "B" 1 q = Done q' /\
     children ∅ (nodes treeModel) "B" = Done [] /\
     xPosition q' !! "B" = Some (ofNat 1) /\ xPositionNext q' = 2).
Proof.
  split.
  - assert (H : firstPass ∅ (nodes treeModel) 3 "R" 0 emptyPass
                = Done treePass) by (vm_compute; reflexivity).
    destruct (slot_assignment 3 ∅ (nodes treeModel) "R" 0 emptyPass treePass
                treeCalls H eq_refl)
      as (_ & Hnext & _ & Hparent & Hfinal & Hcentre).
    destruct (Hparent "A" ["B"] eq_refl) as (_ & _ & (slot & Hslot & E) & _).
    assert (Hnd : NoDup (preorder treeCalls))
      by (apply (bool_decide_unpack _); vm_compute; exact I).
    destruct (Hfinal Hnd) as [Hleaves Hmeans].
    assert (HA : "A" ∈ preorder treeCalls)
      by (apply (bool_decide_unpack _); vm_compute; exact I).
    destruct (Hmeans "A" "C" [] HA eq_refl) as (s & Hs & Es).
    split; [exact H|]. split; [reflexivity|]. split; [exact Hnext|].
    split; [reflexivity|].
    split; [exists slot; split; [exact Hslot|exact (E eq_refl)]|].
    split; [exact Hnd|].
    split; [exact (Hleaves 0 "C" eq_refl)|].
    split; [exact (Hleaves 1 "B" eq_refl)|].
    split; [reflexivity|].
    split; [exists s; split; [exact Hs|exact (Es eq_refl)]|].
    apply Hcentre; [vm_compute|vm_compute]; discriminate.
  - set (q := walk (Tree "A" [Tree "C" []]) 1 (setDepth "R" 0 emptyPass)).
    assert (H : firstPass ∅ (nodes treeModel) 1 "B" 1 q
                = Done (placeLeaf "B" (setDepth "B" 1 q)))
      by (vm_compute; reflexivity).
    assert (Ht : callTree ∅ (nodes treeModel) 1 "B" = Done (Tree "B" []))
      by (vm_compute; reflexivity).
    destruct (slot_assignment 1 ∅ (nodes treeModel) "B" 1 q _ (Tree "B" [])
                H Ht) as (_ & _ & Hleaf & _).
    exists q, (placeLeaf "B" (setDepth "B" 1 q)).
    split; [vm_compute; reflexivity|]. split; [vm_compute; reflexivity|].
    split; [exact H|]. split; [vm_compute; reflexivity|].
    apply Hleaf. vm_compute. reflexivity.
Defined.

(** C2 as it was stated fails where an id has two visible parents. In
    [dagModel] the first pass reaches B below A, where B takes slot 0 and
    A the mean of its one child, 0; it reaches B again below R, where B
    takes slot 1. When the pass returns, A is not at the mean of the
    slots of its children, and the one leaf has the second value of the
    counter; no operation of the pass has rounded. *)
Lemma slot_assignment_counterexample :
  parse dagText = Ok dagModel /\
  exists t p,
    callTree ∅ (nodes dagModel) 3 "R" = Done t /\
    exactPass t 0 emptyPass = true /\
    firstPass ∅ (nodes dagModel) 3 "R" 0 emptyPass = Done p /\
    children ∅ (nodes dagModel) "A" = Done ["B"] /\
    children ∅ (nodes dagModel) "B" = Done [] /\
    xPosition p !! "A" = Some 0%Q /\
    xPosition p !! "B" = Some 1%Q /\
    ~ (0 == (Math_min (slotOf p "B") [] + Math_max (slotOf p "B") []) / 2)%Q.
Proof.
  split; [reflexivity|].
  exists (Tree "R" [Tree "A" [Tree "B" []]; Tree "B" []]). eexists.
  split; [reflexivity|]. split; [reflexivity|].
  split; [vm_compute; reflexivity|].
  split; [reflexivity|]. split; [reflexivity|]. split; [reflexivity|].
  split; [reflexivity|]. vm_compute. discriminate.
Qed.

(** ** Collapsing (C3) *)

Section Collapse.

Variable nodes : Js.object Node.t.

Lemma children_uncollapsed (s s' : gset string) (a b : string)
  (kids : list string) :
  children s nodes a = Done kids -> b ∈ kids ->
  (a ∉ s) /\ (a ∉ s' -> children s' nodes a = Done kids).
Proof.
  unfold children, visibleChildren. case_bool_decide as Ha.
  - intros [= <-] Hb. apply elem_of_nil in Hb. destruct Hb.
  - intros H _. split; [exact Ha|]. intros Ha'.
    rewrite bool_decide_eq_false_2 by exact Ha'. exact H.
Qed.

Lemma visiblePath_uncollapsed (s : gset string) (π : list string) :
  visiblePath s nodes π -> forall y, y ∈ removelast π -> y ∉ s.
Proof.
  induction 1 as [a|a b π kids Hk Hb _ IH]; intros y Hy.
  - apply elem_of_nil in Hy. destruct Hy.
  - change (removelast (a :: b :: π)) with (a :: removelast (b :: π)) in Hy.
    apply elem_of_cons in Hy as [->|Hy]; [|auto].
    eapply (children_uncollapsed s ∅); eauto.
Qed.

Lemma visiblePath_change (s s' : gset string) (π : list string) :
  visiblePath s nodes π -> (forall y, y ∈ removelast π -> y ∉ s') ->
  visiblePath s' nodes π.
Proof.
  induction 1 as [a|a b π kids Hk Hb _ IH]; intros Hs'; [constructor|].
  change (removelast (a :: b :: π)) with (a :: removelast (b :: π)) in Hs'.
  econstructor; [|exact Hb|].
  - eapply (children_uncollapsed s s'); eauto. apply Hs', list_elem_of_here.
  - apply IH. intros y Hy. apply Hs', list_elem_of_further, Hy.
Qed.

(** A path is visible when it is a path of the model and none of its ids
    but the last is collapsed. *)
Lemma visiblePath_iff (s : gset string) (π : list string) :
  visiblePath s nodes π <->
  visiblePath ∅ nodes π /\ forall y, y ∈ removelast π -> y ∉ s.
Proof.
  split.
  - intros H. split; [|apply visiblePath_uncollapsed, H].
    eapply visiblePath_change; [exact H|]. intros y _.
    apply not_elem_of_empty.
  - intros [H Hs]. eapply visiblePath_change; eauto.
Qed.

(** A shown id stays shown when it is collapsed. *)
Lemma shown_collapse_self (s : gset string) (root c : string) :
  shown s nodes root c -> shown (s ∪ {[c]}) nodes root c.
Proof.
  intros (π & Hπ & Hl). revert root Hπ Hl.
  induction π as [|b π IH]; intros a Hπ Hl.
  - injection Hl as ->. apply shown_root.
  - destruct (decide (a = c)) as [->|Hne]; [apply shown_root|].
    inversion Hπ as [|? ? ? kids Hk Hb Hπ']; subst.
    eapply shown_step; [|exact Hb|apply IH; auto].
    eapply (children_uncollapsed s); eauto.
    pose proof (children_uncollapsed s ∅ _ _ _ Hk Hb) as [Ha _].
    rewrite elem_of_union, elem_of_singleton. tauto.
Qed.

(** Collapsing prunes the call tree; it cannot make the first pass run
    longer. *)
Lemma callTree_collapse (s : gset string) (c : string) (fuel : nat) :
  forall id t, callTree s nodes fuel id = Done t ->
    exists t', callTree (s ∪ {[c]}) nodes fuel id = Done t'.
Proof.
  induction fuel as [|fuel IH]; intros id t; [discriminate|].
  rewrite callTree_S. intros (kids & ts & Hk & Hts & _).
  destruct (decide (id ∈ s ∪ {[c]})) as [Hin|Hout].
  - exists (Tree id []). apply callTree_S. exists [], [].
    split; [|split; [constructor|reflexivity]].
    unfold children, visibleChildren.
    rewrite bool_decide_eq_true_2 by exact Hin. reflexivity.
  - assert (Hk' : children (s ∪ {[c]}) nodes id = Done kids).
    { revert Hk. unfold children, visibleChildren.
      rewrite (bool_decide_eq_false_2 _ Hout).
      case_bool_decide as Hs; [|auto].
      exfalso. apply Hout, elem_of_union. auto. }
    assert (exists ts', Forall2 (fun k s' =>
              callTree (s ∪ {[c]}) nodes fuel k = Done s') kids ts')
      as [ts' Hts'].
    { clear -IH Hts. induction Hts as [|k t kids ts Hk _ [ts' IHts]].
      - exists []. constructor.
      - destruct (IH k t Hk) as [t' Ht']. exists (t' :: ts').
        constructor; auto. }
    exists (Tree id ts'). apply callTree_S. exists kids, ts'. auto.
Qed.

End Collapse.

(** C3, amended. For every model and collapsed set on which the layout
    returns, and every id [c]: with [c] added to the collapsed set the
    layout returns again; [c] stays visible, with coordinates, if it was
    visible; an id is visible exactly when some path of the model leads
    from the root to it through ids that are not collapsed; so every id
    that the root reached only through [c] (every descendant of [c], when
    the model is a tree) is gone from the visible set and from the
    coordinate map. *)
Theorem collapse_hides (fuel : nat) (s : gset string) (m : model) (c : string)
  (l : layout) :
  layoutTree fuel s m = Done l ->
  exists l', layoutTree fuel (s ∪ {[c]}) m = Done l' /\
    dom (coords l') = list_to_set (vis l') /\
    (c ∈ vis l -> c ∈ vis l' /\ is_Some (coords l' !! c)) /\
    (forall x, x ∈ vis l' <->
       exists π, visiblePath ∅ (nodes m) (root m :: π) /\
         last (root m :: π) = Some x /\
         forall y, y ∈ removelast (root m :: π) -> y ∉ s ∪ {[c]}) /\
    (forall x,
       (forall π, visiblePath s (nodes m) (root m :: π) ->
          last (root m :: π) = Some x -> c ∈ removelast (root m :: π)) ->
       (x ∉ vis l') /\ coords l' !! x = None).
Proof.
  intros H. unfold layoutTree in H.
  apply layoutFrom_facts in H as (t & Ht & _ & _ & _ & Hshown & _ & _).
  destruct (callTree_collapse (nodes m) s c fuel _ _ Ht) as [t' Ht'].
  destruct (layoutFrom_total _ _ _ _ _ Ht') as (v' & _ & Hl').
  eexists. split; [exact Hl'|].
  pose proof (layoutFrom_dom _ _ _ _ _ Hl') as Hdom.
  apply layoutFrom_facts in Hl' as (t2 & _ & _ & _ & _ & Hshown' & Hc' & _).
  set (l' := {| coords := _; vis := v' |}) in *.
  assert (Hiff : forall x, x ∈ vis l' <->
    exists π, visiblePath ∅ (nodes m) (root m :: π) /\
      last (root m :: π) = Some x /\
      forall y, y ∈ removelast (root m :: π) -> y ∉ s ∪ {[c]}).
  { intros x. rewrite Hshown'. unfold shown. split.
    - intros (π & Hπ & Hlast). apply visiblePath_iff in Hπ as [Hπ Hs]. eauto.
    - intros (π & Hπ & Hlast & Hs). exists π. split; [|exact Hlast].
      apply visiblePath_iff. auto. }
  split; [exact Hdom|]. split; [|split; [exact Hiff|]].
  - intros Hc. apply Hshown, shown_collapse_self, Hshown' in Hc.
    split; [exact Hc|]. rewrite Hc', bool_decide_eq_true_2 by exact Hc. eauto.
  - intros x Hx.
    assert (Hout : x ∉ vis l').
    { intros (π & Hπ & Hlast & Hs)%Hiff.
      apply (Hs c); [|apply elem_of_union; right; apply elem_of_singleton;
                      reflexivity].
      apply Hx; [|exact Hlast].
      apply visiblePath_iff. split; [exact Hπ|].
      intros y Hy Hin. apply (Hs y Hy), elem_of_union. auto. }
    split; [exact Hout|]. rewrite Hc', bool_decide_eq_false_2 by exact Hout.
    reflexivity.
Qed.

Lemma collapse_hides_witness :
  exists l', layoutTree 3 ({["B"]} ∪ {["A"]}) treeModel = Done l' /\
    dom (coords l') = list_to_set (vis l') /\
    ("A" ∈ vis treeLayout -> "A" ∈ vis l' /\ is_Some (coords l' !! "A")) /\
    (forall x, x ∈ vis l' <->
       exists π, visiblePath ∅ (nodes treeModel) ("R" :: π) /\
         last ("R" :: π) = Some x /\
         forall y, y ∈ removelast ("R" :: π) -> y ∉ ({["B"]} ∪ {["A"]} : gset string)) /\
    (forall x,
       (forall π, visiblePath {["B"]} (nodes treeModel) ("R" :: π) ->
          last ("R" :: π) = Some x -> "A" ∈ removelast ("R" :: π)) ->
       (x ∉ vis l') /\ coords l' !! x = None).
Proof.
  apply (collapse_hides 3 {["B"]} treeModel "A" treeLayout).
  vm_compute. reflexivity.
Defined.

(** C3 as it was stated fails where a descendant has a second parent: in
    [dagModel] B is a child of A, and with A collapsed B is still visible,
    with coordinates, as a child of R. *)
Lemma collapse_hides_counterexample :
  children ∅ (nodes dagModel) "A" = Done ["B"] /\
  layoutTree 3 (∅ ∪ {["A"]}) dagModel = Done dagLayout /\
  "B" ∈ vis dagLayout /\
  coords dagLayout !! "B" = Some (Coord.make 166 126).
Proof.
  split; [reflexivity|]. split; [vm_compute; reflexivity|].
  split; [|reflexivity].
  do 2 apply list_elem_of_further. apply list_elem_of_here.
Qed.

(** ** Depths (C6) *)

Section Depths.

Variable collapsed : gset string.
Variable nodes : Js.object Node.t.

#[local] Abbreviation children := (children collapsed nodes).
#[local] Abbreviation isCallTree := (isCallTree collapsed nodes).
#[local] Abbreviation below := (below collapsed nodes).
#[local] Abbreviation levelled := (levelled collapsed nodes).

Lemma below_weaken (p : pass) (l l' : list string) (x : string) :
  (forall y, y ∈ l -> y ∈ l') -> below p l x -> below p l' x.
Proof.
  intros Hl (y & kids & d & Hy & H). exists y, kids, d. split; auto.
Qed.

Lemma walkAll_levelled (ts : list tree) :
  Forall isCallTree ts ->
  Forall (fun t => forall d p, levelled t d (walk t d p)) ts ->
  forall d p x, x ∈ concat (map preorder ts) ->
    (x ∈ map label ts /\ depth (walkAll ts d p) !! x = Some d) \/
    below (walkAll ts d p) (concat (map preorder ts)) x.
Proof.
  intros Hct Hall. induction Hall as [|t ts Ht _ IH]; intros d p x Hx.
  { apply elem_of_nil in Hx. destruct Hx. }
  apply Forall_cons in Hct as [Hct Hcts]. specialize (IH Hcts).
  rewrite walkAll_cons. simpl concat.
  destruct (decide (x ∈ concat (map preorder ts))) as [Hin|Hout].
  - destruct (IH d (walk t d p) x Hin) as [[Hl Hd]|Hb].
    + left. split; [apply list_elem_of_further, Hl|exact Hd].
    + right. eapply below_weaken; [|exact Hb].
      intros y Hy. apply elem_of_app. auto.
  - simpl in Hx. apply elem_of_app in Hx as [Hx|Hx]; [|contradiction].
    destruct (Ht d p) as [Hroot Hrest].
    destruct t as [a ss]. cbn [label subtrees] in Hroot, Hrest.
    apply preorder_inv in Hx as [->|Hx].
    + left. split; [apply list_elem_of_here|].
      rewrite walkAll_depth_other by exact Hout. exact Hroot.
    + right.
      destruct (Hrest x) as (y & kids & dy & Hy & Hkids & Hxk & Hdy & Hdx).
      { apply elem_of_concat_map. exact Hx. }
      exists y, kids, dy. split; [apply elem_of_app; left; exact Hy|].
      split; [exact Hkids|]. split; [exact Hxk|].
      rewrite !walkAll_depth_other; auto.
      intros Hy'. apply Hout.
      apply elem_of_concat_map in Hy' as (t' & Ht' & Hy').
      apply elem_of_concat_map. exists t'. split; [exact Ht'|].
      rewrite Forall_forall in Hcts.
      eapply callTree_closed; eauto.
Qed.

(** After a call of [firstPass], the id of the call is at the depth it was
    given, and every other id the call met lies one level below one of the
    ids that have it as a visible child. *)
Lemma walk_levelled (t : tree) :
  isCallTree t -> forall d p, levelled t d (walk t d p).
Proof.
  induction t as [id kids IH] using tree_induction. intros Ht d p.
  pose proof (isCallTree_kids _ _ _ _ Ht) as [Hkids Hcts].
  assert (Hid : id ∉ concat (map preorder kids)).
  { intros (k & Hk & Hin)%elem_of_concat_map.
    eapply callTree_acyclic; eauto. }
  destruct kids as [|k ks].
  - split; [simpl; apply lookup_insert_eq|].
    intros x Hx. apply elem_of_nil in Hx. destruct Hx.
  - rewrite walk_parent. unfold levelled. simpl label. simpl subtrees.
    change (depth (placeParent ?a ?b ?c ?q)) with (depth q).
    assert (Hroot : depth (walkAll (k :: ks) (S d) (setDepth id d p)) !! id
                    = Some d).
    { rewrite walkAll_depth_other by exact Hid. simpl.
      apply lookup_insert_eq. }
    split; [exact Hroot|]. intros x Hx.
    assert (IH' : Forall (fun t => forall d p, levelled t d (walk t d p))
                         (k :: ks)).
    { rewrite Forall_forall in IH, Hcts |- *. intros t Hin. auto. }
    destruct (walkAll_levelled (k :: ks) Hcts IH' (S d) (setDepth id d p) x Hx)
      as [[Hl Hd]|Hb].
    + exists id, (map label (k :: ks)), d.
      split; [apply list_elem_of_here|]. auto.
    + eapply below_weaken; [|exact Hb].
      intros y Hy. apply list_elem_of_further, Hy.
Qed.

(** The visible children of an id of a call tree are one level below
    it. *)
Lemma levels_child (t : tree) :
  isCallTree t ->
  forall d y k kids x,
    (y, k) ∈ levels t d -> children y = Done kids -> x ∈ kids ->
    (x, S k) ∈ levels t d.
Proof.
  induction t as [id ts IH] using tree_induction.
  intros Ht d y k kids x Hy Hkids Hx.
  pose proof (isCallTree_kids _ _ _ _ Ht) as [Hid Hcts].
  change (levels (Tree id ts) d)
    with ((id, d) :: concat (map (fun t => levels t (S d)) ts)) in Hy |- *.
  apply list_elem_of_further, elem_of_concat_map.
  apply elem_of_cons in Hy as [Hy|Hy].
  - injection Hy as -> ->. rewrite Hid in Hkids. injection Hkids as <-.
    apply list_elem_of_fmap in Hx as (s & -> & Hs). exists s.
    split; [exact Hs|]. destruct s. apply list_elem_of_here.
  - apply elem_of_concat_map in Hy as (s & Hs & Hy). exists s.
    split; [exact Hs|]. rewrite Forall_forall in IH, Hcts. eapply IH; eauto.
Qed.

End Depths.

(** C6, amended. For every model and collapsed set on which the layout
    returns: the ids with a coordinate are exactly the ids of the visible
    set; the coordinates of a visible id are x = slot * (NODE_W + X_GAP),
    where no operation of the layout rounds, and y = depth * (NODE_H +
    Y_GAP), for the slot and the depth that the first pass left for it;
    the root has depth 0; and every other visible id has depth one more
    than one of the visible ids that have it as a visible child. When the
    first pass meets no id twice, every visible child has depth one more
    than its parent. *)
Theorem layout_coordinates (fuel : nat) (c : gset string) (m : model)
  (l : layout) :
  layoutTree fuel c m = Done l ->
  dom (coords l) = list_to_set (vis l) /\
  exists p, firstPass c (nodes m) fuel (root m) 0 emptyPass = Done p /\
    (forall id, id ∈ vis l ->
       exists slot d xy,
         xPosition p !! id = Some slot /\ depth p !! id = Some d /\
         coords l !! id = Some xy /\
         (exactLayout fuel c m = true ->
          (Coord.x xy == slot * (NODE_W + X_GAP))%Q) /\
         (Coord.y xy == ofNat d * (NODE_H + Y_GAP))%Q) /\
    depth p !! root m = Some 0 /\
    (forall id, id ∈ vis l -> id <> root m ->
       exists parent kids d,
         parent ∈ vis l /\ children c (nodes m) parent = Done kids /\
         id ∈ kids /\ depth p !! parent = Some d /\
         depth p !! id = Some (S d)) /\
    (forall t, callTree c (nodes m) fuel (root m) = Done t ->
       NoDup (preorder t) ->
       forall parent kids id,
         parent ∈ vis l -> children c (nodes m) parent = Done kids ->
         id ∈ kids ->
         exists d, depth p !! parent = Some d /\ depth p !! id = Some (S d)).
Proof.
  unfold layoutTree. intros H. pose proof H as H0.
  apply layoutFrom_facts in H as (t & Ht & Hp & Hnd & Hpre & _ & Hc & Hpl).
  split; [apply (layoutFrom_dom _ _ _ _ _ H0)|].
  exists (walk t 0 emptyPass). split; [exact Hp|].
  assert (Hct : isCallTree c (nodes m) t).
  { exists fuel. rewrite (callTree_label _ _ _ _ _ Ht). exact Ht. }
  pose proof (walk_levelled c (nodes m) t Hct 0 emptyPass) as [Hroot Hrest].
  rewrite (callTree_label _ _ _ _ _ Ht) in Hroot.
  split; [|split; [exact Hroot|split]].
  - intros id Hid. destruct (Hpl id Hid) as [[slot Hs] [d Hd]].
    exists slot, d, (coordOf (walk t 0 emptyPass) id).
    split; [exact Hs|]. split; [exact Hd|]. split.
    { rewrite Hc, bool_decide_eq_true_2 by exact Hid. reflexivity. }
    unfold coordOf. rewrite Hs, Hd. simpl.
    split; [intros _|]; apply Qred_correct.
  - intros id Hid Hne. apply Hpre in Hid.
    destruct t as [r ss]. pose proof (callTree_label _ _ _ _ _ Ht) as Hr.
    simpl in Hr. subst r.
    apply preorder_inv in Hid as [->|Hid]; [contradiction|].
    destruct (Hrest id) as (y & kids & d & Hy & Hk & Hin & Hdy & Hdx).
    { apply elem_of_concat_map. exact Hid. }
    exists y, kids, d. rewrite Hpre. auto.
  - intros t' Ht' Hstrict parent kids id Hparent Hkids Hid.
    rewrite Ht in Ht'. injection Ht' as <-.
    apply Hpre in Hparent. rewrite <- (levels_preorder t 0) in Hparent.
    apply list_elem_of_fmap in Hparent as ([y k] & -> & Hy). simpl in Hkids.
    exists k. split; [apply walk_levels; assumption|].
    apply walk_levels; [assumption|].
    eapply levels_child; eauto.
Qed.

Lemma layout_coordinates_witness :
  layoutTree 3 ∅ treeModel = Done treeLayout /\
  exactLayout 3 ∅ treeModel = true /\
  dom (coords treeLayout) = list_to_set (vis treeLayout) /\
  firstPass ∅ (nodes treeModel) 3 "R" 0 emptyPass = Done treePass /\
  (forall id, id ∈ vis treeLayout ->
     exists slot d xy,
       xPosition treePass !! id = Some slot /\
       depth treePass !! id = Some d /\
       coords treeLayout !! id = Some xy /\
       (Coord.x xy == slot * (NODE_W + X_GAP))%Q /\
       (Coord.y xy == ofNat d * (NODE_H + Y_GAP))%Q) /\
  depth treePass !! "R" = Some 0 /\
  (forall id, id ∈ vis treeLayout -> id <> "R" ->
     exists parent kids d,
       parent ∈ vis treeLayout /\
       children ∅ (nodes treeModel) parent = Done kids /\
       id ∈ kids /\ depth treePass !! parent = Some d /\
       depth treePass !! id = Some (S d)) /\
  NoDup (preorder treeCalls) /\
  (forall parent kids id,
     parent ∈ vis treeLayout ->
     children ∅ (nodes treeModel) parent = Done kids ->
     id ∈ kids ->
     exists d,
       depth treePass !! parent = Some d /\ depth treePass !! id = Some (S d)).
Proof.
  assert (Hl : layoutTree 3 ∅ treeModel = Done treeLayout)
    by (vm_compute; reflexivity).
  assert (Hp : firstPass ∅ (nodes treeModel) 3 "R" 0 emptyPass = Done treePass)
    by (vm_compute; reflexivity).
  assert (Hnd : NoDup (preorder treeCalls))
    by (apply (bool_decide_unpack _); vm_compute; exact I).
  destruct (layout_coordinates 3 ∅ treeModel treeLayout Hl)
    as (Hdom & p & Hp' & Hxy & Hroot & Hbelow & Htree).
  change (root treeModel) with "R" in *.
  rewrite Hp in Hp'. injection Hp' as <-.
  split; [exact Hl|]. split; [reflexivity|]. split; [exact Hdom|].
  split; [exact Hp|]. split; [|split; [exact Hroot|]].
  { intros id Hid.
    destruct (Hxy id Hid) as (slot & d & xy & Hs & Hd & Hc & Hx & Hy).
    exists slot, d, xy. split; [exact Hs|]. split; [exact Hd|].
    split; [exact Hc|]. split; [exact (Hx eq_refl)|exact Hy]. }
  split; [exact Hbelow|]. split; [exact Hnd|].
  exact (Htree treeCalls eq_refl Hnd).
Defined.

(** C6 as it was stated fails where an id has two visible parents: in
    [dagModel] the first pass reaches B below A, at depth 2, and then again
    below R, at depth 1, which is the depth that stays. B is a visible
    child of A, and both end at depth 1, with the same y. *)
Lemma layout_coordinates_counterexample :
  parse dagText = Ok dagModel /\
  layoutTree 3 ∅ dagModel = Done dagLayout /\
  children ∅ (nodes dagModel) "A" = Done ["B"] /\
  (exists p, firstPass ∅ (nodes dagModel) 3 "R" 0 emptyPass = Done p /\
     depth p !! "A" = Some 1 /\ depth p !! "B" = Some 1) /\
  coords dagLayout !! "A" = Some (Coord.make 0 126) /\
  coords dagLayout !! "B" = Some (Coord.make 166 126).
Proof.
  split; [reflexivity|]. split; [vm_compute; reflexivity|].
  split; [reflexivity|]. split; [|split; reflexivity].
  eexists. split; [vm_compute; reflexivity|]. split; reflexivity.
Qed.

(** ** The input handler (C9, C7) *)

Lemma forEach_invariant {A S : Type} (I : S -> Prop)
  (body : A -> S -> outcome S) (l : list A) :
  (forall a s s', body a s = Done s' -> I s -> I s') ->
  forall s s', forEach body l s = Done s' -> I s -> I s'.
Proof.
  intros Hbody. induction l as [|a l IH]; intros s s'; simpl.
  - intros [= <-]. auto.
  - rewrite bind_Done. intros (s1 & H1 & H2) Hs. eauto.
Qed.

(** [render] draws, and touches neither the collapse set nor the status
    line. *)
Lemma render_keeps (fuel : nat) (m : model) (p p' : page) :
  render fuel m p = Done p' ->
  collapsed p' = collapsed p /\ currentModel p' = Some m /\
  status p' = status p.
Proof.
  unfold render. rewrite bind_Done. intros (l & _ & H).
  apply bind_Done in H as (p1 & H1 & H2).
  set (I := fun q : page =>
    collapsed q = collapsed p /\ currentModel q = Some m /\ status q = status p).
  assert (Hdraw : forall s q, I q -> I (draw s q)) by (intros s q Hq; exact Hq).
  assert (I p1) as Hp1.
  { eapply (forEach_invariant I); [|exact H1|repeat split].
    intros id q q' Hq. apply bind_Done in Hq as (s & _ & [= <-]). auto. }
  eapply (forEach_invariant I); [|exact H2|exact Hp1].
  intros id q q' Hq. apply bind_Done in Hq as (s & _ & [= <-]). auto.
Qed.

(** What [render] draws depends on the page through the collapse set and
    the status line alone. *)
Lemma render_ext (fuel : nat) (m : model) (p q : page) :
  collapsed p = collapsed q -> status p = status q ->
  render fuel m p = render fuel m q.
Proof. intros Hc Hs. unfold render. rewrite Hc, Hs. reflexivity. Qed.

Lemma mergeCollapseState_idem (s : gset string) (nodes : Js.object Node.t) :
  mergeCollapseState (mergeCollapseState s nodes) nodes
  = mergeCollapseState s nodes.
Proof.
  unfold mergeCollapseState. apply set_eq. intros x.
  rewrite !elem_of_filter. tauto.
Qed.

(** C9. When [parse] returns an error, [onInput] returns with the collapse
    set as it found it (it only sets the status line and clears the
    drawing); [mergeCollapseState] runs on a successful parse only, where
    the collapse set that [onInput] leaves is the old one pruned to the ids
    of the new model. (When [parse] throws, the handler ends with it.) *)
Theorem onInput_error_keeps_collapsed (fuel : nat) (text : string) (p : page) :
  (forall e, parse text = Failed e ->
     exists p', onInput fuel text p = Done p' /\
       collapsed p' = collapsed p /\
       status p' = (false, errorText e) /\ svg p' = []) /\
  (forall m p', parse text = Ok m -> onInput fuel text p = Done p' ->
     collapsed p' = mergeCollapseState (collapsed p) (nodes m)) /\
  (parse text = Thrown -> onInput fuel text p = TypeError).
Proof.
  split; [|split].
  - intros e He. unfold onInput. rewrite He. eexists. split; [reflexivity|].
    repeat split.
  - intros m p' Hm. unfold onInput. rewrite Hm. intros H.
    apply render_keeps in H as (H & _). exact H.
  - intros Ht. unfold onInput. rewrite Ht. reflexivity.
Qed.

Lemma onInput_error_keeps_collapsed_witness :
  (exists p', onInput 3 staleText somePage = Done p' /\
     collapsed p' = {["A"; "Z"]} /\
     status p' = (false, errorText (UnknownNodeTo 3 "C")) /\ svg p' = []) /\
  (exists p', onInput 3 freshText somePage = Done p' /\
     collapsed p' = {["A"]}).
Proof.
  split.
  - apply (proj1 (onInput_error_keeps_collapsed 3 staleText somePage)).
    reflexivity.
  - pose proof (proj1 (proj2 (onInput_error_keeps_collapsed 3 freshText
                                somePage))) as T.
    destruct (onInput 3 freshText somePage) as [p'| |] eqn:H;
      [|vm_compute in H; discriminate..].
    exists p'. split; [reflexivity|].
    rewrite (T _ p' eq_refl eq_refl). vm_compute. reflexivity.
Defined.

Lemma depthFirstSearch_mono (collapsed : gset string)
  (nodes : Js.object Node.t) (fuel : nat) :
  forall fuel' id vis vis', fuel <= fuel' ->
    depthFirstSearch collapsed nodes fuel id vis = Done vis' ->
    depthFirstSearch collapsed nodes fuel' id vis = Done vis'.
Proof.
  induction fuel as [|fuel IH]; intros fuel' id vis vis' Hle; [discriminate|].
  destruct fuel' as [|fuel']; [lia|]. simpl.
  case_bool_decide; [auto|].
  destruct (children collapsed nodes id) as [kids| |]; simpl; [|auto..].
  generalize (vis ++ [id]). induction kids as [|k kids IHk]; intros v; simpl;
    [auto|].
  destruct (depthFirstSearch collapsed nodes fuel k v) as [v1| |] eqn:E;
    simpl; [|discriminate..].
  rewrite (IH fuel' k v v1) by (auto; lia). simpl. apply IHk.
Qed.

(** The layout does not depend on how much stack is left. *)
Lemma layoutTree_fuel (fuel fuel' : nat) (c : gset string) (m : model)
  (l l' : layout) :
  layoutTree fuel c m = Done l -> layoutTree fuel' c m = Done l' -> l = l'.
Proof.
  unfold layoutTree. intros H H'.
  apply layoutFrom_Done in H as (t & Ht & Hv & Hc).
  apply layoutFrom_Done in H' as (t' & Ht' & Hv' & Hc').
  pose proof (callTree_det _ _ _ _ _ _ _ Ht Ht') as <-.
  apply (depthFirstSearch_mono _ _ _ (Nat.max fuel fuel')) in Hv; [|lia].
  apply (depthFirstSearch_mono _ _ _ (Nat.max fuel fuel')) in Hv'; [|lia].
  rewrite Hv in Hv'. injection Hv' as Hvis.
  destruct l as [cs vs], l' as [cs' vs']. simpl in *. congruence.
Qed.

(** C7. [parse] depends on its text alone, the layout on the model and the
    collapse set alone: a layout that is returned is the same on every
    call, however much stack the call has; the drawing that [onInput]
    leaves depends on the earlier page through its collapse set only; and
    handling the same text again changes nothing at all, coordinates
    included. *)
Theorem layout_deterministic (fuel fuel' : nat) (text : string) :
  (forall c m l l',
     parse text = Ok m ->
     layoutTree fuel c m = Done l -> layoutTree fuel' c m = Done l' ->
     l = l') /\
  (forall p q p' q',
     collapsed p = collapsed q ->
     onInput fuel text p = Done p' -> onInput fuel text q = Done q' ->
     svg p' = svg q' /\ collapsed p' = collapsed q' /\ status p' = status q') /\
  (forall p p',
     onInput fuel text p = Done p' -> onInput fuel text p' = Done p').
Proof.
  split; [|split].
  - intros c m l l' _. apply layoutTree_fuel.
  - intros p q p' q' Hc. unfold onInput.
    destruct (parse text) as [m|e|]; [| |discriminate].
    + match goal with
      | |- render fuel m ?P = _ -> render fuel m ?Q = _ -> _ =>
        rewrite (render_ext fuel m P Q) by (simpl; rewrite ?Hc; reflexivity)
      end.
      intros -> [= ->]. auto.
    + intros [= <-] [= <-]. simpl. auto.
  - intros p p'. unfold onInput.
    destruct (parse text) as [m|e|]; [| |discriminate].
    + intros H. pose proof (render_keeps _ _ _ _ H) as (Hc & Hm & Hs).
      simpl in Hc, Hs. rewrite <- H. apply render_ext; simpl.
      * rewrite Hc. apply mergeCollapseState_idem.
      * reflexivity.
    + intros [= <-]. reflexivity.
Qed.

Lemma layout_deterministic_witness :
  (exists l, layoutTree 9 ∅ treeModel = Done l /\ treeLayout = l) /\
  (exists p', onInput 4 treeText somePage = Done p' /\
     onInput 4 treeText p' = Done p').
Proof.
  split.
  - destruct (layoutTree 9 ∅ treeModel) as [l| |] eqn:H;
      [|vm_compute in H; discriminate..].
    exists l. split; [reflexivity|].
    apply (proj1 (layout_deterministic 3 9 treeText) ∅ treeModel treeLayout l);
      [reflexivity|vm_compute; reflexivity|exact H].
  - destruct (onInput 4 treeText somePage) as [p'| |] eqn:H;
      [|vm_compute in H; discriminate..].
    exists p'. split; [reflexivity|].
    exact (proj2 (proj2 (layout_deterministic 4 4 treeText)) somePage p' H).
Defined.

(** ** Chains (C8) *)









(** ** Leaves of a strict tree (C10) *)

(** C10, amended. When the calls of the first pass from the root meet no
    id twice (no visible id is reached along two paths, an edge that is
    written twice making two), the layout returns, and the slots of the
    visible leaves are 0, 1, ..., k - 1 in the order in which the first
    pass reaches them, k being their number; the leaf with slot i has its
    box at x = i * (NODE_W + X_GAP), so two different visible leaves never
    have the same x. *)
Theorem leaf_slots (fuel : nat) (c : gset string) (m : model) (t : tree) :
  callTree c (nodes m) fuel (root m) = Done t ->
  NoDup (preorder t) ->
  exists l p,
    layoutTree fuel c m = Done l /\
    firstPass c (nodes m) fuel (root m) 0 emptyPass = Done p /\
    (forall x, x ∈ leaves t <->
               x ∈ vis l /\ children c (nodes m) x = Done []) /\
    NoDup (leaves t) /\
    (forall i x, leaves t !! i = Some x ->
       xPosition p !! x = Some (ofNat i) /\
       exists xy,
         coords l !! x = Some xy /\
         (Coord.x xy == ofNat i * (NODE_W + X_GAP))%Q) /\
    xPositionNext p = length (leaves t) /\
    (forall a b,
       a ∈ leaves t -> b ∈ leaves t -> a <> b ->
       exists ca cb,
         coords l !! a = Some ca /\ coords l !! b = Some cb /\
         ~ (Coord.x ca == Coord.x cb)%Q).
Proof.
  intros Ht Hnd.
  destruct (layoutFrom_total _ _ _ _ _ Ht) as (v & _ & Hl).
  eexists. exists (walk t 0 emptyPass). split; [exact Hl|].
  apply layoutFrom_facts in Hl as (t' & Ht' & Hp & _ & Hpre & _ & Hc & _).
  rewrite Ht in Ht'. injection Ht' as <-.
  set (l := {| coords := _; vis := v |}) in *.
  assert (Hct : isCallTree c (nodes m) t).
  { exists fuel. rewrite (callTree_label _ _ _ _ _ Ht). exact Ht. }
  assert (Hslots : forall i x, leaves t !! i = Some x ->
            xPosition (walk t 0 emptyPass) !! x = Some (ofNat i)).
  { intros i x Hi. apply (walk_leaf_slots t Hnd 0 emptyPass i x Hi). }
  assert (Hat : forall x, x ∈ leaves t ->
            coords l !! x = Some (coordOf (walk t 0 emptyPass) x)).
  { intros x Hx. rewrite Hc, bool_decide_eq_true_2; [reflexivity|].
    apply Hpre, leaves_preorder, Hx. }
  split; [exact Hp|]. split; [|split; [apply leaves_NoDup, Hnd|]].
  { intros x. rewrite (leaves_children _ _ _ Hct), Hpre. reflexivity. }
  split; [|split; [apply walk_next|]].
  - intros i x Hi. split; [apply Hslots, Hi|]. eexists.
    split; [apply Hat; eapply list_elem_of_lookup_2, Hi|].
    unfold coordOf. simpl. rewrite (Hslots i x Hi). apply Qred_correct.
  - intros a b Ha Hb Hne. eexists. eexists.
    split; [apply Hat, Ha|]. split; [apply Hat, Hb|].
    apply list_elem_of_lookup_1 in Ha as [i Hi], Hb as [j Hj].
    unfold coordOf. simpl. rewrite (Hslots i a Hi), (Hslots j b Hj). simpl.
    intros E. apply slot_distinct in E. subst j.
    rewrite Hi in Hj. congruence.
Qed.

Lemma leaf_slots_witness :
  callTree ∅ (nodes treeModel) 3 "R" = Done treeCalls /\
  NoDup (preorder treeCalls) /\
  exists l p,
    layoutTree 3 ∅ treeModel = Done l /\
    firstPass ∅ (nodes treeModel) 3 "R" 0 emptyPass = Done p /\
    (forall x, x ∈ ["C"; "B"] <->
               x ∈ vis l /\ children ∅ (nodes treeModel) x = Done []) /\
    NoDup ["C"; "B"] /\
    (forall i x, ["C"; "B"] !! i = Some x ->
       xPosition p !! x = Some (ofNat i) /\
       exists xy,
         coords l !! x = Some xy /\
         (Coord.x xy == ofNat i * (NODE_W + X_GAP))%Q) /\
    xPositionNext p = 2 /\
    (forall a b,
       a ∈ ["C"; "B"] -> b ∈ ["C"; "B"] -> a <> b ->
       exists ca cb,
         coords l !! a = Some ca /\ coords l !! b = Some cb /\
         ~ (Coord.x ca == Coord.x cb)%Q).
Proof.
  assert (Hnd : NoDup (preorder treeCalls))
    by (apply (bool_decide_unpack _); vm_compute; exact I).
  assert (Ht : callTree ∅ (nodes treeModel) 3 "R" = Done treeCalls)
    by reflexivity.
  split; [exact Ht|]. split; [exact Hnd|].
  apply (leaf_slots 3 ∅ treeModel treeCalls Ht Hnd).
Defined.

(** C10 as it was stated fails for an edge that is written twice. In the
    model of [doubledText] every visible id is reached along one path
    only, A and then B; the first pass calls B twice all the same, and
    the one visible leaf ends at slot 1, not 0. *)
Lemma leaf_slots_counterexample :
  exists m l p,
    parse doubledText = Ok m /\ root m = "A" /\
    (forall π π',
       visiblePath ∅ (nodes m) ("A" :: π) ->
       visiblePath ∅ (nodes m) ("A" :: π') ->
       last ("A" :: π) = last ("A" :: π') -> π = π') /\
    layoutTree 2 ∅ m = Done l /\ vis l = ["A"; "B"] /\
    children ∅ (nodes m) "A" = Done ["B"; "B"] /\
    children ∅ (nodes m) "B" = Done [] /\
    firstPass ∅ (nodes m) 2 "A" 0 emptyPass = Done p /\
    xPosition p !! "B" = Some 1%Q /\ xPositionNext p = 2 /\
    coords l !! "B" = Some (Coord.make 166 126).
Proof.
  eexists. eexists. eexists. split; [reflexivity|]. split; [reflexivity|].
  split.
  { assert (Hpaths : forall π,
              visiblePath ∅
                (nodes {| nodes := [("A", Node.make "A" "a" ["B"; "B"]);
                                    ("B", Node.make "B" "b" [])];
                          edges := [{| from := "A"; to := "B"; line := 3 |};
                                    {| from := "A"; to := "B"; line := 4 |}];
                          root := "A" |}) ("A" :: π) ->
              π = [] \/ π = ["B"]).
    { intros π H. inversion H as [|a b π1 kids Hk Hb H1]; subst; [auto|].
      right. vm_compute in Hk. injection Hk as <-.
      assert (b = "B") as ->.
      { repeat (apply elem_of_cons in Hb as [->|Hb]; [reflexivity|]).
        apply elem_of_nil in Hb. destruct Hb. }
      inversion H1 as [|a' b' π2 kids' Hk' Hb' H2]; subst; [reflexivity|].
      vm_compute in Hk'. injection Hk' as <-.
      apply elem_of_nil in Hb'. destruct Hb'. }
    intros π π' H H' E.
    destruct (Hpaths π H) as [->| ->], (Hpaths π' H') as [->| ->];
      try reflexivity; discriminate. }
  split; [vm_compute; reflexivity|]. split; [reflexivity|].
  split; [reflexivity|]. split; [reflexivity|].
  split; [vm_compute; reflexivity|]. split; [reflexivity|].
  split; reflexivity.
Qed.

(** An edge that is written twice makes the first pass call its target
    twice: such a model is no tree in the sense above, and its only leaf
    ends at slot 1. *)
Example doubled_edge_slots :
  exists m p,
    parse doubledText = Ok m /\
    callTree ∅ (nodes m) 2 "A" = Done (Tree "A" [Tree "B" []; Tree "B" []]) /\
    firstPass ∅ (nodes m) 2 "A" 0 emptyPass = Done p /\
    xPosition p !! "B" = Some 1%Q /\ xPositionNext p = 2.
Proof.
  eexists. eexists. split; [reflexivity|]. split; [reflexivity|].
  split; [vm_compute; reflexivity|]. split; reflexivity.
Qed.

(** * Further properties *)

(** ** The model that [parse] returns *)

Lemma own_app {V : Type} (o o' : Js.object V) (k : string) :
  Js.own (o ++ o') k =
  match Js.own o k with Some v => Some v | None => Js.own o' k end.
Proof.
  induction o as [|[k' v] o IH]; simpl; [reflexivity|].
  destruct (String.eqb k' k); [reflexivity|apply IH].
Qed.

Lemma own_None {V : Type} (o : Js.object V) (k : string) :
  Js.own o k = None <-> k ∉ map fst o.
Proof.
  induction o as [|[k' v] o IH]; simpl.
  - split; [intros _; apply not_elem_of_nil|reflexivity].
  - rewrite not_elem_of_cons. destruct (String.eqb k' k) eqn:E.
    + apply String.eqb_eq in E. split; [discriminate|]. intros [H _].
      congruence.
    + apply String.eqb_neq in E. rewrite IH. split; [|tauto].
      intros H. split; [congruence|exact H].
Qed.

Lemma falsy_get {V : Type} (o : Js.object V) (k : string) :
  Js.truthy (Js.get o k) = false <->
  (k ∉ map fst o) /\ (k ∉ Js.objectPrototype).
Proof.
  unfold Js.get. rewrite <- own_None.
  destruct (Js.own o k); simpl.
  - split; [discriminate|]. intros [H _]. discriminate.
  - case_bool_decide; simpl; split; try discriminate; try tauto.
Qed.

Lemma truthy_get {V : Type} (o : Js.object V) (k : string) :
  Js.truthy (Js.get o k) = true <->
  k ∈ map fst o \/ k ∈ Js.objectPrototype.
Proof.
  destruct (Js.truthy (Js.get o k)) eqn:E.
  - split; [intros _|reflexivity].
    destruct (decide (k ∈ map fst o)) as [|Hn]; [left; assumption|].
    destruct (decide (k ∈ Js.objectPrototype)) as [|Hp]; [right; assumption|].
    assert (Js.truthy (Js.get o k) = false) by (apply falsy_get; tauto).
    congruence.
  - apply falsy_get in E as [H1 H2]. split; [discriminate|tauto].
Qed.

(** What one line of the text adds to [nodes] and [edges]. *)
Lemma scanLine_Ok (n : nat) (raw : string) (nodes nodes' : Js.object Node.t)
  (edges edges' : list edge) :
  scanLine n raw nodes edges = Ok (nodes', edges') ->
  (nodes' = nodes /\ declaredId raw = None \/
   exists id title,
     Js.match2 Js.nodePattern (Js.trim raw) = Some (id, title) /\
     declaredId raw = Some id /\
     Js.truthy (Js.get nodes id) = false /\
     nodes' = nodes ++ [(id, Node.make id (Js.orElse title id) [])]) /\
  (edges' = edges /\ declaredEdge raw = None \/
   exists a b,
     declaredEdge raw = Some (a, b) /\
     edges' = edges ++ [{| from := a; to := b; line := n |}]).
Proof.
  unfold scanLine, declaredId, declaredEdge.
  destruct (Js.isEmpty (Js.trim raw)).
  { intros [= <- <-]. split; left; split; reflexivity. }
  destruct (Js.startsWith (Js.trim raw) "node ").
  { destruct (Js.match2 Js.nodePattern (Js.trim raw)) as [[id title]|];
      [|discriminate].
    destruct (Js.truthy (Js.get nodes id)) eqn:E; [discriminate|].
    intros [= <- <-]. split; [right|left; split; reflexivity].
    exists id, title. repeat split; auto. }
  destruct (Js.startsWith (Js.trim raw) "edge "); [|discriminate].
  destruct (Js.match2 Js.edgePattern (Js.trim raw)) as [[a b]|];
    [|discriminate].
  intros [= <- <-]. split; [left; split; reflexivity|right].
  exists a, b. split; reflexivity.
Qed.

Lemma created_weaken (lines lines' : list string)
  (nodes nodes' : Js.object Node.t) (p : string * Node.t) :
  (forall raw, raw ∈ lines -> raw ∈ lines') ->
  (forall k, Js.truthy (Js.get nodes k) = false ->
             Js.truthy (Js.get nodes' k) = false) ->
  created lines nodes p -> created lines' nodes' p.
Proof.
  intros Hl Hn (raw & title & H1 & H2 & H3 & H4).
  exists raw, title. auto.
Qed.

Lemma scan_Ok (lines : list string) :
  forall n nodes edges nodes' edges',
    scan lines n nodes edges = Ok (nodes', edges') ->
    exists newNodes newEdges,
      nodes' = nodes ++ newNodes /\ edges' = edges ++ newEdges /\
      map fst newNodes = omap declaredId lines /\
      map (fun e => (from e, to e)) newEdges = omap declaredEdge lines /\
      NoDup (map fst newNodes) /\
      Forall (created lines nodes) newNodes /\
      Forall (recorded lines n) newEdges.
Proof.
  induction lines as [|raw lines IH]; intros n nodes edges nodes' edges'; simpl.
  - intros [= <- <-]. exists [], []. rewrite !app_nil_r.
    repeat split; auto using NoDup_nil_2.
  - destruct (scanLine (S n) raw nodes edges) as [[nodes1 edges1]| |] eqn:E;
      [|discriminate..].
    intros H.
    apply IH in H as (ns & es & -> & -> & Hids & Hes & Hnd & Hns & Hrec).
    assert (Hrec' : Forall (recorded (raw :: lines) n) es).
    { eapply Forall_impl; [exact Hrec|]. intros e (i & r & Hi & Hl & Hd).
      exists (S i), r. repeat split; auto. rewrite Hl. lia. }
    apply scanLine_Ok in E as [HN HE].
    assert (exists e0, edges1 = edges ++ e0 /\
              map (fun e => (from e, to e)) e0 = option_list (declaredEdge raw)
              /\ Forall (recorded (raw :: lines) n) e0) as (e0 & -> & He0 & Hr0).
    { destruct HE as [[-> Hd]|(a & b & Hd & ->)].
      - exists []. rewrite app_nil_r, Hd. repeat split; auto.
      - eexists. split; [reflexivity|]. rewrite Hd. split; [reflexivity|].
        apply List.Forall_cons; [|apply List.Forall_nil].
        exists 0, raw. simpl. repeat split; auto. lia. }
    destruct HN as [[-> Hd]|(id & title & Hm & Hd & Hfalsy & ->)].
    + exists ns, (e0 ++ es). rewrite Hd, <- app_assoc. simpl.
      repeat split; auto.
      * rewrite map_app, He0, Hes. destruct (declaredEdge raw); reflexivity.
      * eapply Forall_impl; [exact Hns|]. intros p.
        apply created_weaken; auto. intros r Hr.
        apply list_elem_of_further, Hr.
      * apply Forall_app; auto.
    + exists ((id, Node.make id (Js.orElse title id) []) :: ns), (e0 ++ es).
      rewrite Hd, <- !app_assoc. simpl.
      assert (Hold : forall k,
                Js.truthy (Js.get
                  (nodes ++ [(id, Node.make id (Js.orElse title id) [])]) k)
                = false ->
                Js.truthy (Js.get nodes k) = false /\ k <> id).
      { intros k Hk. apply falsy_get in Hk as [Hk Hp].
        rewrite map_app, not_elem_of_app in Hk. destruct Hk as [Hk1 Hk2].
        split; [apply falsy_get; auto|].
        intros ->. apply Hk2. simpl. apply list_elem_of_here. }
      repeat split; auto.
      * rewrite Hids. reflexivity.
      * rewrite map_app, He0, Hes. destruct (declaredEdge raw); reflexivity.
      * apply NoDup_cons. split; [|exact Hnd].
        intros Hin. apply list_elem_of_fmap in Hin as (p & Hp & Hin).
        rewrite Forall_forall in Hns.
        destruct (Hns p Hin) as (r & t & _ & _ & _ & Hf).
        apply Hold in Hf as [_ Hf]. congruence.
      * apply List.Forall_cons.
        -- exists raw, title. simpl. repeat split; auto.
           apply list_elem_of_here.
        -- eapply Forall_impl; [exact Hns|]. intros p.
           apply created_weaken; [|intros k Hk; apply Hold, Hk].
           intros r Hr. apply list_elem_of_further, Hr.
      * apply Forall_app; auto.
Qed.

Lemma push_eta (n : Node.t) :
  Node.make (Node.id n) (Node.title n) (Node.children n ++ []) = n.
Proof. destruct n. simpl. rewrite app_nil_r. reflexivity. Qed.

(** The second loop leaves every node its key, id and title, and appends
    to its children the targets of the edges that start at its key. *)
Lemma link_linked (pending : list edge) :
  forall nodes nodes', link pending nodes = Ok nodes' ->
    nodes' = map (linked pending) nodes.
Proof.
  induction pending as [|e rest IH]; intros nodes nodes'; simpl.
  - intros [= <-]. symmetry. rewrite <- (map_id nodes) at 2.
    apply map_ext. intros [k n]. unfold linked. simpl.
    rewrite push_eta. reflexivity.
  - destruct (negb (Js.truthy (Js.get nodes (from e)))); [discriminate|].
    destruct (negb (Js.truthy (Js.get nodes (to e)))); [discriminate|].
    destruct (Js.get nodes (from e)); [|discriminate..].
    intros H. apply IH in H. rewrite H. unfold pushChild.
    rewrite map_map. apply map_ext. intros [k n]. unfold linked. simpl.
    destruct (String.eqb k (from e)); simpl; [|reflexivity].
    rewrite <- app_assoc. reflexivity.
Qed.

Lemma own_NoDup {V : Type} (o : Js.object V) (k : string) (v : V) :
  NoDup (map fst o) -> (k, v) ∈ o -> Js.own o k = Some v.
Proof.
  induction o as [|[k' v'] o IH]; simpl; intros Hnd Hin.
  - apply elem_of_nil in Hin. destruct Hin.
  - apply NoDup_cons in Hnd as [Hk Hnd].
    apply elem_of_cons in Hin as [[= <- <-]|Hin].
    + rewrite String.eqb_refl. reflexivity.
    + destruct (String.eqb k' k) eqn:E; [|apply IH; assumption].
      apply String.eqb_eq in E. subst k'. exfalso. apply Hk.
      apply list_elem_of_fmap. exists (k, v). split; [reflexivity|assumption].
Qed.

Lemma orElse_nonempty (a b : string) :
  b <> EmptyString -> Js.orElse a b <> EmptyString.
Proof.
  unfold Js.orElse. destruct a; simpl; [auto|discriminate].
Qed.

Lemma map_fst_linked (pending : list edge) (nodes : Js.object Node.t) :
  map fst (map (linked pending) nodes) = map fst nodes.
Proof. rewrite map_map. apply map_ext. intros [k n]. reflexivity. Qed.

(** The parts of a model that parsed, in terms of the text. *)
Lemma parse_parts (text : string) (m : model) :
  parse text = Ok m ->
  exists scanned,
    nodes m = map (linked (edges m)) scanned /\
    map fst scanned = declared text /\
    map (fun e => (from e, to e)) (edges m)
    = omap declaredEdge (Js.split text) /\
    NoDup (map fst scanned) /\
    Forall (created (Js.split text) []) scanned /\
    Forall (recorded (Js.split text) 0) (edges m) /\
    Forall (linkable scanned) (edges m).
Proof.
  intros H. apply parse_Ok in H as (scanned & Hscan & Hlink & _).
  exists scanned.
  apply scan_Ok in Hscan as (ns & es & Hns & Hes & Hids & Hpairs & Hnd & Hc & Hr).
  simpl in Hns, Hes. subst ns es.
  split; [apply link_linked, Hlink|]. split; [exact Hids|].
  split; [exact Hpairs|]. split; [exact Hnd|]. split; [exact Hc|].
  split; [exact Hr|]. eapply link_Ok, Hlink.
Qed.

(** X1. In a model that parsed, the keys of [nodes] are pairwise
    distinct, none is empty and none is a name that every object inherits;
    reading [nodes] at a key gives the node stored under it, which has
    that key as its [id] and a title that is not empty: the title of a
    node line that declares the key, or the key itself where that title
    is empty. *)
Theorem parse_nodes (text : string) (m : model) :
  parse text = Ok m ->
  NoDup (map fst (nodes m)) /\
  Forall (fun p =>
      Js.own (nodes m) p.1 = Some p.2 /\
      Node.id p.2 = p.1 /\ p.1 <> EmptyString /\
      (p.1 ∉ Js.objectPrototype) /\
      Node.title p.2 <> EmptyString /\
      exists raw title,
        raw ∈ Js.split text /\
        Js.match2 Js.nodePattern (Js.trim raw) = Some (p.1, title) /\
        Node.title p.2 = Js.orElse title p.1)
    (nodes m).
Proof.
  intros H.
  apply parse_parts in H as (scanned & Hn & Hids & _ & Hnd & Hc & _ & _).
  assert (Hnd' : NoDup (map fst (nodes m))).
  { rewrite Hn, map_fst_linked. exact Hnd. }
  split; [exact Hnd'|].
  apply Forall_forall. intros p Hp. split.
  { apply own_NoDup; [exact Hnd'|]. destruct p. exact Hp. }
  rewrite Hn in Hp. apply list_elem_of_fmap in Hp as (q & -> & Hq).
  rewrite Forall_forall in Hc.
  destruct (Hc q Hq) as (raw & title & Hraw & Hm & Hq2 & Hfalsy).
  destruct q as [k n]. simpl in *. subst n. simpl.
  assert (Hk : k <> EmptyString) by (eapply nodePattern_id; exact Hm).
  split; [reflexivity|]. split; [exact Hk|].
  split; [apply falsy_get in Hfalsy; tauto|].
  split; [apply orElse_nonempty, Hk|].
  exists raw, title. auto.
Qed.

Lemma parse_nodes_witness :
  NoDup (map fst (nodes treeModel)) /\
  Forall (fun p =>
      Js.own (nodes treeModel) p.1 = Some p.2 /\
      Node.id p.2 = p.1 /\ p.1 <> EmptyString /\
      (p.1 ∉ Js.objectPrototype) /\
      Node.title p.2 <> EmptyString /\
      exists raw title,
        raw ∈ Js.split treeText /\
        Js.match2 Js.nodePattern (Js.trim raw) = Some (p.1, title) /\
        Node.title p.2 = Js.orElse title p.1)
    (nodes treeModel).
Proof. apply (parse_nodes treeText treeModel). reflexivity. Defined.

(** X2. In a model that parsed, the children of the node under a key are
    the targets of the edges that start at that key, in the order of the
    edge list (so a target is there once for every edge that names it). *)
Theorem parse_children (text : string) (m : model) (id : string) (n : Node.t) :
  parse text = Ok m ->
  Js.own (nodes m) id = Some n ->
  Node.children n
  = map to (List.filter (fun e => String.eqb id (from e)) (edges m)).
Proof.
  intros H Hown. pose proof H as Hparts.
  apply parse_parts in Hparts as (scanned & Hn & _ & _ & _ & Hc & _ & _).
  apply own_elem_of in Hown. rewrite Hn in Hown.
  apply list_elem_of_fmap in Hown as (q & Hq & Hin).
  rewrite Forall_forall in Hc.
  destruct (Hc q Hin) as (raw & title & _ & _ & Hq2 & _).
  destruct q as [k n']. simpl in *. subst n'.
  unfold linked in Hq. simpl in Hq. injection Hq as -> ->. reflexivity.
Qed.

Lemma parse_children_witness :
  Node.children (Node.make "R" "root" ["A"; "B"])
  = map to (List.filter (fun e => String.eqb "R" (from e)) (edges treeModel)).
Proof.
  apply (parse_children treeText treeModel "R"); reflexivity.
Defined.

(** X3. In a model that parsed, the edge list is the list of the edge
    lines of the text, in their order; every edge carries the number of
    its line, starts at a key of [nodes], and ends at a key of [nodes] or
    at a name that every object inherits. *)
Theorem parse_edges (text : string) (m : model) :
  parse text = Ok m ->
  map (fun e => (from e, to e)) (edges m)
  = omap declaredEdge (Js.split text) /\
  Forall (fun e =>
      is_Some (Js.own (nodes m) (from e)) /\
      (is_Some (Js.own (nodes m) (to e)) \/ to e ∈ Js.objectPrototype) /\
      1 <= line e <= length (Js.split text) /\
      exists raw,
        Js.split text !! pred (line e) = Some raw /\
        declaredEdge raw = Some (from e, to e))
    (edges m).
Proof.
  intros H.
  apply parse_parts in H as (scanned & Hn & _ & Hpairs & _ & _ & Hr & Hl).
  split; [exact Hpairs|].
  assert (Hkeys : map fst (nodes m) = map fst scanned).
  { rewrite Hn. apply map_fst_linked. }
  apply Forall_forall. intros e He.
  rewrite Forall_forall in Hr, Hl.
  destruct (Hr e He) as (i & raw & Hi & Hline & Hd).
  destruct (Hl e He) as [Hfrom Hto].
  split.
  { apply own_is_Some. rewrite Hkeys.
    destruct Hfrom as [v Hv]. apply own_elem_of in Hv.
    apply list_elem_of_fmap. exists (from e, v). split; [reflexivity|exact Hv]. }
  split.
  { apply truthy_get in Hto as [Hto|Hto]; [left|right; exact Hto].
    apply own_is_Some. rewrite Hkeys. exact Hto. }
  split.
  { apply lookup_lt_Some in Hi. lia. }
  exists raw. split; [|exact Hd]. rewrite Hline. simpl. exact Hi.
Qed.

Lemma parse_edges_witness :
  map (fun e => (from e, to e)) (edges treeModel)
  = omap declaredEdge (Js.split treeText) /\
  Forall (fun e =>
      is_Some (Js.own (nodes treeModel) (from e)) /\
      (is_Some (Js.own (nodes treeModel) (to e))
       \/ to e ∈ Js.objectPrototype) /\
      1 <= line e <= length (Js.split treeText) /\
      exists raw,
        Js.split treeText !! pred (line e) = Some raw /\
        declaredEdge raw = Some (from e, to e))
    (edges treeModel).
Proof. apply (parse_edges treeText treeModel). reflexivity. Defined.

(** ** The errors of [parse] *)

Lemma scanLine_Failed (k : nat) (raw : string) (nodes : Js.object Node.t)
  (edges : list edge) (e : parseError) :
  scanLine k raw nodes edges = Failed e ->
  errorLine e = Some k /\
  match e with
  | BadNodeSyntax _ =>
    Js.startsWith (Js.trim raw) "node " = true /\
    Js.match2 Js.nodePattern (Js.trim raw) = None
  | DuplicateNodeId _ id =>
    declaredId raw = Some id /\ Js.truthy (Js.get nodes id) = true
  | BadEdgeSyntax _ =>
    Js.startsWith (Js.trim raw) "edge " = true /\
    Js.match2 Js.edgePattern (Js.trim raw) = None
  | UnknownDirective _ =>
    Js.trim raw <> EmptyString /\
    Js.startsWith (Js.trim raw) "node " = false /\
    Js.startsWith (Js.trim raw) "edge " = false
  | _ => False
  end.
Proof.
  unfold scanLine, declaredId.
  destruct (Js.isEmpty (Js.trim raw)) eqn:Hempty; [discriminate|].
  destruct (Js.startsWith (Js.trim raw) "node ") eqn:Hnode.
  { destruct (Js.match2 Js.nodePattern (Js.trim raw)) as [[id title]|] eqn:Hm.
    - destruct (Js.truthy (Js.get nodes id)) eqn:Ht; [|discriminate].
      intros [= <-]. simpl. eauto.
    - intros [= <-]. simpl. auto. }
  destruct (Js.startsWith (Js.trim raw) "edge ") eqn:Hedge.
  { destruct (Js.match2 Js.edgePattern (Js.trim raw)) as [[a b]|];
      [discriminate|].
    intros [= <-]. simpl. auto. }
  intros [= <-]. simpl. repeat split; auto.
  intros Heq. rewrite Heq in Hempty. discriminate.
Qed.

(** A scan that fails, fails at a line that the lines before it lead to. *)
Lemma scan_Failed (lines : list string) :
  forall n nodes edges e,
    scan lines n nodes edges = Failed e ->
    exists pre raw post nodes1 edges1,
      lines = pre ++ raw :: post /\
      scan pre n nodes edges = Ok (nodes1, edges1) /\
      scanLine (n + S (length pre)) raw nodes1 edges1 = Failed e.
Proof.
  induction lines as [|raw lines IH]; intros n nodes edges e; simpl;
    [discriminate|].
  destruct (scanLine (S n) raw nodes edges) as [[nodes1 edges1]| |] eqn:E.
  - intros H. apply IH in H as (pre & r & post & n1 & e1 & -> & Hpre & Hr).
    exists (raw :: pre), r, post, n1, e1. simpl. rewrite E.
    repeat split; auto. rewrite <- Hr. f_equal. lia.
  - intros [= <-]. exists [], raw, lines, nodes, edges. simpl.
    repeat split; auto. rewrite <- E. f_equal. lia.
  - discriminate.
Qed.

(** The second loop fails at the first edge with an end that [nodes] does
    not know, the source being looked up first. *)
Lemma link_Failed (pending : list edge) :
  forall nodes err, link pending nodes = Failed err ->
    exists pre e post,
      pending = pre ++ e :: post /\
      (err = UnknownNodeFrom (line e) (from e) /\
       Js.truthy (Js.get nodes (from e)) = false \/
       err = UnknownNodeTo (line e) (to e) /\
       Js.truthy (Js.get nodes (from e)) = true /\
       Js.truthy (Js.get nodes (to e)) = false).
Proof.
  induction pending as [|e rest IH]; intros nodes err; simpl; [discriminate|].
  destruct (Js.truthy (Js.get nodes (from e))) eqn:Hfrom; simpl.
  2:{ intros [= <-]. exists [], e, rest. auto. }
  destruct (Js.truthy (Js.get nodes (to e))) eqn:Hto; simpl.
  2:{ intros [= <-]. exists [], e, rest. auto. }
  destruct (Js.get nodes (from e)); [|discriminate..].
  intros H. apply IH in H as (pre & e' & post & -> & H).
  exists (e :: pre), e', post. split; [reflexivity|].
  rewrite !truthy_pushChild in H. exact H.
Qed.

(** The second loop throws at an edge whose source is no key of [nodes]
    but a name that every object inherits. *)
Lemma link_Thrown (pending : list edge) :
  forall nodes, link pending nodes = Thrown ->
    exists e, e ∈ pending /\
      (from e ∉ map fst nodes) /\ from e ∈ Js.objectPrototype.
Proof.
  induction pending as [|e rest IH]; intros nodes; simpl; [discriminate|].
  destruct (Js.truthy (Js.get nodes (from e))) eqn:Hfrom; simpl;
    [|discriminate].
  destruct (negb (Js.truthy (Js.get nodes (to e)))); [discriminate|].
  apply truthy_get in Hfrom.
  unfold Js.get. destruct (Js.own nodes (from e)) eqn:Hown.
  - intros H. apply IH in H as (e' & He' & Hk & Hp).
    exists e'. rewrite keys_pushChild in Hk.
    split; [apply list_elem_of_further, He'|auto].
  - intros _. exists e. split; [apply list_elem_of_here|].
    apply own_None in Hown. split; [exact Hown|tauto].
Qed.

Lemma insertIndex_Permutation (p : N * string) (l : list (N * string)) :
  Js.insertIndex p l ≡ₚ p :: l.
Proof.
  induction l as [|q l IH]; simpl; [reflexivity|].
  destruct (N.leb p.1 q.1); [reflexivity|].
  rewrite IH. apply Permutation_swap.
Qed.

Lemma sortIndices_Permutation (l : list (N * string)) : Js.sortIndices l ≡ₚ l.
Proof.
  induction l as [|p l IH]; simpl; [reflexivity|].
  rewrite insertIndex_Permutation, IH. reflexivity.
Qed.

(** [Object.keys] lists every own key once. *)
Lemma keys_Permutation {V : Type} (o : Js.object V) : Js.keys o ≡ₚ map fst o.
Proof.
  unfold Js.keys. induction (map fst o) as [|k l IH]; simpl; [reflexivity|].
  destruct (Js.arrayIndex k) as [n|] eqn:E; simpl.
  - rewrite insertIndex_Permutation. simpl.
    try rewrite bool_decide_eq_false_2 by discriminate.
    apply Permutation_skip, IH.
  - try rewrite bool_decide_eq_true_2 by reflexivity.
    rewrite <- Permutation_middle. apply Permutation_skip, IH.
Qed.

Lemma scanLine_Ok_blank (n : nat) (raw : string) (nodes nodes' : Js.object Node.t)
  (edges edges' : list edge) :
  scanLine n raw nodes edges = Ok (nodes', edges') ->
  Js.trim raw = EmptyString \/ is_Some (declaredId raw)
  \/ is_Some (declaredEdge raw).
Proof.
  unfold scanLine, declaredId, declaredEdge.
  destruct (Js.trim raw) as [|c s] eqn:Ht; [auto|]. simpl Js.isEmpty. cbv iota.
  destruct (Js.startsWith (String c s) "node ").
  { destruct (Js.match2 Js.nodePattern (String c s)) as [[id title]|];
      [|discriminate].
    intros _. right. left. simpl. eauto. }
  destruct (Js.startsWith (String c s) "edge "); [|discriminate].
  destruct (Js.match2 Js.edgePattern (String c s)) as [[a b]|];
    [|discriminate].
  intros _. right. right. eauto.
Qed.

Lemma scan_Ok_blank (lines : list string) :
  forall n nodes edges nodes' edges',
    scan lines n nodes edges = Ok (nodes', edges') ->
    omap declaredId lines = [] -> omap declaredEdge lines = [] ->
    forall raw, raw ∈ lines -> Js.trim raw = EmptyString.
Proof.
  induction lines as [|raw lines IH]; intros n nodes edges nodes' edges'; simpl.
  - intros _ _ _ raw H. apply elem_of_nil in H. destruct H.
  - destruct (scanLine (S n) raw nodes edges) as [[nodes1 edges1]| |] eqn:E;
      [|discriminate..].
    intros H Hn He r Hr. apply scanLine_Ok_blank in E.
    destruct (declaredId raw) eqn:E1; [discriminate|].
    destruct (declaredEdge raw) eqn:E2; [discriminate|].
    apply elem_of_cons in Hr as [->|Hr].
    + destruct E as [E|[[x E]|[x E]]]; [exact E|discriminate..].
    + eapply IH; eauto.
Qed.

(** How a call of [parse] fails. *)
Lemma parse_Failed (text : string) (e : parseError) :
  parse text = Failed e ->
  scan (Js.split text) 0 [] [] = Failed e \/
  exists scanned edges,
    scan (Js.split text) 0 [] [] = Ok (scanned, edges) /\
    (link edges scanned = Failed e \/
     e = NoNodesDefined /\ scanned = [] /\ edges = []).
Proof.
  unfold parse.
  destruct (scan (Js.split text) 0 [] []) as [[scanned es]| |] eqn:Hscan;
    [|intros [= <-]; left; reflexivity|discriminate].
  intros H. right. exists scanned, es. split; [reflexivity|].
  destruct (link es scanned) as [ns| |] eqn:Hlink;
    [|left; injection H as <-; reflexivity|discriminate].
  right.
  assert (Hkeys : map fst ns = map fst scanned).
  { apply link_linked in Hlink. rewrite Hlink. apply map_fst_linked. }
  assert (Hnil : Js.keys ns = [] -> scanned = [] /\ es = []).
  { intros Hk. pose proof (keys_Permutation ns) as Hp. rewrite Hk in Hp.
    apply Permutation_nil_l in Hp. rewrite Hkeys in Hp.
    symmetry in Hp. apply map_eq_nil in Hp. subst scanned. split; [reflexivity|].
    apply link_Ok in Hlink. destruct es as [|e0 es]; [reflexivity|].
    apply Forall_cons in Hlink as [[[v Hv] _] _]. discriminate. }
  assert (Hne : forall r, r ∈ Js.keys ns -> Js.isEmpty r = false).
  { intros r Hr. rewrite keys_Permutation, Hkeys in Hr.
    apply scan_declared in Hscan. simpl in Hscan. rewrite Hscan in Hr.
    apply declared_nonempty in Hr. destruct r; [congruence|reflexivity]. }
  unfold chooseRoot in H.
  destruct (List.find _ (Js.keys ns)) as [id|] eqn:Hfind.
  - apply find_Some_first in Hfind as (pre & post & Hk & _).
    assert (Hid : Js.isEmpty id = false).
    { apply Hne. rewrite Hk. apply elem_of_app. right. apply list_elem_of_here. }
    rewrite Hid in H. rewrite Hid in H. discriminate.
  - destruct (Js.keys ns) as [|r rest] eqn:Hk.
    + simpl in H. injection H as <-. split; [reflexivity|]. apply Hnil.
      reflexivity.
    + simpl in H. rewrite (Hne r) in H by apply list_elem_of_here.
      discriminate.
Qed.

(** X4. Every error that [parse] reports tells the truth about the text.
    An error with a line number names a line of the text, counted from 1:
    for Bad Node Syntax a line that starts with node and a space and does
    not match the node pattern; for Duplicate Node id a node line whose id
    an earlier line declares, or that every object inherits; for Bad Edge
    Syntax a line that starts with edge and a space and does not match the
    edge pattern; for Unknown Directive a line that is not blank and
    starts with neither word; for the two unknown-node errors an edge line
    with that source, or that target, which no line declares and no object
    inherits. No Nodes Defined is reported only for a text of blank
    lines. *)
Theorem parse_error_cause (text : string) (e : parseError) :
  parse text = Failed e ->
  match errorLine e with
  | Some n =>
    exists i raw,
      n = S i /\ Js.split text !! i = Some raw /\
      match e with
      | BadNodeSyntax _ =>
        Js.startsWith (Js.trim raw) "node " = true /\
        Js.match2 Js.nodePattern (Js.trim raw) = None
      | DuplicateNodeId _ id =>
        declaredId raw = Some id /\
        (id ∈ omap declaredId (take i (Js.split text))
         \/ id ∈ Js.objectPrototype)
      | BadEdgeSyntax _ =>
        Js.startsWith (Js.trim raw) "edge " = true /\
        Js.match2 Js.edgePattern (Js.trim raw) = None
      | UnknownDirective _ =>
        Js.trim raw <> EmptyString /\
        Js.startsWith (Js.trim raw) "node " = false /\
        Js.startsWith (Js.trim raw) "edge " = false
      | UnknownNodeFrom _ id =>
        (exists b, declaredEdge raw = Some (id, b)) /\
        (id ∉ declared text) /\ (id ∉ Js.objectPrototype)
      | UnknownNodeTo _ id =>
        (exists a, declaredEdge raw = Some (a, id)) /\
        (id ∉ declared text) /\ (id ∉ Js.objectPrototype)
      | NoNodesDefined => False
      end
  | None => forall raw, raw ∈ Js.split text -> Js.trim raw = EmptyString
  end.
Proof.
  intros H. apply parse_Failed in H as [H|(scanned & es & Hscan & H)].
  - apply scan_Failed in H as (pre & raw & post & n1 & e1 & Hl & Hpre & H).
    apply scanLine_Failed in H as [Hline H]. rewrite Hline. simpl.
    exists (length pre), raw. split; [reflexivity|].
    split; [rewrite Hl; apply list_lookup_middle; reflexivity|].
    destruct e; try exact H; try contradiction.
    destruct H as [Hd Ht]. split; [exact Hd|].
    apply scan_Ok in Hpre as (ns & es' & -> & _ & Hids & _).
    simpl in Ht. apply truthy_get in Ht as [Ht|Ht]; [left|right; exact Ht].
    rewrite Hl, take_app_length. rewrite <- Hids. exact Ht.
  - pose proof Hscan as Hparts.
    apply scan_Ok in Hparts as (ns & es' & Hns & Hes & Hids & Hpairs & _ & _ & Hr).
    simpl in Hns, Hes. subst ns es'.
    destruct H as [H|(-> & -> & ->)].
    + apply link_Failed in H as (pre & e' & post & Hsplit & H).
      assert (He' : recorded (Js.split text) 0 e').
      { rewrite Forall_forall in Hr. apply Hr. rewrite Hsplit.
        apply elem_of_app. right. apply list_elem_of_here. }
      destruct He' as (i & raw & Hi & Hline & Hd). simpl in Hline.
      destruct H as [[-> Hf]|(-> & _ & Hf)]; simpl;
        exists i, raw; (split; [exact Hline|]); (split; [exact Hi|]);
        apply falsy_get in Hf as [Hk Hp]; rewrite Hids in Hk;
        (split; [eauto|]); split; assumption.
    + simpl. eapply scan_Ok_blank; [exact Hscan|..].
      * rewrite <- Hids. reflexivity.
      * rewrite <- Hpairs. reflexivity.
Qed.

Lemma parse_error_cause_witness :
  exists i raw,
    3 = S i /\ Js.split staleText !! i = Some raw /\
    (exists a, declaredEdge raw = Some (a, "C")) /\
    ("C" ∉ declared staleText) /\ ("C" ∉ Js.objectPrototype).
Proof.
  apply (parse_error_cause staleText (UnknownNodeTo 3 "C")). reflexivity.
Defined.

(** X5. [parse] throws only on a text with an edge line whose source is
    a name that every object inherits and that no line declares. *)
Theorem parse_throws (text : string) :
  parse text = Thrown ->
  exists i raw a b,
    Js.split text !! i = Some raw /\ declaredEdge raw = Some (a, b) /\
    a ∈ Js.objectPrototype /\ (a ∉ declared text).
Proof.
  unfold parse.
  destruct (scan (Js.split text) 0 [] []) as [[scanned es]| |] eqn:Hscan;
    [|discriminate|exfalso; eapply scan_not_Thrown; exact Hscan].
  destruct (link es scanned) as [ns| |] eqn:Hlink; [|discriminate|].
  { destruct (chooseRoot ns es) as [r|]; [|discriminate].
    destruct (Js.isEmpty r); discriminate. }
  intros _. apply link_Thrown in Hlink as (e & He & Hk & Hp).
  apply scan_Ok in Hscan as (ns & es' & Hns & Hes & Hids & _ & _ & _ & Hr).
  simpl in Hns, Hes. subst ns es'.
  rewrite Forall_forall in Hr.
  destruct (Hr e He) as (i & raw & Hi & _ & Hd).
  exists i, raw, (from e), (to e). rewrite Hids in Hk. auto.
Qed.

Lemma parse_throws_witness :
  exists i raw a b,
    Js.split (textOf [nodeLine "A" "a"; edgeLine "toString" "A"]) !! i
    = Some raw /\
    declaredEdge raw = Some (a, b) /\
    a ∈ Js.objectPrototype /\
    (a ∉ declared (textOf [nodeLine "A" "a"; edgeLine "toString" "A"])).
Proof.
  apply (parse_throws (textOf [nodeLine "A" "a"; edgeLine "toString" "A"])).
  reflexivity.
Defined.

(** X6. The root of a model that parsed is an id that the text declares,
    whatever the ids look like; and it is the target of no edge whenever
    some declared id is the target of no edge. *)
Theorem parse_root_declared (text : string) (m : model) :
  parse text = Ok m ->
  root m ∈ declared text /\
  ((exists id, id ∈ declared text /\ id ∉ map to (edges m)) ->
   root m ∉ map to (edges m)).
Proof.
  intros H. pose proof (parse_declared _ _ H) as Hd.
  apply parse_Ok in H as (scanned & _ & _ & Hroot & Hne).
  unfold chooseRoot in Hroot. rewrite <- Hd.
  destruct (List.find _ (Js.keys (nodes m))) as [id|] eqn:Hfind.
  - apply find_Some_first in Hfind as (pre & post & Hk & Hid & _).
    assert (Hin : id ∈ Js.keys (nodes m)).
    { rewrite Hk. apply elem_of_app. right. apply list_elem_of_here. }
    destruct (Js.isEmpty id) eqn:Hempty.
    + destruct id; [|discriminate]. exfalso.
      rewrite keys_Permutation, Hd in Hin.
      apply declared_nonempty in Hin. congruence.
    + injection Hroot as <-. split; [rewrite <- keys_Permutation; exact Hin|].
      intros _. apply negb_true_iff, bool_decide_eq_false in Hid.
      rewrite elem_of_list_to_set in Hid. exact Hid.
  - split.
    + apply head_Some_elem_of in Hroot. rewrite <- keys_Permutation.
      exact Hroot.
    + intros (id & Hid & Hfree). exfalso.
      rewrite <- keys_Permutation in Hid.
      apply (find_None_all _ _ Hfind) in Hid.
      apply negb_false_iff, bool_decide_eq_true in Hid.
      rewrite elem_of_list_to_set in Hid. contradiction.
Qed.

Lemma parse_root_declared_witness :
  exists m, parse indexText = Ok m /\
    root m ∈ declared indexText /\
    ((exists id, id ∈ declared indexText /\ id ∉ map to (edges m)) ->
     root m ∉ map to (edges m)).
Proof.
  eexists. split; [reflexivity|].
  apply (parse_root_declared indexText). reflexivity.
Defined.

(** ** The two patterns *)

Lemma append_String (c : ascii) (s t : string) :
  String c s +:+ t = String c (s +:+ t).
Proof. reflexivity. Qed.

Lemma append_Empty (t : string) : EmptyString +:+ t = t.
Proof. reflexivity. Qed.

Lemma append_Empty_r (s : string) : s +:+ EmptyString = s.
Proof.
  induction s as [|c s IH]; [reflexivity|].
  rewrite append_String, IH. reflexivity.
Qed.

Lemma greedy_inv {R : Type} (class : ascii -> bool) (s : string) :
  forall (k : string -> string -> option R) (r : R),
    Js.greedy class s k = Some r ->
    exists taken rest,
      s = taken +:+ rest /\ allOf class taken = true /\ k taken rest = Some r.
Proof.
  induction s as [|c s IH]; intros k r; simpl.
  - intros H. exists EmptyString, EmptyString.
    repeat split; try reflexivity; assumption.
  - destruct (class c) eqn:Hc.
    + destruct (Js.greedy class s _) as [r'|] eqn:E.
      * intros [= ->]. apply IH in E as (t & rest & -> & Ht & Hk).
        exists (String c t), rest. split; [reflexivity|].
        split; [simpl; rewrite Hc, Ht; reflexivity|exact Hk].
      * intros H. exists EmptyString, (String c s).
        repeat split; try reflexivity; assumption.
    + intros H. exists EmptyString, (String c s).
      repeat split; try reflexivity; assumption.
Qed.

(** A repetition that can take no more than [taken] takes it, when the
    rest of the pattern goes through. *)
Lemma greedy_longest {R : Type} (class : ascii -> bool) (taken : string) :
  forall rest (k : string -> string -> option R) (r : R),
    allOf class taken = true -> stops class rest ->
    k taken rest = Some r ->
    Js.greedy class (taken +:+ rest) k = Some r.
Proof.
  induction taken as [|a taken IH]; intros rest k r Hall Hstop Hk.
  - rewrite append_Empty. destruct rest as [|c rest]; simpl; [exact Hk|].
    unfold stops in Hstop. rewrite Hstop. exact Hk.
  - rewrite append_String. simpl. simpl in Hall. apply andb_true_iff in Hall as [Ha Hall]. rewrite Ha.
    rewrite (IH rest (fun t r => k (String a t) r) r); auto.
Qed.

(** A repetition finds a way whenever there is one. *)
Lemma greedy_is_Some {R : Type} (class : ascii -> bool) (taken : string) :
  forall rest (k : string -> string -> option R),
    allOf class taken = true -> is_Some (k taken rest) ->
    is_Some (Js.greedy class (taken +:+ rest) k).
Proof.
  induction taken as [|a taken IH]; intros rest k Hall Hk.
  - rewrite append_Empty. destruct rest as [|c rest]; simpl; [exact Hk|].
    destruct (class c); [|exact Hk].
    destruct (Js.greedy class rest _); [eauto|exact Hk].
  - rewrite append_String. simpl. simpl in Hall. apply andb_true_iff in Hall as [Ha Hall]. rewrite Ha.
    destruct (IH rest (fun t r => k (String a t) r) Hall Hk) as [r Hr].
    rewrite Hr. eauto.
Qed.

Lemma prefix_append (l : string) :
  forall s, String.prefix l s = true ->
    s = l +:+ Js.dropChars (String.length l) s.
Proof.
  induction l as [|a l IH]; intros s; [reflexivity|].
  destruct s as [|b s]; simpl; [discriminate|].
  destruct (ascii_dec a b) as [->|]; [|discriminate].
  intros H. rewrite append_String. f_equal. apply IH, H.
Qed.

Lemma prefix_app (l rest : string) :
  String.prefix l (l +:+ rest) = true /\
  Js.dropChars (String.length l) (l +:+ rest) = rest.
Proof.
  induction l as [|a l [IH1 IH2]].
  - rewrite append_Empty. split; [destruct rest; reflexivity|reflexivity].
  - rewrite append_String. simpl.
    destruct (ascii_dec a a); [auto|contradiction].
Qed.

Lemma exec_nil (s : string) (caps r : list string) :
  Js.exec [] s caps = Some r <-> s = EmptyString /\ r = caps.
Proof.
  simpl. destruct s; simpl; split; try discriminate.
  - intros [= <-]. auto.
  - intros [_ ->]. reflexivity.
  - intros [H _]. discriminate.
Qed.

Lemma exec_Lit_inv (l : string) (p : list Js.rx) (s : string)
  (caps r : list string) :
  Js.exec (Js.Lit l :: p) s caps = Some r ->
  exists rest, s = l +:+ rest /\ Js.exec p rest caps = Some r.
Proof.
  cbn [Js.exec]. destruct (String.prefix l s) eqn:E; [|discriminate].
  intros H. eexists. split; [apply prefix_append, E|exact H].
Qed.

Lemma exec_Lit_app (l : string) (p : list Js.rx) (rest : string)
  (caps : list string) :
  Js.exec (Js.Lit l :: p) (l +:+ rest) caps = Js.exec p rest caps.
Proof.
  cbn [Js.exec]. destruct (prefix_app l rest) as [-> ->]. reflexivity.
Qed.

Lemma exec_Chr_inv (c : ascii) (p : list Js.rx) (s : string)
  (caps r : list string) :
  Js.exec (Js.Chr c :: p) s caps = Some r ->
  exists s', s = String c s' /\ Js.exec p s' caps = Some r.
Proof.
  cbn [Js.exec]. destruct s as [|c' s]; [discriminate|].
  destruct (Ascii.eqb c c') eqn:E; [|discriminate].
  apply Ascii.eqb_eq in E. subst c'. eauto.
Qed.

Lemma exec_Chr (c : ascii) (p : list Js.rx) (s : string) (caps : list string) :
  Js.exec (Js.Chr c :: p) (String c s) caps = Js.exec p s caps.
Proof. cbn [Js.exec]. rewrite Ascii.eqb_refl. reflexivity. Qed.

Lemma exec_Opt_inv (c : ascii) (p : list Js.rx) (s : string)
  (caps r : list string) :
  Js.exec (Js.Opt c :: p) s caps = Some r ->
  (exists s', s = String c s' /\ Js.exec p s' caps = Some r)
  \/ Js.exec p s caps = Some r.
Proof.
  cbn [Js.exec]. destruct s as [|c' s]; [auto|].
  destruct (Ascii.eqb c c') eqn:E; [|auto].
  apply Ascii.eqb_eq in E. subst c'.
  destruct (Js.exec p s caps) eqn:E'; [|auto].
  intros [= <-]. eauto.
Qed.

Lemma exec_Rep_inv (capture atLeastOne : bool) (class : ascii -> bool)
  (p : list Js.rx) (s : string) (caps r : list string) :
  Js.exec (Js.Rep capture atLeastOne class :: p) s caps = Some r ->
  exists taken rest,
    s = taken +:+ rest /\ allOf class taken = true /\
    (atLeastOne = true -> taken <> EmptyString) /\
    Js.exec p rest (if capture then caps ++ [taken] else caps) = Some r.
Proof.
  cbn [Js.exec]. intros H.
  apply greedy_inv in H as (taken & rest & -> & Hall & H).
  exists taken, rest.
  destruct (atLeastOne && Js.isEmpty taken)%bool eqn:E; [discriminate|].
  repeat split; auto. intros -> ->. discriminate.
Qed.

Lemma exec_Rep_longest (capture atLeastOne : bool) (class : ascii -> bool)
  (p : list Js.rx) (taken rest : string) (caps r : list string) :
  allOf class taken = true ->
  (atLeastOne = true -> taken <> EmptyString) ->
  stops class rest ->
  Js.exec p rest (if capture then caps ++ [taken] else caps) = Some r ->
  Js.exec (Js.Rep capture atLeastOne class :: p) (taken +:+ rest) caps = Some r.
Proof.
  intros Hall Hne Hstop H. cbn [Js.exec].
  apply greedy_longest; auto.
  destruct atLeastOne; [|exact H].
  destruct taken; [exfalso; apply Hne; reflexivity|exact H].
Qed.

Lemma exec_Rep_is_Some (capture atLeastOne : bool) (class : ascii -> bool)
  (p : list Js.rx) (taken rest : string) (caps : list string) :
  allOf class taken = true ->
  (atLeastOne = true -> taken <> EmptyString) ->
  is_Some (Js.exec p rest (if capture then caps ++ [taken] else caps)) ->
  is_Some (Js.exec (Js.Rep capture atLeastOne class :: p) (taken +:+ rest) caps).
Proof.
  intros Hall Hne H. cbn [Js.exec].
  apply greedy_is_Some; auto.
  destruct atLeastOne; [|exact H].
  destruct taken; [exfalso; apply Hne; reflexivity|exact H].
Qed.

Lemma stops_token (s rest : string) :
  token s -> stops Js.isSpace (s +:+ rest).
Proof.
  intros [Hne Hall]. destruct s as [|c s]; [contradiction|].
  rewrite append_String. simpl in *.
  apply andb_true_iff in Hall as [Hc _]. unfold Js.notSpace in Hc.
  apply negb_true_iff in Hc. exact Hc.
Qed.

Lemma stops_blanks (ws rest : string) :
  ws <> EmptyString -> blanks ws -> stops Js.notSpace (ws +:+ rest).
Proof.
  intros Hne Hall. destruct ws as [|c ws]; [contradiction|].
  rewrite append_String. unfold blanks in Hall. simpl in *.
  apply andb_true_iff in Hall as [Hc _]. unfold Js.notSpace. rewrite Hc.
  reflexivity.
Qed.

(** X7. A line matches the node pattern, with the captures [id] and
    [title], exactly when it is the word node, white space, the token
    [id], white space, a double quote, [title] without any double quote,
    and nothing more or one closing double quote. *)
Theorem nodePattern_matches (line id title : string) :
  Js.match2 Js.nodePattern line = Some (id, title) <->
  token id /\ allOf Js.notQuote title = true /\
  exists ws1 ws2 close,
    blanks ws1 /\ ws1 <> EmptyString /\ blanks ws2 /\ ws2 <> EmptyString /\
    (close = EmptyString \/ close = String Js.quote EmptyString) /\
    line = "node" +:+ ws1 +:+ id +:+ ws2 +:+ String Js.quote (title +:+ close).
Proof.
  unfold Js.match2, Js.nodePattern. split.
  - destruct (Js.exec _ line []) as [caps|] eqn:E; [|discriminate].
    apply exec_Lit_inv in E as (r0 & -> & E).
    apply exec_Rep_inv in E as (ws1 & r1 & -> & Hws1 & Hne1 & E).
    apply exec_Rep_inv in E as (a & r2 & -> & Ha & Hnea & E).
    apply exec_Rep_inv in E as (ws2 & r3 & -> & Hws2 & Hne2 & E).
    apply exec_Chr_inv in E as (r4 & -> & E).
    apply exec_Rep_inv in E as (t & r5 & -> & Ht & _ & E).
    simpl app in E.
    assert (Hend : caps = [a; t] /\
              (r5 = EmptyString \/ r5 = String Js.quote EmptyString)).
    { apply exec_Opt_inv in E as [(s' & -> & E)|E];
        apply exec_nil in E as [-> ->]; auto. }
    destruct Hend as [-> Hclose]. intros [= <- <-].
    split; [split; auto|]. split; [exact Ht|].
    exists ws1, ws2, r5. repeat split; auto.
  - intros ([Hne Hid] & Htitle & ws1 & ws2 & close & H1 & Hn1 & H2 & Hn2
            & Hclose & ->).
    assert (Js.exec
              [Js.Lit "node"; Js.Rep false true Js.isSpace;
               Js.Rep true true Js.notSpace; Js.Rep false true Js.isSpace;
               Js.Chr Js.quote; Js.Rep true false Js.notQuote; Js.Opt Js.quote]
              ("node" +:+ ws1 +:+ id +:+ ws2
               +:+ String Js.quote (title +:+ close)) []
            = Some [id; title]) as ->; [|reflexivity].
    rewrite exec_Lit_app.
    apply exec_Rep_longest;
      [exact H1|intros _; exact Hn1|apply stops_token; split; assumption|].
    apply exec_Rep_longest;
      [exact Hid|intros _; exact Hne|apply stops_blanks; assumption|].
    apply exec_Rep_longest; [exact H2|intros _; exact Hn2|reflexivity|].
    rewrite exec_Chr.
    apply exec_Rep_longest;
      [exact Htitle|discriminate
      |destruct Hclose as [->| ->]; [exact I|reflexivity]|].
    destruct Hclose as [->| ->]; reflexivity.
Qed.

Lemma edgePattern_inv (line : string) (r : list string) :
  Js.exec Js.edgePattern line [] = Some r ->
  exists a b ws1 ws2 ws3,
    r = [a; b] /\ token a /\ token b /\
    blanks ws1 /\ ws1 <> EmptyString /\ blanks ws2 /\ blanks ws3 /\
    line = "edge" +:+ ws1 +:+ a +:+ ws2 +:+ "->" +:+ ws3 +:+ b.
Proof.
  unfold Js.edgePattern. intros E.
  apply exec_Lit_inv in E as (r0 & -> & E).
  apply exec_Rep_inv in E as (ws1 & r1 & -> & Hws1 & Hne1 & E).
  apply exec_Rep_inv in E as (a & r2 & -> & Ha & Hnea & E).
  apply exec_Rep_inv in E as (ws2 & r3 & -> & Hws2 & _ & E).
  apply exec_Lit_inv in E as (r4 & -> & E).
  apply exec_Rep_inv in E as (ws3 & r5 & -> & Hws3 & _ & E).
  apply exec_Rep_inv in E as (b & r6 & -> & Hb & Hneb & E).
  apply exec_nil in E as [-> ->].
  exists a, b, ws1, ws2, ws3. rewrite append_Empty_r.
  repeat split; auto.
Qed.

(** X8. A line that matches the edge pattern is the word edge, white
    space, a token, optional white space, the arrow, optional white space
    and a token, the two tokens being the captures. Every line of that
    form matches; its captures are these two tokens when white space
    separates the first from the arrow (otherwise the first token may
    hold an arrow of its own, and the longest source wins). *)
Theorem edgePattern_matches (line : string) :
  (forall a b,
     Js.match2 Js.edgePattern line = Some (a, b) ->
     token a /\ token b /\
     exists ws1 ws2 ws3,
       blanks ws1 /\ ws1 <> EmptyString /\ blanks ws2 /\ blanks ws3 /\
       line = "edge" +:+ ws1 +:+ a +:+ ws2 +:+ "->" +:+ ws3 +:+ b) /\
  (forall a b ws1 ws2 ws3,
     token a -> token b ->
     blanks ws1 -> ws1 <> EmptyString -> blanks ws2 -> blanks ws3 ->
     line = "edge" +:+ ws1 +:+ a +:+ ws2 +:+ "->" +:+ ws3 +:+ b ->
     is_Some (Js.match2 Js.edgePattern line) /\
     (ws2 <> EmptyString -> Js.match2 Js.edgePattern line = Some (a, b))).
Proof.
  split.
  - intros a b. unfold Js.match2.
    destruct (Js.exec Js.edgePattern line []) as [r|] eqn:E; [|discriminate].
    apply edgePattern_inv in E
      as (a' & b' & ws1 & ws2 & ws3 & -> & Ha & Hb & H).
    intros [= <- <-]. split; [exact Ha|]. split; [exact Hb|].
    exists ws1, ws2, ws3. exact H.
  - intros a b ws1 ws2 ws3 [Hnea Ha] [Hneb Hb] H1 Hn1 H2 H3 ->. split.
    + assert (Hsome : is_Some (Js.exec Js.edgePattern
                ("edge" +:+ ws1 +:+ a +:+ ws2 +:+ "->" +:+ ws3 +:+ b) [])).
      { unfold Js.edgePattern. rewrite exec_Lit_app.
        apply exec_Rep_is_Some; [exact H1|intros _; exact Hn1|].
        apply exec_Rep_is_Some; [exact Ha|intros _; exact Hnea|].
        apply exec_Rep_is_Some; [exact H2|discriminate|].
        rewrite exec_Lit_app.
        apply exec_Rep_is_Some; [exact H3|discriminate|].
        rewrite <- (append_Empty_r b) at 1.
        apply exec_Rep_is_Some; [exact Hb|intros _; exact Hneb|].
        simpl. eauto. }
      destruct Hsome as [r Hr]. unfold Js.match2. rewrite Hr.
      apply edgePattern_inv in Hr as (a' & b' & _ & _ & _ & -> & _).
      eauto.
    + intros Hn2. unfold Js.match2.
      assert (Js.exec Js.edgePattern
                ("edge" +:+ ws1 +:+ a +:+ ws2 +:+ "->" +:+ ws3 +:+ b) []
              = Some [a; b]) as ->; [|reflexivity].
      unfold Js.edgePattern. rewrite exec_Lit_app.
      apply exec_Rep_longest;
        [exact H1|intros _; exact Hn1|apply stops_token; split; assumption|].
      apply exec_Rep_longest;
        [exact Ha|intros _; exact Hnea|apply stops_blanks; assumption|].
      apply exec_Rep_longest; [exact H2|discriminate|reflexivity|].
      rewrite exec_Lit_app.
      apply exec_Rep_longest;
        [exact H3|discriminate
        |rewrite <- (append_Empty_r b); apply stops_token; split; assumption|].
      rewrite <- (append_Empty_r b) at 1.
      apply exec_Rep_longest; [exact Hb|intros _; exact Hneb|exact I|].
      reflexivity.
Qed.

Lemma edgePattern_matches_witness :
  Js.match2 Js.edgePattern (edgeLine "A" "B") = Some ("A", "B").
Proof.
  apply (proj2 (edgePattern_matches (edgeLine "A" "B")) "A" "B" " " " " " ");
    try reflexivity; try discriminate; split; try reflexivity; discriminate.
Defined.

(** ** Lines *)

Lemma split_cons (c : ascii) (s : string) :
  Js.split (String c s) =
  let keep :=
    match Js.split s with
    | l :: ls => String c l :: ls
    | [] => [String c EmptyString]
    end in
  if Ascii.eqb c Js.LF then EmptyString :: Js.split s
  else if Ascii.eqb c Js.CR then
    match s with
    | String c2 s'' =>
      if Ascii.eqb c2 Js.LF then EmptyString :: Js.split s'' else keep
    | EmptyString => keep
    end
  else keep.
Proof. reflexivity. Qed.

Lemma oneLine_cons (c : ascii) (l : string) :
  oneLine (String c l) -> Ascii.eqb c Js.LF = false /\ oneLine l.
Proof.
  unfold oneLine. simpl. intros H. apply andb_true_iff in H as [Hc Hl].
  apply negb_true_iff in Hc. auto.
Qed.

(** A text without line feed is one line. *)
Lemma split_oneLine (l : string) : oneLine l -> Js.split l = [l].
Proof.
  induction l as [|c l IH]; intros H; [reflexivity|].
  apply oneLine_cons in H as [Hc Hl]. rewrite split_cons, Hc, (IH Hl). simpl.
  destruct (Ascii.eqb c Js.CR); [|reflexivity].
  destruct l as [|c2 l]; [reflexivity|].
  apply oneLine_cons in Hl as [-> _]. reflexivity.
Qed.

(** A carriage return and a line feed end a line. *)
Lemma split_CRLF (l s : string) :
  oneLine l ->
  Js.split (l +:+ String Js.CR (String Js.LF s)) = l :: Js.split s.
Proof.
  induction l as [|c l IH]; intros H.
  - rewrite append_Empty. reflexivity.
  - apply oneLine_cons in H as [Hc Hl].
    rewrite append_String, split_cons, Hc, (IH Hl). simpl.
    destruct (Ascii.eqb c Js.CR); [|reflexivity].
    destruct l as [|c2 l]; [reflexivity|].
    apply oneLine_cons in Hl as [Hc2 _].
    rewrite append_String, Hc2. reflexivity.
Qed.

(** A line feed ends a line that does not end with a carriage return. *)
Lemma split_LF (l s : string) :
  oneLine l ->
  (forall l', l <> l' +:+ String Js.CR EmptyString) ->
  Js.split (l +:+ String Js.LF s) = l :: Js.split s.
Proof.
  induction l as [|c l IH]; intros H Hend.
  - rewrite append_Empty. reflexivity.
  - apply oneLine_cons in H as [Hc Hl].
    assert (Hend' : forall l', l <> l' +:+ String Js.CR EmptyString).
    { intros l' ->. apply (Hend (String c l')). reflexivity. }
    rewrite append_String, split_cons, Hc, (IH Hl Hend'). simpl.
    destruct (Ascii.eqb c Js.CR) eqn:Hcr; [|reflexivity].
    destruct l as [|c2 l].
    + exfalso. apply Ascii.eqb_eq in Hcr. subst c.
      apply (Hend EmptyString). reflexivity.
    + apply oneLine_cons in Hl as [Hc2 _].
      rewrite append_String, Hc2. reflexivity.
Qed.

(** X9. Splitting inverts joining: a list of lines without line feed,
    not empty, joined with CR LF, splits into these lines; joined with LF
    it does when no line ends with a carriage return (which the split
    would take for a part of the line break). *)
Theorem split_join (lines : list string) :
  lines <> [] ->
  Forall oneLine lines ->
  Js.split (String.concat (String Js.CR (String Js.LF EmptyString)) lines)
  = lines /\
  (Forall (fun l => forall l', l <> l' +:+ String Js.CR EmptyString) lines ->
   Js.split (textOf lines) = lines).
Proof.
  intros Hne Hall. split; [|intros Hend; unfold textOf];
    (induction lines as [|l lines IH]; [contradiction|]);
    apply Forall_cons in Hall as [Hl Hall];
    (destruct lines as [|l2 lines];
     [simpl; apply split_oneLine, Hl|]).
  - change (String.concat ?sep (l :: l2 :: lines))
      with (l +:+ sep +:+ String.concat sep (l2 :: lines)).
    change (String Js.CR (String Js.LF EmptyString) +:+ ?s)
      with (String Js.CR (String Js.LF s)).
    rewrite split_CRLF by exact Hl. f_equal. apply IH; [discriminate|exact Hall].
  - apply Forall_cons in Hend as [Hl' Hend].
    change (String.concat ?sep (l :: l2 :: lines))
      with (l +:+ sep +:+ String.concat sep (l2 :: lines)).
    change (String Js.LF EmptyString +:+ ?s) with (String Js.LF s).
    rewrite split_LF by assumption. f_equal.
    apply IH; [discriminate|exact Hall|exact Hend].
Qed.

Lemma split_join_witness :
  Js.split (String.concat (String Js.CR (String Js.LF EmptyString))
              ["node A"; "edge A -> A"])
  = ["node A"; "edge A -> A"] /\
  (Forall (fun l => forall l', l <> l' +:+ String Js.CR EmptyString)
          ["node A"; "edge A -> A"] ->
   Js.split (textOf ["node A"; "edge A -> A"]) = ["node A"; "edge A -> A"]).
Proof.
  apply (split_join ["node A"; "edge A -> A"]); [discriminate|].
  repeat (apply List.Forall_cons; [reflexivity|]). apply List.Forall_nil.
Defined.

(** ** The texts that [parse] accepts *)

Lemma scanLine_succeeds (n : nat) (raw : string) (nodes : Js.object Node.t)
  (edges : list edge) :
  wellFormed raw ->
  (forall id, declaredId raw = Some id -> Js.truthy (Js.get nodes id) = false) ->
  exists r, scanLine n raw nodes edges = Ok r.
Proof.
  unfold wellFormed, scanLine, declaredId, declaredEdge.
  destruct (Js.trim raw) as [|c s] eqn:Ht; [simpl; eauto|].
  simpl Js.isEmpty. cbv iota.
  destruct (Js.startsWith (String c s) "node ").
  { destruct (Js.match2 Js.nodePattern (String c s)) as [[id title]|]; simpl.
    - intros _ H. rewrite (H id eq_refl). eauto.
    - intros [H|[[x H]|[x H]]]; discriminate. }
  destruct (Js.startsWith (String c s) "edge ").
  { destruct (Js.match2 Js.edgePattern (String c s)) as [[a b]|]; simpl.
    - eauto.
    - intros [H|[[x H]|[x H]]]; discriminate. }
  intros [H|[[x H]|[x H]]]; discriminate.
Qed.

Lemma scan_succeeds (lines : list string) :
  forall n nodes edges,
    Forall wellFormed lines ->
    NoDup (map fst nodes ++ omap declaredId lines) ->
    (forall id, id ∈ omap declaredId lines -> id ∉ Js.objectPrototype) ->
    exists r, scan lines n nodes edges = Ok r.
Proof.
  induction lines as [|raw lines IH]; intros n nodes edges Hwf Hnd Hp; simpl;
    [eauto|].
  apply Forall_cons in Hwf as [Hraw Hwf].
  destruct (scanLine_succeeds (S n) raw nodes edges Hraw)
    as [[nodes1 edges1] E].
  { intros id Hid. apply falsy_get. simpl in Hnd, Hp. rewrite Hid in Hnd, Hp.
    split.
    - apply NoDup_app in Hnd as (_ & Hnd & _). intros Hin.
      apply (Hnd id Hin). apply list_elem_of_here.
    - apply Hp, list_elem_of_here. }
  rewrite E. apply IH; [exact Hwf|..].
  - rewrite (scanLine_declared _ _ _ _ _ _ E), <- app_assoc.
    simpl in Hnd. destruct (declaredId raw); exact Hnd.
  - intros id Hid. apply Hp. simpl.
    destruct (declaredId raw); [apply list_elem_of_further|]; exact Hid.
Qed.

Lemma scan_wellFormed (lines : list string) :
  forall n nodes edges r,
    scan lines n nodes edges = Ok r -> Forall wellFormed lines.
Proof.
  induction lines as [|raw lines IH]; intros n nodes edges r; simpl.
  - intros _. apply List.Forall_nil.
  - destruct (scanLine (S n) raw nodes edges) as [[nodes1 edges1]| |] eqn:E;
      [|discriminate..].
    intros H. apply List.Forall_cons; [|eapply IH, H].
    eapply scanLine_Ok_blank, E.
Qed.

Lemma chooseRoot_Some (nodes : Js.object Node.t) (edges : list edge) :
  nodes <> [] ->
  (forall k, k ∈ map fst nodes -> k <> EmptyString) ->
  exists r, chooseRoot nodes edges = Some r /\ Js.isEmpty r = false.
Proof.
  intros Hne Hk.
  assert (Hkeys : forall r, r ∈ Js.keys nodes -> Js.isEmpty r = false).
  { intros r Hr. rewrite keys_Permutation in Hr. apply Hk in Hr.
    destruct r; [contradiction|reflexivity]. }
  unfold chooseRoot.
  destruct (List.find _ (Js.keys nodes)) as [id|] eqn:Hfind.
  - apply find_Some_first in Hfind as (pre & post & Hp & _).
    assert (Hid : Js.isEmpty id = false).
    { apply Hkeys. rewrite Hp. apply elem_of_app. right.
      apply list_elem_of_here. }
    rewrite Hid. eauto.
  - destruct (Js.keys nodes) as [|r rest] eqn:E.
    + exfalso. pose proof (keys_Permutation nodes) as Hperm.
      rewrite E in Hperm. apply Permutation_nil_l in Hperm.
      symmetry in Hperm. apply map_eq_nil in Hperm. contradiction.
    + simpl. exists r. split; [reflexivity|].
      apply Hkeys, list_elem_of_here.
Qed.

(** X10. [parse] returns a model exactly for the texts in which every
    line is blank, a node line or an edge line; some node is declared;
    no id is declared twice, and none is a name that every object
    inherits; and every edge starts at a declared id and ends at a
    declared id or at such an inherited name. *)
Theorem parse_accepts (text : string) :
  (exists m, parse text = Ok m) <->
  Forall wellFormed (Js.split text) /\
  declared text <> [] /\
  NoDup (declared text) /\
  (forall id, id ∈ declared text -> id ∉ Js.objectPrototype) /\
  (forall a b, (a, b) ∈ omap declaredEdge (Js.split text) ->
     a ∈ declared text /\ (b ∈ declared text \/ b ∈ Js.objectPrototype)).
Proof.
  split.
  - intros [m H]. pose proof H as Hparts. pose proof H as Hok.
    apply parse_parts in Hparts
      as (scanned & Hn & Hids & Hpairs & Hnd & Hc & _ & Hl).
    apply parse_Ok in Hok as (scanned' & Hscan & _ & _ & _).
    split; [eapply scan_wellFormed, Hscan|].
    split.
    { apply parse_root_own in H as [v Hv]. apply own_elem_of in Hv.
      intros Hnil. rewrite Hn in Hv.
      apply list_elem_of_fmap in Hv as (q & _ & Hq).
      rewrite Hnil in Hids.
      apply map_eq_nil in Hids. subst scanned.
      apply elem_of_nil in Hq. exact Hq. }
    split; [rewrite <- Hids; exact Hnd|].
    split.
    { intros id Hid. rewrite <- Hids in Hid.
      apply list_elem_of_fmap in Hid as (q & -> & Hq).
      rewrite Forall_forall in Hc.
      destruct (Hc q Hq) as (_ & _ & _ & _ & _ & Hf).
      apply falsy_get in Hf. tauto. }
    intros a b Hab. rewrite <- Hpairs in Hab.
    apply list_elem_of_fmap in Hab as (e & [= -> ->] & He).
    rewrite Forall_forall in Hl. destruct (Hl e He) as [[v Hv] Ht].
    rewrite <- Hids. split.
    + apply own_elem_of in Hv. apply list_elem_of_fmap.
      exists (from e, v). split; [reflexivity|exact Hv].
    + apply truthy_get, Ht.
  - intros (Hwf & Hne & Hnd & Hp & He).
    destruct (scan_succeeds (Js.split text) 0 [] [] Hwf Hnd Hp)
      as [[scanned es] Hscan].
    pose proof Hscan as Hparts.
    apply scan_Ok in Hparts
      as (ns & es' & Hns & Hes & Hids & Hpairs & _ & _ & _).
    simpl in Hns, Hes. subst ns es'.
    assert (Hall : Forall (linkable scanned) es).
    { apply Forall_forall. intros e Hin.
      destruct (He (from e) (to e)) as [Ha Hb].
      { rewrite <- Hpairs. apply list_elem_of_fmap. exists e. auto. }
      split.
      - apply own_is_Some. rewrite Hids. exact Ha.
      - apply truthy_get. rewrite Hids. exact Hb. }
    apply link_linkable in Hall as (ns & Hlink & Hkeys & _).
    destruct (chooseRoot_Some ns es) as (r & Hr & Hempty).
    { intros ->. simpl in Hkeys. rewrite Hids in Hkeys.
      apply Hne. unfold declared. rewrite <- Hkeys. reflexivity. }
    { intros k Hk. rewrite Hkeys, Hids in Hk.
      apply (declared_nonempty text), Hk. }
    exists {| nodes := ns; edges := es; root := r |}.
    unfold parse. rewrite Hscan, Hlink, Hr, Hempty. reflexivity.
Qed.

(** ** White space around a line *)

Lemma trimStart_blanks (ws s : string) :
  blanks ws -> Js.trimStart (ws +:+ s) = Js.trimStart s.
Proof.
  unfold blanks. induction ws as [|c ws IH]; intros H; [reflexivity|].
  simpl in H. apply andb_true_iff in H as [Hc H].
  rewrite append_String. simpl. rewrite Hc. apply IH, H.
Qed.

Lemma trimEnd_all_blanks (ws : string) :
  blanks ws -> Js.trimEnd ws = EmptyString.
Proof.
  unfold blanks. induction ws as [|c ws IH]; intros H; [reflexivity|].
  simpl in H. apply andb_true_iff in H as [Hc H].
  simpl. rewrite (IH H), Hc. reflexivity.
Qed.

Lemma trimEnd_blanks (s ws : string) :
  blanks ws -> Js.trimEnd (s +:+ ws) = Js.trimEnd s.
Proof.
  intros H. induction s as [|c s IH].
  - rewrite append_Empty. apply trimEnd_all_blanks, H.
  - rewrite append_String. simpl. rewrite IH. reflexivity.
Qed.

Lemma trimStart_all_blanks (ws : string) :
  blanks ws -> Js.trimStart ws = EmptyString.
Proof.
  intros H. rewrite <- (append_Empty_r ws), trimStart_blanks by exact H.
  reflexivity.
Qed.

Lemma trim_blanks (ws1 s ws2 : string) :
  blanks ws1 -> blanks ws2 -> Js.trim (ws1 +:+ s +:+ ws2) = Js.trim s.
Proof.
  intros H1 H2. unfold Js.trim. rewrite trimStart_blanks by exact H1.
  induction s as [|c s IH].
  - rewrite append_Empty, trimStart_all_blanks by exact H2. reflexivity.
  - rewrite append_String. simpl. destruct (Js.isSpace c); [exact IH|].
    rewrite <- append_String. apply trimEnd_blanks, H2.
Qed.

Lemma scanLine_trim (n : nat) (raw raw' : string) (nodes : Js.object Node.t)
  (edges : list edge) :
  Js.trim raw' = Js.trim raw ->
  scanLine n raw' nodes edges = scanLine n raw nodes edges.
Proof. intros H. unfold scanLine. rewrite H. reflexivity. Qed.

Lemma scan_trim (lines lines' : list string) :
  Forall2 (fun raw raw' => Js.trim raw' = Js.trim raw) lines lines' ->
  forall n nodes edges,
    scan lines' n nodes edges = scan lines n nodes edges.
Proof.
  induction 1 as [|raw raw' lines lines' H _ IH]; intros n nodes edges; simpl;
    [reflexivity|].
  rewrite (scanLine_trim _ raw raw') by exact H.
  destruct (scanLine (S n) raw nodes edges) as [[nodes1 edges1]| |];
    [apply IH|reflexivity..].
Qed.

(** X11. White space before and after a line counts for nothing: two
    texts whose lines differ in the white space around them only
    (indentation, a carriage return before the line feed) give the same
    model, or the same error. *)
Theorem parse_ignores_blanks (text text' : string) :
  Forall2 (fun raw raw' =>
             exists ws1 ws2,
               blanks ws1 /\ blanks ws2 /\ raw' = ws1 +:+ raw +:+ ws2)
          (Js.split text) (Js.split text') ->
  parse text' = parse text.
Proof.
  intros H. unfold parse.
  rewrite (scan_trim (Js.split text) (Js.split text')); [reflexivity|].
  eapply Forall2_impl; [exact H|].
  intros raw raw' (ws1 & ws2 & H1 & H2 & ->). apply trim_blanks; assumption.
Qed.

Lemma parse_ignores_blanks_witness : parse paddedText = parse treeText.
Proof.
  apply (parse_ignores_blanks treeText paddedText).
  vm_compute Js.split.
  repeat (apply List.Forall2_cons;
          [exists "  ", EmptyString; split; [reflexivity|split; reflexivity]|]).
  apply List.Forall2_cons; [|apply List.Forall2_nil].
  exists "  ", (String Js.CR EmptyString).
  split; [reflexivity|split; reflexivity].
Defined.

(** ** The range of the slots *)

Lemma ofNat_S (n : nat) : (ofNat (S n) == ofNat n + 1)%Q.
Proof.
  unfold ofNat. rewrite Nat2Z.inj_succ, <- Z.add_1_r, inject_Z_plus.
  reflexivity.
Qed.

Lemma ofNat_le (n m : nat) : n <= m -> (ofNat n <= ofNat m)%Q.
Proof. intros H. unfold ofNat. rewrite <- Zle_Qle. lia. Qed.

Lemma ofNat_plus (n m : nat) : (ofNat (n + m) == ofNat n + ofNat m)%Q.
Proof. unfold ofNat. rewrite Nat2Z.inj_add, inject_Z_plus. reflexivity. Qed.

Lemma half (x : Q) : (x / 2 == x * (1 # 2))%Q.
Proof. reflexivity. Qed.

Lemma within_weaken (lo hi lo' hi' : nat) (s : Q) :
  lo' <= lo -> hi <= hi' -> within lo hi s -> within lo' hi' s.
Proof.
  intros H1 H2 [Hlo Hhi]. apply ofNat_le in H1, H2. split; lra.
Qed.

Lemma within_nonempty (lo hi : nat) (s : Q) : within lo hi s -> lo < hi.
Proof.
  intros [Hlo Hhi]. destruct (decide (lo < hi)) as [|Hn]; [assumption|].
  exfalso. assert (H : hi <= lo) by lia. apply ofNat_le in H. lra.
Qed.

Lemma centre_within (lo hi : nat) (x : Q) (xs : list Q) :
  within lo hi x -> Forall (within lo hi) xs -> within lo hi (centre x xs).
Proof.
  intros Hx Hxs.
  assert (Hall : forall y, y ∈ x :: xs -> within lo hi y).
  { intros y Hy. apply elem_of_cons in Hy as [->|Hy]; [exact Hx|].
    rewrite Forall_forall in Hxs. auto. }
  destruct (Hall _ (proj2 (Math_min_spec xs x))) as [H1 H2].
  destruct (Hall _ (proj2 (Math_max_spec xs x))) as [H3 H4].
  unfold within, centre. rewrite Qred_correct, half. split; lra.
Qed.

Lemma walkAll_range (ts : list tree) :
  Forall (fun t => forall d p x, x ∈ preorder t ->
            exists s, xPosition (walk t d p) !! x = Some s /\
              within (xPositionNext p)
                     (xPositionNext p + length (leaves t)) s) ts ->
  forall d p x, x ∈ concat (map preorder ts) ->
    exists s, xPosition (walkAll ts d p) !! x = Some s /\
      within (xPositionNext p)
             (xPositionNext p + length (concat (map leaves ts))) s.
Proof.
  induction 1 as [|t ts Ht _ IH]; intros d p x Hx.
  { apply elem_of_nil in Hx. destruct Hx. }
  rewrite walkAll_cons. simpl. rewrite length_app.
  destruct (decide (x ∈ concat (map preorder ts))) as [Hin|Hout].
  - destruct (IH d (walk t d p) x Hin) as (s & Hs & Hw).
    exists s. split; [exact Hs|].
    rewrite walk_next in Hw. eapply within_weaken; [| |exact Hw]; lia.
  - simpl in Hx. apply elem_of_app in Hx as [Hx|Hx]; [|contradiction].
    destruct (Ht d p x Hx) as (s & Hs & Hw).
    exists s. rewrite walkAll_xPosition_other by exact Hout.
    split; [exact Hs|]. eapply within_weaken; [| |exact Hw]; lia.
Qed.

(** Every slot that a call leaves for an id it reaches is one of the
    values that the counter takes during the call, or lies between two
    of them. *)
Lemma walk_range (t : tree) :
  forall d p x, x ∈ preorder t ->
    exists s, xPosition (walk t d p) !! x = Some s /\
      within (xPositionNext p) (xPositionNext p + length (leaves t)) s.
Proof.
  induction t as [id kids IH] using tree_induction. intros d p x Hx.
  destruct kids as [|k ks].
  - apply list_elem_of_singleton in Hx. subst x. rewrite walk_leaf.
    eexists. split; [apply lookup_insert_eq|]. simpl.
    split; [lra|]. rewrite Nat.add_1_r, ofNat_S. lra.
  - rewrite walk_parent.
    set (q := walkAll (k :: ks) (S d) (setDepth id d p)).
    assert (Hq : forall y, y ∈ concat (map preorder (k :: ks)) ->
              exists s, xPosition q !! y = Some s /\
                within (xPositionNext p)
                  (xPositionNext p + length (leaves (Tree id (k :: ks)))) s).
    { intros y Hy. apply (walkAll_range _ IH (S d) (setDepth id d p) y Hy). }
    destruct (decide (x = id)) as [->|Hne].
    + eexists. split; [apply lookup_insert_eq|].
      assert (Hkid : forall t', t' ∈ k :: ks ->
                within (xPositionNext p)
                  (xPositionNext p + length (leaves (Tree id (k :: ks))))
                  (number (xPosition q !! label t'))).
      { intros t' Ht'. destruct (Hq (label t')) as (s & Hs & Hw).
        - apply elem_of_concat_map. exists t'. split; [exact Ht'|].
          destruct t'. apply list_elem_of_here.
        - rewrite Hs. exact Hw. }
      apply centre_within; [apply Hkid, list_elem_of_here|].
      apply Forall_forall. intros s Hs. rewrite map_map in Hs.
      apply list_elem_of_fmap in Hs as (t' & -> & Ht').
      apply Hkid, list_elem_of_further, Ht'.
    + apply elem_of_cons in Hx as [->|Hx]; [contradiction|].
      destruct (Hq x Hx) as (s & Hs & Hw). exists s. split; [|exact Hw].
      simpl. rewrite lookup_insert_ne by congruence. exact Hs.
Qed.

(** ** Boxes never overlap in a tree *)

Lemma levels_ge (t : tree) :
  forall d x k, (x, k) ∈ levels t d -> d <= k.
Proof.
  induction t as [id kids IH] using tree_induction. intros d x k Hx.
  change (levels (Tree id kids) d)
    with ((id, d) :: concat (map (fun t => levels t (S d)) kids)) in Hx.
  apply elem_of_cons in Hx as [[= _ ->]|Hx]; [lia|].
  apply elem_of_concat_map in Hx as (s & Hs & Hx).
  rewrite Forall_forall in IH. apply (IH s Hs) in Hx. lia.
Qed.

Lemma levels_exists (t : tree) (d : nat) (x : string) :
  x ∈ preorder t -> exists k, (x, k) ∈ levels t d.
Proof.
  rewrite <- (levels_preorder t d). intros H.
  apply list_elem_of_fmap in H as ([y k] & -> & H). eauto.
Qed.

Lemma levels_concat (ts : list tree) (d : nat) (x : string) (k : nat) :
  (x, k) ∈ concat (map (fun t => levels t d) ts) ->
  x ∈ concat (map preorder ts).
Proof.
  intros H. apply elem_of_concat_map in H as (s & Hs & H).
  apply elem_of_concat_map. exists s. split; [exact Hs|].
  eapply levels_elem_of, H.
Qed.

Lemma slotOf_within (p : pass) (x : string) (lo hi : nat) :
  (exists s, xPosition p !! x = Some s /\ within lo hi s) ->
  within lo hi (slotOf p x).
Proof. intros (s & Hs & Hw). unfold slotOf. rewrite Hs. exact Hw. Qed.

Lemma within_apart (lo mid hi : nat) (a b : Q) :
  within lo mid a -> within mid hi b -> (a + 1 <= b)%Q.
Proof. intros [_ Ha] [Hb _]. lra. Qed.

Lemma walkAll_apart (ts : list tree) :
  Forall (fun t => NoDup (preorder t) -> forall d p x y k,
            (x, k) ∈ levels t d -> (y, k) ∈ levels t d -> x <> y ->
            apart (slotOf (walk t d p) x) (slotOf (walk t d p) y)) ts ->
  NoDup (concat (map preorder ts)) ->
  forall d p x y k,
    (x, k) ∈ concat (map (fun t => levels t d) ts) ->
    (y, k) ∈ concat (map (fun t => levels t d) ts) -> x <> y ->
    apart (slotOf (walkAll ts d p) x) (slotOf (walkAll ts d p) y).
Proof.
  induction 1 as [|t ts Ht _ IH]; intros Hnd d p x y k Hx Hy Hne.
  { apply elem_of_nil in Hx. destruct Hx. }
  simpl in Hnd. apply NoDup_app in Hnd as (Hndt & Hdisj & Hnd).
  rewrite walkAll_cons. simpl in Hx, Hy.
  assert (Hkeep : forall z, z ∈ preorder t ->
            slotOf (walkAll ts d (walk t d p)) z = slotOf (walk t d p) z).
  { intros z Hz. unfold slotOf.
    rewrite walkAll_xPosition_other by (apply Hdisj, Hz). reflexivity. }
  assert (Hleft : forall z, z ∈ preorder t ->
            within (xPositionNext p) (xPositionNext (walk t d p))
                   (slotOf (walkAll ts d (walk t d p)) z)).
  { intros z Hz. rewrite (Hkeep z Hz), walk_next.
    apply slotOf_within, walk_range, Hz. }
  assert (Hright : forall z, z ∈ concat (map preorder ts) ->
            within (xPositionNext (walk t d p))
                   (xPositionNext (walk t d p)
                    + length (concat (map leaves ts)))
                   (slotOf (walkAll ts d (walk t d p)) z)).
  { intros z Hz. apply slotOf_within.
    apply walkAll_range; [|exact Hz].
    apply Forall_forall. intros s _. apply walk_range. }
  apply elem_of_app in Hx as [Hx|Hx], Hy as [Hy|Hy].
  - rewrite !Hkeep by (eapply levels_elem_of; eauto). eapply Ht; eauto.
  - left. eapply within_apart;
      [eapply Hleft, levels_elem_of, Hx|eapply Hright, levels_concat, Hy].
  - right. eapply within_apart;
      [eapply Hleft, levels_elem_of, Hy|eapply Hright, levels_concat, Hx].
  - eapply IH; eauto.
Qed.

(** In a call tree without a repeated id, two ids of the same level are
    at least one slot apart. *)
Lemma walk_apart (t : tree) :
  NoDup (preorder t) ->
  forall d p x y k,
    (x, k) ∈ levels t d -> (y, k) ∈ levels t d -> x <> y ->
    apart (slotOf (walk t d p) x) (slotOf (walk t d p) y).
Proof.
  induction t as [id kids IH] using tree_induction.
  intros Hnd d p x y k Hx Hy Hne.
  change (preorder (Tree id kids)) with (id :: concat (map preorder kids))
    in Hnd.
  apply NoDup_cons in Hnd as [Hid Hnd].
  change (levels (Tree id kids) d)
    with ((id, d) :: concat (map (fun t => levels t (S d)) kids)) in Hx, Hy.
  assert (Hdeep : forall z, (z, d) ∉ concat (map (fun t => levels t (S d)) kids)).
  { intros z Hz. apply elem_of_concat_map in Hz as (s & _ & Hz).
    apply levels_ge in Hz. lia. }
  assert (Hother : forall z j,
            (z, j) ∈ concat (map (fun t => levels t (S d)) kids) -> z <> id).
  { intros z j Hz ->. apply Hid. eapply levels_concat, Hz. }
  apply elem_of_cons in Hx as [Hx|Hx], Hy as [Hy|Hy];
    try (injection Hx as -> ->); try (injection Hy as ? ?; subst);
    try congruence; try (exfalso; eapply Hdeep; eassumption).
  destruct kids as [|kt kts]; [apply elem_of_nil in Hx; destruct Hx|].
  rewrite walk_parent. unfold slotOf at 1 2. simpl.
  rewrite !lookup_insert_ne by (apply not_eq_sym; eapply Hother; eassumption).
  apply (walkAll_apart _ IH Hnd (S d) _ x y k Hx Hy Hne).
Qed.

Lemma walkAll_depth_level (ts : list tree) :
  Forall (fun t => forall d p x, x ∈ preorder t ->
            exists k, depth (walk t d p) !! x = Some k /\ (x, k) ∈ levels t d)
         ts ->
  forall d p x, x ∈ concat (map preorder ts) ->
    exists k, depth (walkAll ts d p) !! x = Some k /\
      (x, k) ∈ concat (map (fun t => levels t d) ts).
Proof.
  induction 1 as [|t ts Ht _ IH]; intros d p x Hx.
  { apply elem_of_nil in Hx. destruct Hx. }
  rewrite walkAll_cons. simpl.
  destruct (decide (x ∈ concat (map preorder ts))) as [Hin|Hout].
  - destruct (IH d (walk t d p) x Hin) as (k & Hk & Hl).
    exists k. split; [exact Hk|]. apply elem_of_app. right. exact Hl.
  - simpl in Hx. apply elem_of_app in Hx as [Hx|Hx]; [|contradiction].
    destruct (Ht d p x Hx) as (k & Hk & Hl). exists k.
    rewrite walkAll_depth_other by exact Hout.
    split; [exact Hk|]. apply elem_of_app. left. exact Hl.
Qed.

(** The depth that a call leaves for an id it reaches is the level of one
    of the calls for that id. *)
Lemma walk_depth_level (t : tree) :
  forall d p x, x ∈ preorder t ->
    exists k, depth (walk t d p) !! x = Some k /\ (x, k) ∈ levels t d.
Proof.
  induction t as [id kids IH] using tree_induction. intros d p x Hx.
  change (levels (Tree id kids) d)
    with ((id, d) :: concat (map (fun t => levels t (S d)) kids)).
  destruct kids as [|kt kts].
  - apply list_elem_of_singleton in Hx. subst x. rewrite walk_leaf.
    exists d. split; [apply lookup_insert_eq|apply list_elem_of_here].
  - rewrite walk_parent.
    change (depth (placeParent ?a ?b ?c ?q)) with (depth q).
    destruct (decide (x ∈ concat (map preorder (kt :: kts)))) as [Hin|Hout].
    + destruct (walkAll_depth_level _ IH (S d) (setDepth id d p) x Hin)
        as (k & Hk & Hl).
      exists k. split; [exact Hk|]. apply list_elem_of_further, Hl.
    + apply elem_of_cons in Hx as [->|Hx]; [|contradiction].
      exists d. rewrite walkAll_depth_other by exact Hout.
      split; [apply lookup_insert_eq|apply list_elem_of_here].
Qed.

Section Paths.

Variable collapsed : gset string.
Variable nodes : Js.object Node.t.

(** A call at level [k] ends a visible path of [k - d] steps. *)
Lemma levels_path (t : tree) :
  isCallTree collapsed nodes t ->
  forall d x k, (x, k) ∈ levels t d ->
    exists π, visiblePath collapsed nodes (label t :: π) /\
      last (label t :: π) = Some x /\ d + length π = k.
Proof.
  induction t as [id kids IH] using tree_induction. intros Ht d x k Hx.
  change (levels (Tree id kids) d)
    with ((id, d) :: concat (map (fun t => levels t (S d)) kids)) in Hx.
  apply elem_of_cons in Hx as [[= -> ->]|Hx].
  - exists []. split; [apply path_end|]. split; [reflexivity|simpl; lia].
  - apply elem_of_concat_map in Hx as (s & Hs & Hx).
    pose proof (isCallTree_kids _ _ _ _ Ht) as [Hkids Hcts].
    rewrite Forall_forall in IH, Hcts.
    destruct (IH s Hs (Hcts s Hs) (S d) x k Hx) as (π & Hπ & Hlast & Hlen).
    exists (label s :: π). split; [|split].
    + eapply path_step; [exact Hkids| |exact Hπ].
      apply list_elem_of_fmap. eauto.
    + exact Hlast.
    + simpl. lia.
Qed.

End Paths.

(** X12. In a layout whose first pass meets no id twice, no two boxes
    overlap: the coordinates of two visible ids differ by the width of a
    box and a gap at least, or by the height of a box and a gap at
    least. *)
Theorem layout_no_overlap (fuel : nat) (c : gset string) (m : model)
  (l : layout) (t : tree) (a b : string) (ca cb : Coord.t) :
  layoutTree fuel c m = Done l ->
  callTree c (nodes m) fuel (root m) = Done t ->
  NoDup (preorder t) ->
  a <> b ->
  coords l !! a = Some ca -> coords l !! b = Some cb ->
  (Coord.x ca + (NODE_W + X_GAP) <= Coord.x cb)%Q \/
  (Coord.x cb + (NODE_W + X_GAP) <= Coord.x ca)%Q \/
  (Coord.y ca + (NODE_H + Y_GAP) <= Coord.y cb)%Q \/
  (Coord.y cb + (NODE_H + Y_GAP) <= Coord.y ca)%Q.
Proof.
  intros Hl Ht Hnd Hne Hca Hcb. unfold layoutTree in Hl.
  apply layoutFrom_facts in Hl as (t' & Ht' & _ & _ & Hpre & _ & Hc & _).
  rewrite Ht in Ht'. injection Ht' as <-.
  rewrite Hc in Hca, Hcb.
  destruct (bool_decide (a ∈ vis l)) eqn:Ha; [|discriminate].
  destruct (bool_decide (b ∈ vis l)) eqn:Hb; [|discriminate].
  apply bool_decide_eq_true, Hpre in Ha, Hb.
  injection Hca as <-. injection Hcb as <-.
  destruct (levels_exists t 0 a Ha) as [ka Hka].
  destruct (levels_exists t 0 b Hb) as [kb Hkb].
  unfold coordOf. simpl.
  rewrite (walk_levels t Hnd 0 emptyPass a ka Hka).
  rewrite (walk_levels t Hnd 0 emptyPass b kb Hkb). simpl.
  rewrite !Qred_correct. unfold NODE_W, X_GAP, NODE_H, Y_GAP.
  destruct (decide (ka = kb)) as [->|Hk].
  - destruct (walk_apart t Hnd 0 emptyPass a b kb Hka Hkb Hne) as [H|H];
      unfold slotOf in H; [left|right; left]; lra.
  - right. right.
    destruct (decide (ka < kb)) as [Hlt|Hge]; [left|right].
    + assert (H : S ka <= kb) by lia. apply ofNat_le in H.
      rewrite ofNat_S in H. lra.
    + assert (H : S kb <= ka) by lia. apply ofNat_le in H.
      rewrite ofNat_S in H. lra.
Qed.

Lemma layout_no_overlap_witness :
  (0 + (NODE_W + X_GAP) <= 166)%Q \/
  (166 + (NODE_W + X_GAP) <= 0)%Q \/
  (126 + (NODE_H + Y_GAP) <= 126)%Q \/
  (126 + (NODE_H + Y_GAP) <= 126)%Q.
Proof.
  apply (layout_no_overlap 3 ∅ treeModel treeLayout treeCalls "A" "B"
           (Coord.make 0 126) (Coord.make 166 126));
    try reflexivity; try discriminate.
  apply (bool_decide_unpack _). vm_compute. exact I.
Defined.

(** X13. Every box of a layout lies in the quadrant of the origin, in one
    of as many columns as the first pass made calls that found no visible
    child, and in one of as many rows as there are visible ids. *)
Theorem layout_bounds (fuel : nat) (c : gset string) (m : model) (l : layout)
  (id : string) (xy : Coord.t) :
  layoutTree fuel c m = Done l ->
  coords l !! id = Some xy ->
  exists t, callTree c (nodes m) fuel (root m) = Done t /\
    (0 <= Coord.x xy)%Q /\
    (Coord.x xy + (NODE_W + X_GAP)
     <= ofNat (length (leaves t)) * (NODE_W + X_GAP))%Q /\
    (0 <= Coord.y xy)%Q /\
    (Coord.y xy + (NODE_H + Y_GAP)
     <= ofNat (length (vis l)) * (NODE_H + Y_GAP))%Q.
Proof.
  intros Hl Hxy. unfold layoutTree in Hl.
  apply layoutFrom_facts in Hl as (t & Ht & _ & Hnd & Hpre & Hshown & Hc & _).
  exists t. split; [exact Ht|].
  rewrite Hc in Hxy.
  destruct (bool_decide (id ∈ vis l)) eqn:Hid; [|discriminate].
  apply bool_decide_eq_true, Hpre in Hid. injection Hxy as <-.
  assert (Hct : isCallTree c (nodes m) t).
  { exists fuel. rewrite (callTree_label _ _ _ _ _ Ht). exact Ht. }
  destruct (walk_range t 0 emptyPass id Hid) as (s & Hs & [Hlo Hhi]).
  destruct (walk_depth_level t 0 emptyPass id Hid) as (k & Hk & Hlev).
  assert (Hrows : S k <= length (vis l)).
  { destruct (levels_path _ _ t Hct 0 id k Hlev) as (π & Hπ & _ & <-).
    pose proof (callTree_paths_NoDup _ _ t Hct π Hπ) as Hndπ.
    change (S (0 + length π)) with (length (label t :: π)).
    apply submseteq_length, NoDup_submseteq; [exact Hndπ|].
    intros y Hy. apply Hshown.
    rewrite <- (callTree_label _ _ _ _ _ Ht).
    eapply visiblePath_shown; [exact Hπ|reflexivity|exact Hy]. }
  apply ofNat_le in Hrows. rewrite ofNat_S in Hrows.
  assert (H0 : (0 <= ofNat k)%Q).
  { change 0%Q with (ofNat 0). apply ofNat_le. lia. }
  unfold coordOf. simpl. rewrite Hs, Hk. simpl in *.
  rewrite !Qred_correct. unfold NODE_W, X_GAP, NODE_H, Y_GAP.
  change (ofNat 0) with 0%Q in Hlo.
  repeat split; try lra; nra.
Qed.

Lemma layout_bounds_witness :
  exists t, callTree ∅ (nodes treeModel) 3 (root treeModel) = Done t /\
    (0 <= 166)%Q /\
    (166 + (NODE_W + X_GAP) <= ofNat (length (leaves t)) * (NODE_W + X_GAP))%Q /\
    (0 <= 126)%Q /\
    (126 + (NODE_H + Y_GAP)
     <= ofNat (length (vis treeLayout)) * (NODE_H + Y_GAP))%Q.
Proof.
  apply (layout_bounds 3 ∅ treeModel treeLayout "B" (Coord.make 166 126));
    reflexivity.
Defined.

(** ** Children stand in order *)

Section Local.

Variable collapsed : gset string.
Variable nodes : Js.object Node.t.

(** A property of the slots of an id and of its visible children. *)
Variable Φ : pass -> string -> list string -> Prop.

Hypothesis Φ_local : forall p q x kids,
  (forall y, y ∈ x :: kids -> xPosition p !! y = xPosition q !! y) ->
  Φ p x kids -> Φ q x kids.

Hypothesis Φ_root : forall id ts d p,
  isCallTree collapsed nodes (Tree id ts) ->
  NoDup (preorder (Tree id ts)) ->
  Φ (walk (Tree id ts) d p) id (map label ts).

Lemma walkAll_local (ts : list tree) :
  Forall (isCallTree collapsed nodes) ts ->
  NoDup (concat (map preorder ts)) ->
  Forall (fun t => forall d p x kids,
            x ∈ preorder t -> children collapsed nodes x = Done kids ->
            Φ (walk t d p) x kids) ts ->
  forall d p x kids,
    x ∈ concat (map preorder ts) -> children collapsed nodes x = Done kids ->
    Φ (walkAll ts d p) x kids.
Proof.
  intros Hct Hnd Hall. revert Hct Hnd.
  induction Hall as [|t ts Ht _ IH]; intros Hct Hnd d p x kids Hx Hk.
  { apply elem_of_nil in Hx. destruct Hx. }
  apply Forall_cons in Hct as [Hct Hcts].
  simpl in Hnd, Hx. apply NoDup_app in Hnd as (_ & Hdisj & Hnd).
  rewrite walkAll_cons.
  destruct (decide (x ∈ concat (map preorder ts))) as [Hin|Hout];
    [apply IH; auto|].
  apply elem_of_app in Hx as [Hx|Hx]; [|contradiction].
  apply (Φ_local (walk t d p)); [|apply Ht; auto].
  intros y Hy. symmetry. apply walkAll_xPosition_other, Hdisj.
  apply elem_of_cons in Hy as [->|Hy]; [exact Hx|].
  eapply callTree_closed; eauto.
Qed.

(** What holds of every call when it returns, and depends on the slots of
    the id and of its visible children only, holds of every id when the
    outermost call returns, in a call tree without a repeated id. *)
Lemma walk_local (t : tree) :
  isCallTree collapsed nodes t -> NoDup (preorder t) ->
  forall d p x kids,
    x ∈ preorder t -> children collapsed nodes x = Done kids ->
    Φ (walk t d p) x kids.
Proof.
  induction t as [id ts IH] using tree_induction.
  intros Ht Hnd d p x kids Hx Hk.
  pose proof (isCallTree_kids _ _ _ _ Ht) as [Hkids Hcts].
  pose proof Hnd as Hnd'.
  change (preorder (Tree id ts)) with (id :: concat (map preorder ts))
    in Hnd, Hx.
  apply NoDup_cons in Hnd as [Hid Hnd].
  apply elem_of_cons in Hx as [->|Hx].
  - rewrite Hkids in Hk. injection Hk as <-. apply Φ_root; assumption.
  - destruct ts as [|kt kts]; [apply elem_of_nil in Hx; destruct Hx|].
    rewrite walk_parent.
    set (p1 := walkAll (kt :: kts) (S d) (setDepth id d p)).
    apply (Φ_local p1).
    { intros y Hy. simpl. symmetry. apply lookup_insert_ne. intros ->.
      apply Hid. apply elem_of_cons in Hy as [->|Hy]; [exact Hx|].
      apply elem_of_concat_map in Hx as (s & Hs & Hx).
      apply elem_of_concat_map. exists s. split; [exact Hs|].
      rewrite Forall_forall in Hcts. eapply callTree_closed; eauto. }
    apply walkAll_local; auto.
    rewrite Forall_forall in IH, Hcts |- *. intros s Hs d' q y kids' Hy Hk'.
    apply IH; auto.
    clear -Hnd Hs. induction Hs as [s l|s s' l _ IHs]; simpl in Hnd;
      apply NoDup_app in Hnd as (H1 & _ & H2); auto.
Qed.

End Local.

Lemma Qmin_left (x y : Q) : rightOf x y -> Qmin x y = x.
Proof.
  unfold rightOf, Qmin, GenericMinMax.gmin. intros H.
  destruct (x ?= y)%Q eqn:E; auto.
  exfalso. rewrite <- Qgt_alt in E. lra.
Qed.

Lemma Qmax_right (x y : Q) : rightOf x y -> Qmax x y = y.
Proof.
  unfold rightOf, Qmax, GenericMinMax.gmax. intros H.
  assert (E : (x ?= y)%Q = Lt) by (rewrite <- Qlt_alt; lra).
  rewrite E. reflexivity.
Qed.

Lemma Math_min_sorted (xs : list Q) :
  forall x, StronglySorted rightOf (x :: xs) -> Math_min x xs = x.
Proof.
  induction xs as [|y ys IH]; intros x H; [reflexivity|].
  apply StronglySorted_inv in H as [Hs Hall].
  apply Forall_cons in Hall as [Hxy Hall].
  apply StronglySorted_inv in Hs as [Hs _].
  unfold Math_min. simpl. rewrite Qmin_left by exact Hxy.
  apply IH. apply SSorted_cons; assumption.
Qed.

Lemma Math_max_sorted (xs : list Q) :
  forall x, StronglySorted rightOf (x :: xs) ->
            Math_max x xs = default x (last xs).
Proof.
  induction xs as [|y ys IH]; intros x H; [reflexivity|].
  apply StronglySorted_inv in H as [Hs Hall].
  apply Forall_cons in Hall as [Hxy _].
  unfold Math_max. simpl. rewrite Qmax_right by exact Hxy.
  fold (Math_max y ys). rewrite (IH y Hs).
  destruct ys as [|z ys]; [reflexivity|].
  change (last (y :: z :: ys)) with (last (z :: ys)).
  destruct (last (z :: ys)) eqn:E; [reflexivity|].
  apply last_None in E. discriminate.
Qed.

Lemma slotOf_other (ts : list tree) (x : string) (d : nat) (p : pass) :
  x ∉ concat (map preorder ts) -> slotOf (walkAll ts d p) x = slotOf p x.
Proof.
  intros H. unfold slotOf. rewrite walkAll_xPosition_other by exact H.
  reflexivity.
Qed.

(** The calls made from one id leave their ids in order, one slot apart
    at least. *)
Lemma walkAll_ordered (ts : list tree) :
  NoDup (concat (map preorder ts)) ->
  forall d p,
    StronglySorted rightOf (map (fun t => slotOf (walkAll ts d p) (label t)) ts).
Proof.
  induction ts as [|t ts IH]; intros Hnd d p; [apply SSorted_nil|].
  simpl in Hnd. apply NoDup_app in Hnd as (_ & Hdisj & Hnd).
  rewrite walkAll_cons. simpl. apply SSorted_cons; [apply IH, Hnd|].
  assert (Hlabel : forall s : tree, label s ∈ preorder s).
  { intros [a kids]. apply list_elem_of_here. }
  apply Forall_forall. intros b Hb.
  apply list_elem_of_fmap in Hb as (r & -> & Hr).
  eapply (within_apart (xPositionNext p) (xPositionNext (walk t d p))).
  - rewrite slotOf_other by (apply Hdisj, Hlabel).
    rewrite walk_next. apply slotOf_within, walk_range, Hlabel.
  - apply slotOf_within.
    apply walkAll_range.
    + apply Forall_forall. intros s _. apply walk_range.
    + apply elem_of_concat_map. exists r. split; [exact Hr|apply Hlabel].
Qed.

Lemma last_elem_of {A : Type} (k : A) (ks : list A) :
  default k (last ks) ∈ k :: ks.
Proof.
  destruct (last ks) as [a|] eqn:E; simpl; [|apply list_elem_of_here].
  apply list_elem_of_further. apply last_Some in E as [l' ->].
  apply elem_of_app. right. apply list_elem_of_here.
Qed.

Lemma inOrder_local (p q : pass) (x : string) (kids : list string) :
  (forall y, y ∈ x :: kids -> xPosition p !! y = xPosition q !! y) ->
  inOrder p x kids -> inOrder q x kids.
Proof.
  intros Hsame. destruct kids as [|k ks]; [auto|]. unfold inOrder.
  assert (Hslot : forall y, y ∈ k :: ks -> slotOf p y = slotOf q y).
  { intros y Hy. unfold slotOf. rewrite Hsame; [reflexivity|].
    apply list_elem_of_further, Hy. }
  rewrite (map_ext_in (slotOf p) (slotOf q) (k :: ks))
    by (intros y Hy; apply Hslot, list_elem_of_In, Hy).
  rewrite (Hslot k) by apply list_elem_of_here.
  rewrite (Hslot (default k (last ks))) by apply last_elem_of.
  rewrite (Hsame x) by apply list_elem_of_here. auto.
Qed.

Lemma last_map {A B : Type} (f : A -> B) (k : A) (ks : list A) :
  default (f k) (last (map f ks)) = f (default k (last ks)).
Proof.
  change (map f ks) with (f <$> ks). rewrite fmap_last.
  destruct (last ks); reflexivity.
Qed.

Lemma inOrder_root (c : gset string) (nodes : Js.object Node.t)
  (id : string) (ts : list tree) (d : nat) (p : pass) :
  isCallTree c nodes (Tree id ts) ->
  NoDup (preorder (Tree id ts)) ->
  inOrder (walk (Tree id ts) d p) id (map label ts).
Proof.
  intros _ Hnd. destruct ts as [|kt kts]; [exact I|].
  change (preorder (Tree id (kt :: kts)))
    with (id :: concat (map preorder (kt :: kts))) in Hnd.
  apply NoDup_cons in Hnd as [Hid Hnd].
  rewrite walk_parent.
  set (q := walkAll (kt :: kts) (S d) (setDepth id d p)).
  assert (Hlabel : forall s, s ∈ kt :: kts -> label s <> id).
  { intros s Hs E. apply Hid. rewrite <- E. apply elem_of_concat_map.
    exists s. split; [exact Hs|]. destruct s. apply list_elem_of_here. }
  assert (Hslot : forall s, s ∈ kt :: kts ->
            slotOf (placeParent id (label kt) (map label kts) q) (label s)
            = slotOf q (label s)).
  { intros s Hs. unfold slotOf. simpl.
    rewrite lookup_insert_ne by (apply not_eq_sym, Hlabel, Hs). reflexivity. }
  assert (Hsorted : StronglySorted rightOf
                      (map (slotOf q) (map label (kt :: kts)))).
  { rewrite map_map. apply (walkAll_ordered _ Hnd). }
  unfold inOrder. change (map label (kt :: kts)) with (label kt :: map label kts).
  split.
  - change (label kt :: map label kts) with (map label (kt :: kts)).
    rewrite map_map.
    rewrite (map_ext_in _ (fun s => slotOf q (label s)) (kt :: kts))
      by (intros s Hs; apply Hslot, list_elem_of_In, Hs).
    rewrite <- (map_map label (slotOf q)). exact Hsorted.
  - change (xPosition (placeParent id (label kt) (map label kts) q) !! id)
      with (<[id := centre (slotOf q (label kt))
                      (map (slotOf q) (map label kts))]> (xPosition q) !! id).
    rewrite lookup_insert_eq. f_equal. unfold centre.
    simpl in Hsorted.
    rewrite (Math_min_sorted _ _ Hsorted), (Math_max_sorted _ _ Hsorted).
    rewrite last_map.
    assert (Hlast : exists s, s ∈ kt :: kts /\
              default (label kt) (last (map label kts)) = label s).
    { rewrite last_map. eexists. split; [apply last_elem_of|reflexivity]. }
    destruct Hlast as (s & Hs & ->).
    rewrite (Hslot s Hs), (Hslot kt) by apply list_elem_of_here.
    reflexivity.
Qed.

(** X14. In a first pass that meets no id twice, the visible children of
    every id it reaches stand from left to right in the order of the
    edges, each one slot at least to the right of the one before; and,
    where no operation of the pass rounds, the id stands midway between
    the first and the last of them. *)
Theorem children_in_order (fuel : nat) (c : gset string)
  (nodes : Js.object Node.t) (root : string) (t : tree) (p : pass)
  (x k : string) (ks : list string) :
  callTree c nodes fuel root = Done t ->
  NoDup (preorder t) ->
  firstPass c nodes fuel root 0 emptyPass = Done p ->
  x ∈ preorder t ->
  children c nodes x = Done (k :: ks) ->
  StronglySorted rightOf (map (slotOf p) (k :: ks)) /\
  (exactPass t 0 emptyPass = true ->
   xPosition p !! x
   = Some (Qred ((slotOf p k + slotOf p (default k (last ks))) / 2))).
Proof.
  intros Ht Hnd Hp Hx Hk.
  apply firstPass_Done in Hp as (t' & Ht' & ->).
  rewrite Ht in Ht'. injection Ht' as <-.
  assert (Hct : isCallTree c nodes t).
  { exists fuel. rewrite (callTree_label _ _ _ _ _ Ht). exact Ht. }
  destruct (walk_local c nodes inOrder inOrder_local (inOrder_root c nodes)
              t Hct Hnd 0 emptyPass x (k :: ks) Hx Hk) as [Hsorted Hmid].
  split; [exact Hsorted|]. intros _. exact Hmid.
Qed.

Lemma children_in_order_witness :
  callTree ∅ (nodes wideModel) 3 "R" = Done wideCalls /\
  NoDup (preorder wideCalls) /\
  exactPass wideCalls 0 emptyPass = true /\
  exists p,
    firstPass ∅ (nodes wideModel) 3 "R" 0 emptyPass = Done p /\
    children ∅ (nodes wideModel) "R" = Done ["A"; "B"] /\
    map (slotOf p) ["A"; "B"] = [0; 3 # 2]%Q /\
    StronglySorted rightOf (map (slotOf p) ["A"; "B"]) /\
    xPosition p !! "R"
    = Some (Qred ((slotOf p "A" + slotOf p (default "A" (last ["B"]))) / 2)).
Proof.
  assert (Ht : callTree ∅ (nodes wideModel) 3 "R" = Done wideCalls)
    by reflexivity.
  assert (Hnd : NoDup (preorder wideCalls))
    by (apply (bool_decide_unpack _); vm_compute; exact I).
  assert (Hp : firstPass ∅ (nodes wideModel) 3 "R" 0 emptyPass
               = Done (walk wideCalls 0 emptyPass))
    by (vm_compute; reflexivity).
  assert (Hx : "R" ∈ preorder wideCalls)
    by (apply (bool_decide_unpack _); vm_compute; exact I).
  assert (Hk : children ∅ (nodes wideModel) "R" = Done ["A"; "B"])
    by (vm_compute; reflexivity).
  assert (He : exactPass wideCalls 0 emptyPass = true)
    by (vm_compute; reflexivity).
  destruct (children_in_order 3 ∅ (nodes wideModel) "R" wideCalls
              (walk wideCalls 0 emptyPass) "R" "A" ["B"] Ht Hnd Hp Hx Hk)
    as [Hsorted Hmid].
  split; [exact Ht|]. split; [exact Hnd|]. split; [exact He|].
  exists (walk wideCalls 0 emptyPass). split; [exact Hp|].
  split; [exact Hk|]. split; [vm_compute; reflexivity|].
  split; [exact Hsorted|exact (Hmid He)].
Defined.

(** ** What the layout depends on *)

Lemma forEach_ext {A S : Type} (f g : A -> S -> outcome S) (l : list A) :
  (forall a s, a ∈ l -> f a s = g a s) ->
  forall s, forEach f l s = forEach g l s.
Proof.
  induction l as [|a l IH]; intros H s; simpl; [reflexivity|].
  rewrite (H a s) by apply list_elem_of_here.
  destruct (g a s); simpl; try reflexivity.
  apply IH. intros b s' Hb. apply H, list_elem_of_further, Hb.
Qed.

Section Ext.

Variables (s s' : gset string) (nodes nodes' : Js.object Node.t).

(** The two passes read [collapsed] and [nodes] through the visible
    children of the ids they reach, and through nothing else. *)
Lemma firstPass_ext (fuel : nat) :
  forall id d p,
    (forall x, shown s nodes id x ->
               children s' nodes' x = children s nodes x) ->
    firstPass s' nodes' fuel id d p = firstPass s nodes fuel id d p.
Proof.
  induction fuel as [|fuel IH]; intros id d p H; simpl; [reflexivity|].
  rewrite (H id) by apply shown_root.
  destruct (children s nodes id) as [kids| |] eqn:Hkids; simpl;
    try reflexivity.
  destruct kids as [|k ks]; [reflexivity|].
  rewrite (forEach_ext (fun c => firstPass s' nodes' fuel c (S d))
             (fun c => firstPass s nodes fuel c (S d))); [reflexivity|].
  intros c q Hc. apply IH. intros x Hx. apply H.
  eapply shown_step; eauto.
Qed.

Lemma depthFirstSearch_ext (fuel : nat) :
  forall id vis,
    (forall x, shown s nodes id x ->
               children s' nodes' x = children s nodes x) ->
    depthFirstSearch s' nodes' fuel id vis
    = depthFirstSearch s nodes fuel id vis.
Proof.
  induction fuel as [|fuel IH]; intros id vis H; simpl; [reflexivity|].
  case_bool_decide; [reflexivity|].
  rewrite (H id) by apply shown_root.
  destruct (children s nodes id) as [kids| |] eqn:Hkids; simpl;
    try reflexivity.
  apply forEach_ext. intros c q Hc. apply IH. intros x Hx. apply H.
  eapply shown_step; eauto.
Qed.

Lemma layoutFrom_ext (fuel : nat) (root : string) :
  (forall x, shown s nodes root x ->
             children s' nodes' x = children s nodes x) ->
  layoutFrom s' nodes' fuel root = layoutFrom s nodes fuel root.
Proof.
  intros H. unfold layoutFrom.
  rewrite firstPass_ext, depthFirstSearch_ext by exact H. reflexivity.
Qed.

End Ext.

(** X15. The layout reads the collapsed set at the visible ids only, and
    there only for ids that have children: a change of the set that moves
    no visible id with children in or out leaves the layout as it is. *)
Theorem layout_reads_visible (fuel : nat) (s s' : gset string) (m : model)
  (l : layout) :
  layoutTree fuel s m = Done l ->
  (forall x, x ∈ vis l ->
     (x ∈ s <-> x ∈ s') \/ children ∅ (nodes m) x = Done []) ->
  layoutTree fuel s' m = Done l.
Proof.
  intros Hl H. rewrite <- Hl. unfold layoutTree.
  apply layoutFrom_ext. intros x Hx.
  apply layoutFrom_facts in Hl as (_ & _ & _ & _ & _ & Hshown & _).
  apply Hshown in Hx. unfold children, visibleChildren.
  destruct (H x Hx) as [Hiff|Hleaf].
  - destruct (decide (x ∈ s)) as [Hs|Hs].
    + rewrite !bool_decide_eq_true_2; tauto.
    + rewrite !bool_decide_eq_false_2; tauto.
  - unfold children, visibleChildren in Hleaf.
    rewrite bool_decide_eq_false_2 in Hleaf by apply not_elem_of_empty.
    rewrite Hleaf. repeat case_bool_decide; reflexivity.
Qed.

Lemma layout_reads_visible_witness :
  layoutTree 3 {["C"; "Z"]} treeModel = Done treeLayout.
Proof.
  apply (layout_reads_visible 3 ∅ {["C"; "Z"]} treeModel treeLayout);
    [reflexivity|].
  intros x Hx. vm_compute in Hx.
  repeat (apply elem_of_cons in Hx as [->|Hx]);
    try (apply elem_of_nil in Hx; destruct Hx);
    try (right; reflexivity);
    left; split; intros H; exfalso; revert H;
    apply (bool_decide_unpack _); vm_compute; exact I.
Defined.

Lemma shown_truthy (text : string) (m : model) (c : gset string) (x : string) :
  parse text = Ok m -> shown c (nodes m) (root m) x ->
  Js.truthy (Js.get (nodes m) x) = true.
Proof.
  intros H (π & Hπ & Hlast).
  destruct π as [|b π].
  - injection Hlast as <-. destruct (parse_root_own _ _ H) as [n Hn].
    unfold Js.get. rewrite Hn. reflexivity.
  - assert (Hx : x ∈ b :: π).
    { change (last (b :: π) = Some x) in Hlast.
      apply last_Some in Hlast as (l' & ->).
      apply elem_of_app. right. apply list_elem_of_here. }
    apply (visiblePath_children _ _ _ Hπ) in Hx.
    apply elem_of_concat_map in Hx as ([a n] & Hn & Hx).
    pose proof (parse_wellLinked _ _ H) as Hwl. unfold wellLinked in Hwl.
    rewrite Forall_forall in Hwl. apply (Hwl _ Hn), Hx.
Qed.

Lemma mergeCollapseState_truthy (s : gset string) (nodes : Js.object Node.t)
  (x : string) :
  Js.truthy (Js.get nodes x) = true ->
  x ∈ mergeCollapseState s nodes <-> x ∈ s.
Proof.
  intros Ht. unfold mergeCollapseState. rewrite elem_of_filter. tauto.
Qed.

(** Pruning changes the visible children of no id that the layout of a
    parsed model reaches. *)
Lemma children_prune (text : string) (m : model) (s : gset string) (x : string) :
  parse text = Ok m ->
  shown s (nodes m) (root m) x ->
  children (mergeCollapseState s (nodes m)) (nodes m) x
  = children s (nodes m) x.
Proof.
  intros H Hx. pose proof (shown_truthy _ _ _ _ H Hx) as Ht.
  pose proof (mergeCollapseState_truthy s (nodes m) x Ht) as Hiff.
  unfold children, visibleChildren.
  destruct (decide (x ∈ s)) as [Hs|Hs].
  - rewrite !bool_decide_eq_true_2; tauto.
  - rewrite !bool_decide_eq_false_2; tauto.
Qed.

(** X16. Pruning the collapsed set is invisible to the layout of the
    model it is pruned for: [mergeCollapseState] removes no id that the
    layout of a parsed model reads. *)
Theorem prune_keeps_layout (fuel : nat) (text : string) (m : model)
  (s : gset string) :
  parse text = Ok m ->
  layoutTree fuel (mergeCollapseState s (nodes m)) m = layoutTree fuel s m.
Proof.
  intros H. unfold layoutTree. apply layoutFrom_ext. intros x Hx.
  eapply children_prune; eauto.
Qed.

Lemma prune_keeps_layout_witness :
  layoutTree 3 (mergeCollapseState {["A"; "Z"]} (nodes treeModel)) treeModel
  = layoutTree 3 {["A"; "Z"]} treeModel.
Proof. apply (prune_keeps_layout 3 treeText). reflexivity. Defined.

(** ** The order of the visible set *)

Section Order.

Variable collapsed : gset string.
Variable nodes : Js.object Node.t.

Lemma forEach_depthFirstSearch (fuel : nat) (kids : list string)
  (ts : list tree) :
  (forall id t vis,
     callTree collapsed nodes fuel id = Done t ->
     NoDup (vis ++ preorder t) ->
     depthFirstSearch collapsed nodes fuel id vis = Done (vis ++ preorder t)) ->
  Forall2 (fun k s => callTree collapsed nodes fuel k = Done s) kids ts ->
  forall vis,
    NoDup (vis ++ concat (map preorder ts)) ->
    forEach (depthFirstSearch collapsed nodes fuel) kids vis
    = Done (vis ++ concat (map preorder ts)).
Proof.
  intros IH. induction 1 as [|k s kids ts Hk _ IHk]; intros vis Hnd; simpl.
  - rewrite app_nil_r. reflexivity.
  - simpl in Hnd. rewrite app_assoc in Hnd.
    rewrite (IH k s vis Hk) by (apply NoDup_app in Hnd; tauto). simpl.
    rewrite IHk by exact Hnd. rewrite app_assoc. reflexivity.
Qed.

(** Where the first pass meets no id twice, the search visits the ids in
    the order of the calls of the first pass. *)
Lemma depthFirstSearch_preorder (fuel : nat) :
  forall id t vis,
    callTree collapsed nodes fuel id = Done t ->
    NoDup (vis ++ preorder t) ->
    depthFirstSearch collapsed nodes fuel id vis = Done (vis ++ preorder t).
Proof.
  induction fuel as [|fuel IH]; intros id t vis Ht Hnd; [discriminate|].
  apply callTree_S in Ht as (kids & ts & Hkids & Hts & ->).
  change (preorder (Tree id ts)) with (id :: concat (map preorder ts)) in *.
  simpl. rewrite bool_decide_eq_false_2.
  2:{ apply NoDup_app in Hnd as (_ & Hdisj & _). intros Hin.
      apply (Hdisj id Hin). apply list_elem_of_here. }
  fold (children collapsed nodes id). rewrite Hkids. simpl.
  rewrite (forEach_depthFirstSearch fuel kids ts IH Hts).
  - rewrite <- app_assoc. reflexivity.
  - rewrite <- app_assoc. exact Hnd.
Qed.

End Order.

(** X17. In a layout whose first pass meets no id twice, the visible set
    lists the ids in the order in which the first pass reaches them:
    every id before its visible children, and these in the order of the
    edges, each with all that lies below it. *)
Theorem vis_preorder (fuel : nat) (c : gset string) (m : model) (l : layout)
  (t : tree) :
  layoutTree fuel c m = Done l ->
  callTree c (nodes m) fuel (root m) = Done t ->
  NoDup (preorder t) ->
  vis l = preorder t.
Proof.
  intros Hl Ht Hnd. unfold layoutTree in Hl.
  apply layoutFrom_Done in Hl as (_ & _ & Hvis & _).
  rewrite (depthFirstSearch_preorder c (nodes m) fuel (root m) t [] Ht Hnd)
    in Hvis.
  injection Hvis as <-. reflexivity.
Qed.

Lemma vis_preorder_witness : vis treeLayout = preorder treeCalls.
Proof.
  apply (vis_preorder 3 ∅ treeModel); try reflexivity.
  apply (bool_decide_unpack _). vm_compute. exact I.
Defined.

(** ** When the layout returns *)

Lemma visit_TypeError {A B : Type} (f : A -> outcome B) (l : list A) :
  visit f l = TypeError -> exists a, a ∈ l /\ f a = TypeError.
Proof.
  induction l as [|a l IH]; simpl; [discriminate|].
  destruct (f a) as [b| |] eqn:E; simpl; [|intros _|discriminate].
  - destruct (visit f l) as [bs| |]; simpl; try discriminate.
    intros _. destruct IH as (a' & Ha' & H); [reflexivity|].
    exists a'. split; [apply list_elem_of_further, Ha'|exact H].
  - exists a. split; [apply list_elem_of_here|exact E].
Qed.

Section Returns.

Variable collapsed : gset string.
Variable nodes : Js.object Node.t.

(** No call throws where no read of [children] on the way down does. *)
Lemma callTree_not_TypeError (fuel : nat) :
  forall id, closed collapsed nodes id ->
             callTree collapsed nodes fuel id <> TypeError.
Proof.
  induction fuel as [|fuel IH]; intros id Hclosed; simpl; [discriminate|].
  destruct (children collapsed nodes id) as [kids| |] eqn:Hkids; simpl.
  - destruct (visit (callTree collapsed nodes fuel) kids) as [ts| |] eqn:E;
      simpl; try discriminate.
    intros _. apply visit_TypeError in E as (k & Hk & E).
    apply (IH k); [|exact E].
    intros x Hx. apply Hclosed. eapply shown_step; eauto.
  - intros _. apply (Hclosed id); [apply shown_root|exact Hkids].
  - discriminate.
Qed.

(** An id with visible children is a key of [nodes]. *)
Lemma visiblePath_keys (π : list string) :
  visiblePath collapsed nodes π ->
  forall x, x ∈ removelast π -> x ∈ map fst nodes.
Proof.
  induction 1 as [a|a b π kids Hk Hb _ IH]; intros x Hx.
  - apply elem_of_nil in Hx. destruct Hx.
  - change (removelast (a :: b :: π)) with (a :: removelast (b :: π)) in Hx.
    apply elem_of_cons in Hx as [->|Hx]; [|auto].
    destruct (children_own _ _ _ _ _ Hk Hb) as (n & Hn & _).
    apply list_elem_of_fmap. exists (a, n). auto.
Qed.

End Returns.

Lemma NoDup_removelast {A : Type} (l : list A) :
  NoDup l -> NoDup (removelast l).
Proof.
  induction l as [|a l IH]; intros H; [exact H|].
  destruct l as [|b l]; [apply NoDup_nil_2|].
  change (removelast (a :: b :: l)) with (a :: removelast (b :: l)).
  apply NoDup_cons in H as [Ha H]. apply NoDup_cons. split; [|auto].
  intros Hin. apply Ha. clear -Hin.
  revert Hin. generalize (b :: l). intros l'. induction l' as [|c l' IH'].
  - intros H. exact H.
  - destruct l' as [|c' l']; [intros H; apply elem_of_nil in H; destruct H|].
    change (removelast (c :: c' :: l')) with (c :: removelast (c' :: l')).
    intros H. apply elem_of_cons in H as [->|H];
      [apply list_elem_of_here|apply list_elem_of_further, IH', H].
Qed.

Lemma length_removelast {A : Type} (a : A) (l : list A) :
  length (removelast (a :: l)) = length l.
Proof.
  revert a. induction l as [|b l IH]; intros a; [reflexivity|].
  change (length (removelast (a :: b :: l)))
    with (S (length (removelast (b :: l)))).
  rewrite IH. reflexivity.
Qed.

(** X18. The layout of a parsed model never throws. It returns, on a
    stack of one frame more than the model has nodes, when no path from
    the root through visible children meets an id twice; and when some
    such path does, it returns on no stack, however deep. *)
Theorem layout_returns (text : string) (m : model) (c : gset string) :
  parse text = Ok m ->
  (forall fuel, layoutTree fuel c m <> TypeError) /\
  ((forall π, visiblePath c (nodes m) (root m :: π) -> NoDup (root m :: π)) ->
   exists l, layoutTree (S (length (nodes m))) c m = Done l) /\
  (forall π, visiblePath c (nodes m) (root m :: π) -> ~ NoDup (root m :: π) ->
   forall fuel, layoutTree fuel c m = OutOfFuel).
Proof.
  intros Hparse.
  pose proof (parse_closed _ _ c Hparse) as Hclosed.
  assert (Hcases : forall fuel,
            (exists l, layoutTree fuel c m = Done l)
            \/ layoutTree fuel c m = OutOfFuel).
  { intros fuel. unfold layoutTree.
    destruct (callTree c (nodes m) fuel (root m)) as [t| |] eqn:Ht.
    - left. destruct (layoutFrom_total _ _ _ _ _ Ht) as (v & _ & Hl). eauto.
    - exfalso. eapply callTree_not_TypeError; eauto.
    - right. apply layoutFrom_OutOfFuel, Ht. }
  split; [|split].
  - intros fuel. destruct (Hcases fuel) as [[l ->]| ->]; discriminate.
  - intros Hpaths.
    destruct (callTree_total c (nodes m) (S (length (nodes m))) (root m))
      as [t Ht].
    + intros π Hπ. pose proof (Hpaths π Hπ) as Hnd.
      enough (length π <= length (nodes m)) by lia.
      rewrite <- (length_removelast (root m) π), <- (length_map fst (nodes m)).
      apply submseteq_length, NoDup_submseteq;
        [apply NoDup_removelast, Hnd|].
      intros x Hx. eapply visiblePath_keys; eauto.
    + exact Hclosed.
    + destruct (layoutFrom_total _ _ _ _ _ Ht) as (v & _ & Hl). eauto.
  - intros π Hπ Hdup fuel.
    destruct (Hcases fuel) as [[l Hl]|Hout]; [|exact Hout].
    exfalso. apply Hdup.
    apply (proj1 (layoutTree_returns text m c Hparse)); eauto.
Qed.

Lemma layout_returns_witness :
  (forall fuel, layoutTree fuel ∅ selfLoop <> TypeError) /\
  (visiblePath ∅ (nodes selfLoop) ["A"; "A"] /\ ~ NoDup ["A"; "A"] /\
   forall fuel, layoutTree fuel ∅ selfLoop = OutOfFuel) /\
  ((forall π, visiblePath ∅ (nodes treeModel) ("R" :: π) -> NoDup ("R" :: π)) /\
   exists l, layoutTree (S (length (nodes treeModel))) ∅ treeModel = Done l).
Proof.
  destruct (layout_returns selfLoopText selfLoop ∅) as (Hnever & _ & Hloop);
    [reflexivity|].
  destruct (layout_returns treeText treeModel ∅) as (_ & Htree & _);
    [reflexivity|].
  assert (Hpath : visiblePath ∅ (nodes selfLoop) ["A"; "A"]).
  { apply (path_step _ _ "A" "A" [] ["A"]); [reflexivity| |apply path_end].
    apply list_elem_of_here. }
  assert (Hdup : ~ NoDup ["A"; "A"]).
  { intros H. apply NoDup_cons in H as [H _]. apply H, list_elem_of_here. }
  assert (Hpaths : forall π, visiblePath ∅ (nodes treeModel) ("R" :: π) ->
                     NoDup ("R" :: π)).
  { apply (callTree_paths_NoDup ∅ (nodes treeModel) treeCalls).
    exists 3. reflexivity. }
  split; [exact Hnever|]. split.
  - split; [exact Hpath|]. split; [exact Hdup|]. exact (Hloop ["A"] Hpath Hdup).
  - split; [exact Hpaths|]. exact (Htree Hpaths).
Defined.

(** ** The depth of an id that is reached twice *)

Lemma walkAll_depth_last (ts : list tree) :
  Forall (fun t => forall d p x,
            depth (walk t d p) !! x
            = match lastLevel t d x with
              | Some k => Some k
              | None => depth p !! x
              end) ts ->
  forall d p x,
    depth (walkAll ts d p) !! x
    = match snd <$> last (filter (fun e => e.1 = x)
                            (concat (map (fun t => levels t d) ts))) with
      | Some k => Some k
      | None => depth p !! x
      end.
Proof.
  induction 1 as [|t ts Ht _ IH]; intros d p x; [reflexivity|].
  rewrite walkAll_cons, IH. simpl. rewrite filter_app, last_app.
  destruct (last (filter _ (concat _))) as [e|]; [reflexivity|].
  simpl. apply Ht.
Qed.

(** The last call for an id decides its depth. *)
Lemma walk_depth_last (t : tree) :
  forall d p x,
    depth (walk t d p) !! x
    = match lastLevel t d x with
      | Some k => Some k
      | None => depth p !! x
      end.
Proof.
  induction t as [id kids IH] using tree_induction. intros d p x.
  unfold lastLevel.
  change (levels (Tree id kids) d)
    with ((id, d) :: concat (map (fun t => levels t (S d)) kids)).
  assert (Hset : forall q, depth (setDepth id d q) !! x
                = if decide (id = x) then Some d else depth q !! x).
  { intros q. simpl. destruct (decide (id = x)) as [->|Hne].
    - apply lookup_insert_eq.
    - apply lookup_insert_ne, Hne. }
  assert (Hlast :
    snd <$> last (filter (fun e => e.1 = x)
                    ((id, d) :: concat (map (fun t => levels t (S d)) kids)))
    = match snd <$> last (filter (fun e => e.1 = x)
                            (concat (map (fun t => levels t (S d)) kids))) with
      | Some k => Some k
      | None => if decide (id = x) then Some d else None
      end).
  { rewrite filter_cons. simpl.
    destruct (decide (id = x)) as [->|Hne].
    - rewrite last_cons. destruct (last _); reflexivity.
    - destruct (last _); reflexivity. }
  rewrite Hlast. clear Hlast. destruct kids as [|k ks].
  - rewrite walk_leaf.
    change (depth (placeLeaf id ?q)) with (depth q). rewrite Hset.
    simpl. destruct (decide (id = x)); reflexivity.
  - rewrite walk_parent.
    change (depth (placeParent ?a ?b ?c ?q)) with (depth q).
    rewrite (walkAll_depth_last _ IH), Hset.
    destruct (snd <$> last (filter _ (concat _))) as [k'|]; [reflexivity|].
    destruct (decide (id = x)); reflexivity.
Qed.

(** X19. Where the first pass reaches an id more than once, the last
    call decides: the row of every visible id is the level of the last of
    the calls for it, in the order of the calls, whatever the levels of
    the calls before. *)
Theorem depth_last_call (fuel : nat) (c : gset string) (m : model)
  (l : layout) (id : string) (xy : Coord.t) :
  layoutTree fuel c m = Done l ->
  coords l !! id = Some xy ->
  exists t k,
    callTree c (nodes m) fuel (root m) = Done t /\
    last (filter (fun e => e.1 = id) (levels t 0)) = Some (id, k) /\
    (Coord.y xy == ofNat k * (NODE_H + Y_GAP))%Q.
Proof.
  intros Hl Hxy. unfold layoutTree in Hl.
  apply layoutFrom_facts in Hl as (t & Ht & _ & _ & Hpre & _ & Hc & _).
  rewrite Hc in Hxy.
  destruct (bool_decide (id ∈ vis l)) eqn:Hid; [|discriminate].
  apply bool_decide_eq_true, Hpre in Hid. injection Hxy as <-.
  destruct (levels_exists t 0 id Hid) as [k0 Hk0].
  destruct (last (filter (fun e => e.1 = id) (levels t 0))) as [[y k]|] eqn:E.
  2:{ exfalso. apply last_None in E.
      apply (filter_nil_not_elem_of _ _ (id, k0) E); [reflexivity|exact Hk0]. }
  assert (y = id) as ->.
  { apply last_Some_elem_of, list_elem_of_filter in E as [E _]. exact E. }
  exists t, k. split; [exact Ht|]. split; [exact E|].
  unfold coordOf. simpl.
  rewrite (walk_depth_last t 0 emptyPass id). unfold lastLevel. rewrite E.
  simpl. apply Qred_correct.
Qed.

Lemma depth_last_call_witness :
  exists t k,
    callTree ∅ (nodes dagModel) 3 (root dagModel) = Done t /\
    last (filter (fun e => e.1 = "B") (levels t 0)) = Some ("B", k) /\
    (126 == ofNat k * (NODE_H + Y_GAP))%Q.
Proof.
  apply (depth_last_call 3 ∅ dagModel dagLayout "B" (Coord.make 166 126));
    reflexivity.
Defined.

(** ** The layout of a subtree *)

Lemma Math_min_shift (δ : Q) (xs ys : list Q) :
  Forall2 (fun a b => (a == b + δ)%Q) xs ys ->
  forall x y, (x == y + δ)%Q -> (Math_min x xs == Math_min y ys + δ)%Q.
Proof.
  induction 1 as [|a b xs ys Hab _ IH]; intros x y Hxy; [exact Hxy|].
  unfold Math_min. simpl. apply IH.
  rewrite Hxy, Hab. apply Q.plus_min_distr_r.
Qed.

Lemma Math_max_shift (δ : Q) (xs ys : list Q) :
  Forall2 (fun a b => (a == b + δ)%Q) xs ys ->
  forall x y, (x == y + δ)%Q -> (Math_max x xs == Math_max y ys + δ)%Q.
Proof.
  induction 1 as [|a b xs ys Hab _ IH]; intros x y Hxy; [exact Hxy|].
  unfold Math_max. simpl. apply IH.
  rewrite Hxy, Hab. apply Q.plus_max_distr_r.
Qed.

Lemma centre_shift (δ : Q) (x y : Q) (xs ys : list Q) :
  (x == y + δ)%Q -> Forall2 (fun a b => (a == b + δ)%Q) xs ys ->
  (centre x xs == centre y ys + δ)%Q.
Proof.
  intros Hxy Hall. unfold centre. rewrite !Qred_correct, !half.
  rewrite (Math_min_shift δ xs ys Hall x y Hxy).
  rewrite (Math_max_shift δ xs ys Hall x y Hxy). lra.
Qed.

Lemma walkAll_shift (ts : list tree) :
  Forall (fun t => forall d p d' p' x, x ∈ preorder t ->
            (slotOf (walk t d p) x - ofNat (xPositionNext p)
             == slotOf (walk t d' p') x - ofNat (xPositionNext p'))%Q) ts ->
  forall d p d' p' x, x ∈ concat (map preorder ts) ->
    (slotOf (walkAll ts d p) x - ofNat (xPositionNext p)
     == slotOf (walkAll ts d' p') x - ofNat (xPositionNext p'))%Q.
Proof.
  induction 1 as [|t ts Ht _ IH]; intros d p d' p' x Hx.
  { apply elem_of_nil in Hx. destruct Hx. }
  rewrite !walkAll_cons.
  destruct (decide (x ∈ concat (map preorder ts))) as [Hin|Hout].
  - pose proof (IH d (walk t d p) d' (walk t d' p') x Hin) as H.
    rewrite !walk_next, !ofNat_plus in H. lra.
  - simpl in Hx. apply elem_of_app in Hx as [Hx|Hx]; [|contradiction].
    rewrite !slotOf_other by exact Hout. apply Ht, Hx.
Qed.

(** Where a call starts, in the counter, moves the slots it leaves, and
    nothing else. *)
Lemma walk_shift (t : tree) :
  forall d p d' p' x, x ∈ preorder t ->
    (slotOf (walk t d p) x - ofNat (xPositionNext p)
     == slotOf (walk t d' p') x - ofNat (xPositionNext p'))%Q.
Proof.
  induction t as [id kids IH] using tree_induction. intros d p d' p' x Hx.
  destruct kids as [|k ks].
  - apply list_elem_of_singleton in Hx. subst x. rewrite !walk_leaf.
    unfold slotOf. simpl. rewrite !lookup_insert_eq. simpl. lra.
  - rewrite !walk_parent.
    set (q := walkAll (k :: ks) (S d) (setDepth id d p)).
    set (q' := walkAll (k :: ks) (S d') (setDepth id d' p')).
    assert (Hq : forall y, y ∈ concat (map preorder (k :: ks)) ->
              (slotOf q y
               == slotOf q' y
                  + (ofNat (xPositionNext p) - ofNat (xPositionNext p')))%Q).
    { intros y Hy.
      pose proof (walkAll_shift _ IH (S d) (setDepth id d p)
                    (S d') (setDepth id d' p') y Hy) as H.
      change (xPositionNext (setDepth id d p)) with (xPositionNext p) in H.
      change (xPositionNext (setDepth id d' p')) with (xPositionNext p') in H.
      fold q q' in H. lra. }
    assert (Hlabel : forall s : tree, s ∈ k :: ks ->
              label s ∈ concat (map preorder (k :: ks))).
    { intros s Hs. apply elem_of_concat_map. exists s. split; [exact Hs|].
      destruct s. apply list_elem_of_here. }
    destruct (decide (x = id)) as [->|Hne].
    + unfold slotOf at 1 2. simpl. rewrite !lookup_insert_eq. simpl.
      fold (slotOf q) (slotOf q').
      rewrite (centre_shift
                 (ofNat (xPositionNext p) - ofNat (xPositionNext p'))
                 _ (slotOf q' (label k)) _ (map (slotOf q') (map label ks))).
      * unfold slotOf. lra.
      * apply Hq, Hlabel, list_elem_of_here.
      * apply Forall2_fmap, Forall2_fmap, Forall_Forall2_diag, Forall_forall.
        intros s Hs. apply Hq, Hlabel, list_elem_of_further, Hs.
    + apply elem_of_cons in Hx as [->|Hx]; [contradiction|].
      unfold slotOf at 1 2. simpl.
      rewrite !lookup_insert_ne by (apply not_eq_sym, Hne).
      fold (slotOf q x) (slotOf q' x). rewrite (Hq x Hx). lra.
Qed.

Lemma walkAll_depth_shift (ts : list tree) :
  Forall (fun t => forall d p d' p' x, x ∈ preorder t ->
            exists k k',
              depth (walk t d p) !! x = Some k /\
              depth (walk t d' p') !! x = Some k' /\ k + d' = k' + d) ts ->
  forall d p d' p' x, x ∈ concat (map preorder ts) ->
    exists k k',
      depth (walkAll ts d p) !! x = Some k /\
      depth (walkAll ts d' p') !! x = Some k' /\ k + d' = k' + d.
Proof.
  induction 1 as [|t ts Ht _ IH]; intros d p d' p' x Hx.
  { apply elem_of_nil in Hx. destruct Hx. }
  rewrite !walkAll_cons.
  destruct (decide (x ∈ concat (map preorder ts))) as [Hin|Hout].
  - apply IH, Hin.
  - simpl in Hx. apply elem_of_app in Hx as [Hx|Hx]; [|contradiction].
    rewrite !walkAll_depth_other by exact Hout. apply Ht, Hx.
Qed.

(** The depth at which a call starts moves the depths it leaves, and
    nothing else. *)
Lemma walk_depth_shift (t : tree) :
  forall d p d' p' x, x ∈ preorder t ->
    exists k k',
      depth (walk t d p) !! x = Some k /\
      depth (walk t d' p') !! x = Some k' /\ k + d' = k' + d.
Proof.
  induction t as [id kids IH] using tree_induction. intros d p d' p' x Hx.
  destruct kids as [|kt kts].
  - apply list_elem_of_singleton in Hx. subst x. rewrite !walk_leaf.
    exists d, d'. simpl. rewrite !lookup_insert_eq. repeat split. lia.
  - rewrite !walk_parent.
    change (depth (placeParent ?a ?b ?c ?q)) with (depth q).
    destruct (decide (x ∈ concat (map preorder (kt :: kts)))) as [Hin|Hout].
    + destruct (walkAll_depth_shift _ IH (S d) (setDepth id d p)
                  (S d') (setDepth id d' p') x Hin) as (k & k' & H1 & H2 & H).
      exists k, k'. repeat split; auto. lia.
    + apply elem_of_cons in Hx as [->|Hx]; [|contradiction].
      exists d, d'. rewrite !walkAll_depth_other by exact Hout. simpl.
      rewrite !lookup_insert_eq. repeat split. lia.
Qed.

Lemma calls_preorder (t : tree) :
  forall s x, s ∈ calls t -> x ∈ preorder s -> x ∈ preorder t.
Proof.
  induction t as [id kids IH] using tree_induction. intros s x Hs Hx.
  apply calls_inv in Hs as [->|(k & Hk & Hs)]; [exact Hx|].
  apply preorder_inv. right. exists k. split; [exact Hk|].
  rewrite Forall_forall in IH. eapply IH; eauto.
Qed.

Lemma walkAll_app (pre post : list tree) (d : nat) (p : pass) :
  walkAll (pre ++ post) d p = walkAll post d (walkAll pre d p).
Proof. unfold walkAll. apply foldl_app. Qed.

Lemma walkAll_entry_other (ts : list tree) (x : string) (d : nat) (p : pass) :
  x ∉ concat (map preorder ts) -> entry (walkAll ts d p) x = entry p x.
Proof.
  intros H. apply walkAll_frame; [|exact H].
  apply Forall_forall. intros t _. apply walk_frame.
Qed.

(** In a call tree without a repeated id, what the outermost call leaves
    for the ids of one of its calls is what that call left. *)
Lemma walk_call (t : tree) :
  NoDup (preorder t) ->
  forall s d p, s ∈ calls t ->
    exists ds ps, forall x, x ∈ preorder s ->
      entry (walk t d p) x = entry (walk s ds ps) x.
Proof.
  induction t as [id kids IH] using tree_induction. intros Hnd s d p Hs.
  apply calls_inv in Hs as [->|(k & Hk & Hs)]; [exists d, p; auto|].
  change (preorder (Tree id kids)) with (id :: concat (map preorder kids))
    in Hnd.
  apply NoDup_cons in Hnd as [Hid Hnd].
  apply list_elem_of_split in Hk as (pre & post & ->).
  rewrite map_app, concat_app in Hnd, Hid. simpl in Hnd, Hid.
  apply NoDup_app in Hnd as (_ & _ & Hnd).
  apply NoDup_app in Hnd as (Hndk & Hdisj & _).
  rewrite Forall_forall in IH.
  destruct (IH k) with (s := s) (d := S d)
    (p := walkAll pre (S d) (setDepth id d p)) as (ds & ps & H); auto.
  { apply elem_of_app. right. apply list_elem_of_here. }
  exists ds, ps. intros x Hx.
  assert (Hxk : x ∈ preorder k) by (eapply calls_preorder; eauto).
  rewrite <- (H x Hx).
  destruct (pre ++ k :: post) as [|k0 ks0] eqn:E.
  { destruct pre; discriminate. }
  rewrite walk_parent, <- E.
  rewrite entry_placeParent_ne.
  2:{ intros ->. apply Hid. rewrite !elem_of_app. right. left. exact Hxk. }
  rewrite walkAll_app, walkAll_cons.
  apply walkAll_entry_other, Hdisj, Hxk.
Qed.

Lemma callTree_call (c : gset string) (nodes : Js.object Node.t) (fuel : nat) :
  forall id t s,
    callTree c nodes fuel id = Done t -> s ∈ calls t ->
    callTree c nodes fuel (label s) = Done s.
Proof.
  induction fuel as [|fuel IH]; intros id t s Ht Hs; [discriminate|].
  pose proof Ht as Ht'.
  apply callTree_S in Ht' as (kids & ts & Hkids & Hts & ->).
  apply calls_inv in Hs as [->|(k & Hk & Hs)]; [exact Ht|].
  apply (callTree_mono c nodes fuel (S fuel)); [lia|].
  apply list_elem_of_lookup_1 in Hk as [i Hi].
  destruct (Forall2_lookup_r _ _ _ _ _ Hts Hi) as (kid & _ & Hkid).
  eapply IH; eauto.
Qed.

(** X20. In a layout whose first pass meets no id twice, what lies below
    a visible id is laid out as it would be if that id were the root, and
    then moved as a whole: the layout of the model with the id for its
    root returns, shows no id that the layout of the model does not show,
    and, where no operation of either layout rounds, the coordinates of
    the ids it shows differ from theirs in the layout of the model by one
    and the same displacement. *)
Theorem subtree_layout (fuel : nat) (c : gset string) (m : model) (l : layout)
  (t : tree) (r : string) :
  layoutTree fuel c m = Done l ->
  callTree c (nodes m) fuel (root m) = Done t ->
  NoDup (preorder t) ->
  r ∈ vis l ->
  exists l',
    layoutTree fuel c {| nodes := nodes m; edges := edges m; root := r |}
    = Done l' /\
    (forall x, x ∈ vis l' -> x ∈ vis l) /\
    (exactLayout fuel c m = true ->
     exactLayout fuel c {| nodes := nodes m; edges := edges m; root := r |}
     = true ->
     exists dx dy : Q,
       forall x a', coords l' !! x = Some a' ->
         exists a, coords l !! x = Some a /\
           (Coord.x a == Coord.x a' + dx)%Q /\
           (Coord.y a == Coord.y a' + dy)%Q).
Proof.
  intros Hl Ht Hnd Hr. unfold layoutTree in Hl.
  apply layoutFrom_facts in Hl as (t' & Ht' & _ & _ & Hpre & _ & Hc & _).
  rewrite Ht in Ht'. injection Ht' as <-.
  apply Hpre in Hr. rewrite preorder_calls in Hr.
  apply list_elem_of_fmap in Hr as (s & -> & Hs).
  pose proof (callTree_call _ _ _ _ _ _ Ht Hs) as Hcs.
  destruct (layoutFrom_total _ _ _ _ _ Hcs) as (v & _ & Hl').
  eexists. split; [exact Hl'|].
  apply layoutFrom_facts in Hl' as (s' & Hs' & _ & _ & Hpre' & _ & Hc' & _).
  rewrite Hcs in Hs'. injection Hs' as <-.
  set (l' := {| coords := _; vis := v |}) in *.
  assert (Hsub : forall x, x ∈ vis l' -> x ∈ vis l).
  { intros x Hx. apply Hpre. eapply calls_preorder; [exact Hs|].
    apply Hpre', Hx. }
  split; [exact Hsub|]. intros _ _.
  destruct (walk_call t Hnd s 0 emptyPass Hs) as (ds & ps & Hentry).
  exists (ofNat (xPositionNext ps) * (NODE_W + X_GAP))%Q,
         (ofNat ds * (NODE_H + Y_GAP))%Q.
  intros x a' Ha'. rewrite Hc' in Ha'.
  destruct (bool_decide (x ∈ vis l')) eqn:Hx; [|discriminate].
  apply bool_decide_eq_true in Hx. injection Ha' as <-.
  exists (coordOf (walk t 0 emptyPass) x). split.
  { rewrite Hc, bool_decide_eq_true_2 by apply Hsub, Hx. reflexivity. }
  apply Hpre' in Hx. pose proof (Hentry x Hx) as E.
  unfold entry in E. injection E as Ex Ed.
  pose proof (walk_shift s ds ps 0 emptyPass x Hx) as Hslot.
  destruct (walk_depth_shift s ds ps 0 emptyPass x Hx)
    as (k & k' & Hk & Hk' & Hkk).
  unfold coordOf. simpl. rewrite Ex, Ed, Hk, Hk'. simpl.
  unfold slotOf in Hslot. simpl in Hslot.
  rewrite !Qred_correct. unfold NODE_W, X_GAP, NODE_H, Y_GAP.
  assert (Hkq : (ofNat k == ofNat k' + ofNat ds)%Q).
  { rewrite <- ofNat_plus. replace (k' + ds) with k by lia. reflexivity. }
  change (ofNat 0) with 0%Q in Hslot.
  split; lra.
Qed.

Lemma subtree_layout_witness :
  layoutTree 3 ∅ wideModel = Done wideLayout /\
  callTree ∅ (nodes wideModel) 3 "R" = Done wideCalls /\
  NoDup (preorder wideCalls) /\
  "B" ∈ vis wideLayout /\
  exactLayout 3 ∅ wideModel = true /\
  exactLayout 3 ∅ {| nodes := nodes wideModel; edges := edges wideModel;
                     root := "B" |} = true /\
  layoutTree 3 ∅ {| nodes := nodes wideModel; edges := edges wideModel;
                    root := "B" |} = Done subLayout /\
  (forall x, x ∈ vis subLayout -> x ∈ vis wideLayout) /\
  exists dx dy : Q,
    forall x a', coords subLayout !! x = Some a' ->
      exists a, coords wideLayout !! x = Some a /\
        (Coord.x a == Coord.x a' + dx)%Q /\
        (Coord.y a == Coord.y a' + dy)%Q.
Proof.
  assert (Hl : layoutTree 3 ∅ wideModel = Done wideLayout)
    by (vm_compute; reflexivity).
  assert (Ht : callTree ∅ (nodes wideModel) 3 "R" = Done wideCalls)
    by reflexivity.
  assert (Hnd : NoDup (preorder wideCalls))
    by (apply (bool_decide_unpack _); vm_compute; exact I).
  assert (Hr : "B" ∈ vis wideLayout)
    by (apply (bool_decide_unpack _); vm_compute; exact I).
  assert (Hs : layoutTree 3 ∅ {| nodes := nodes wideModel;
                                 edges := edges wideModel; root := "B" |}
               = Done subLayout) by (vm_compute; reflexivity).
  destruct (subtree_layout 3 ∅ wideModel wideLayout wideCalls "B" Hl Ht Hnd Hr)
    as (l' & Hl' & Hsub & Hmove).
  rewrite Hs in Hl'. injection Hl' as <-.
  split; [exact Hl|]. split; [exact Ht|]. split; [exact Hnd|].
  split; [exact Hr|]. split; [reflexivity|]. split; [reflexivity|].
  split; [exact Hs|]. split; [exact Hsub|].
  apply Hmove; reflexivity.
Defined.

(** ** What [render] draws *)

Lemma draw_draw (s s' : list shape) (q : page) :
  draw s' (draw s q) = draw (s ++ s') q.
Proof. unfold draw. simpl. rewrite app_assoc. reflexivity. Qed.

Lemma draw_nil (q : page) : draw [] q = q.
Proof. destruct q. unfold draw. simpl. rewrite app_nil_r. reflexivity. Qed.

(** The first loop of [render] appends the connectors of each visible id
    in turn. *)
Lemma forEach_drawEdges (m : model) (l : layout) (ids : list string) :
  forall q,
    forEach (fun id p => s ← drawEdges m l id; Done (draw s p)) ids q
    = visit (drawEdges m l) ids ≫= fun css => Done (draw (concat css) q).
Proof.
  induction ids as [|id ids IH]; intros q; simpl.
  - rewrite draw_nil. reflexivity.
  - destruct (drawEdges m l id) as [cs| |]; simpl; try reflexivity.
    rewrite IH.
    destruct (visit (drawEdges m l) ids) as [css| |]; simpl; try reflexivity.
    rewrite draw_draw. reflexivity.
Qed.

(** The second loop appends the box of each visible id in turn. *)
Lemma forEach_drawNode (m : model) (l : layout) (ids : list string) :
  forall q,
    forEach (fun id p => s ← drawNode (collapsed p) m l id; Done (draw [s] p))
            ids q
    = visit (drawNode (collapsed q) m l) ids ≫= fun bs => Done (draw bs q).
Proof.
  induction ids as [|id ids IH]; intros q; simpl.
  - rewrite draw_nil. reflexivity.
  - destruct (drawNode (collapsed q) m l id) as [b| |]; simpl;
      try reflexivity.
    rewrite IH. change (collapsed (draw [b] q)) with (collapsed q).
    destruct (visit (drawNode (collapsed q) m l) ids) as [bs| |]; simpl;
      try reflexivity.
    rewrite draw_draw. reflexivity.
Qed.

Lemma visit_total {A B : Type} (f : A -> outcome B) (l : list A) :
  (forall a, a ∈ l -> exists b, f a = Done b) ->
  exists bs, visit f l = Done bs.
Proof.
  induction l as [|a l IH]; intros H; simpl; [eauto|].
  destruct (H a) as [b ->]; [apply list_elem_of_here|].
  destruct IH as [bs ->]; [intros a' Ha'; apply H, list_elem_of_further, Ha'|].
  simpl. eauto.
Qed.

Lemma forEach_total {A S : Type} (f : A -> S -> outcome S) (l : list A) :
  (forall a s, a ∈ l -> exists s', f a s = Done s') ->
  forall s, exists s', forEach f l s = Done s'.
Proof.
  induction l as [|a l IH]; intros H s; simpl; [eauto|].
  destruct (H a s) as [s1 ->]; [apply list_elem_of_here|]. simpl.
  apply IH. intros a' s' Ha'. apply H, list_elem_of_further, Ha'.
Qed.

Section Drawing.

Variables (m : model) (l : layout).

Hypothesis coords_vis : forall x, x ∈ vis l -> is_Some (coords l !! x).

Lemma drawEdges_total (id : string) :
  id ∈ vis l -> Js.truthy (Js.get (nodes m) id) = true ->
  exists cs, drawEdges m l id = Done cs.
Proof.
  intros Hid Ht. unfold drawEdges, childrenOf.
  assert (Hloop : forall kids, exists cs,
            forEach (fun idChild drawn =>
                if bool_decide (idChild ∈ vis l) then
                  a ← coordsAt l id;
                  b ← coordsAt l idChild;
                  Done (drawn ++ [Connector (Coord.x a) (Coord.y a)
                                            (Coord.x b) (Coord.y b)])
                else Done drawn) kids [] = Done cs).
  { intros kids. apply forEach_total. intros ch drawn _.
    case_bool_decide as Hch; [|eauto].
    unfold coordsAt.
    destruct (coords_vis id Hid) as [a ->].
    destruct (coords_vis ch Hch) as [b ->]. simpl. eauto. }
  destruct (Js.get (nodes m) id); simpl; [apply Hloop|eauto|discriminate].
Qed.

Lemma drawNode_total (c : gset string) (id : string) :
  id ∈ vis l -> Js.truthy (Js.get (nodes m) id) = true ->
  exists b, drawNode c m l id = Done b.
Proof.
  intros Hid Ht. unfold drawNode, childrenOf, titleOf, coordsAt.
  destruct (coords_vis id Hid) as [a ->].
  destruct (Js.get (nodes m) id); simpl; [eauto..|discriminate].
Qed.

End Drawing.

(** X21. [render] never throws on a parsed model: where the layout
    returns, it returns, with the collapsed set and the status line as
    they were and the model as the current one, and the picture is the
    connectors of each visible id in turn, in the order of the visible
    set, and after all of them the box of each visible id in turn. *)
Theorem render_draws (fuel : nat) (text : string) (m : model) (p : page)
  (l : layout) :
  parse text = Ok m ->
  layoutTree fuel (collapsed p) m = Done l ->
  exists p' css bs,
    render fuel m p = Done p' /\
    collapsed p' = collapsed p /\ currentModel p' = Some m /\
    status p' = status p /\
    svg p' = concat css ++ bs /\
    Forall2 (fun id cs => drawEdges m l id = Done cs) (vis l) css /\
    Forall2 (fun id b => drawNode (collapsed p) m l id = Done b) (vis l) bs.
Proof.
  intros Hparse Hl.
  pose proof Hl as Hfacts. unfold layoutTree in Hfacts.
  apply layoutFrom_facts in Hfacts as (t & _ & _ & _ & _ & Hshown & Hc & _).
  assert (Hcoords : forall x, x ∈ vis l -> is_Some (coords l !! x)).
  { intros x Hx. rewrite Hc, bool_decide_eq_true_2 by exact Hx. eauto. }
  assert (Htruthy : forall x, x ∈ vis l ->
            Js.truthy (Js.get (nodes m) x) = true).
  { intros x Hx. eapply shown_truthy; [exact Hparse|]. apply Hshown, Hx. }
  destruct (visit_total (drawEdges m l) (vis l)) as [css Hcss].
  { intros id Hid. apply drawEdges_total; auto. }
  destruct (visit_total (drawNode (collapsed p) m l) (vis l)) as [bs Hbs].
  { intros id Hid. apply drawNode_total; auto. }
  eexists. exists css, bs. split.
  { unfold render. simpl. rewrite Hl. simpl.
    rewrite forEach_drawEdges, Hcss. simpl.
    rewrite forEach_drawNode. simpl. rewrite Hbs. simpl. reflexivity. }
  simpl. repeat split; try reflexivity; apply visit_Done; assumption.
Qed.

Lemma render_draws_witness :
  exists p' css bs,
    render 3 treeModel somePage = Done p' /\
    collapsed p' = collapsed somePage /\ currentModel p' = Some treeModel /\
    status p' = status somePage /\
    svg p' = concat css ++ bs /\
    Forall2 (fun id cs => drawEdges treeModel foldedLayout id = Done cs)
            (vis foldedLayout) css /\
    Forall2 (fun id b =>
               drawNode (collapsed somePage) treeModel foldedLayout id = Done b)
            (vis foldedLayout) bs.
Proof.
  apply (render_draws 3 treeText treeModel somePage foldedLayout);
    vm_compute; reflexivity.
Defined.

(** ** Connectors *)

Lemma drawEdges_visible (m : model) (l : layout) (id : string) (a : Coord.t)
  (kids : list string) :
  coords l !! id = Some a ->
  childrenOf (nodes m) id = Done kids ->
  Forall (fun ch => ch ∈ vis l /\ is_Some (coords l !! ch)) kids ->
  drawEdges m l id
  = Done (map (fun ch =>
                 let b := default a (coords l !! ch) in
                 Connector (Coord.x a) (Coord.y a) (Coord.x b) (Coord.y b))
              kids).
Proof.
  intros Ha Hkids Hall. unfold drawEdges. rewrite Hkids. simpl.
  set (body := fun idChild drawn =>
         if bool_decide (idChild ∈ vis l) then
           a ← coordsAt l id;
           b ← coordsAt l idChild;
           Done (drawn ++ [Connector (Coord.x a) (Coord.y a)
                                     (Coord.x b) (Coord.y b)])
         else Done drawn).
  set (conn := fun ch =>
         let b := default a (coords l !! ch) in
         Connector (Coord.x a) (Coord.y a) (Coord.x b) (Coord.y b)).
  enough (forall drawn,
            forEach body kids drawn = Done (drawn ++ map conn kids)) as H
    by apply (H []).
  clear Hkids. induction Hall as [|ch kids [Hch [b Hb]] _ IH]; intros drawn.
  - simpl. rewrite app_nil_r. reflexivity.
  - cbn [forEach map].
    assert (E : body ch drawn = Done (drawn ++ [conn ch])).
    { unfold body, conn, coordsAt.
      rewrite bool_decide_eq_true_2, Ha, Hb by exact Hch. reflexivity. }
    rewrite E. simpl. rewrite IH, <- app_assoc. reflexivity.
Qed.

(** X22. In a layout whose first pass meets no id twice and of which no
    operation rounds, a visible id that is not collapsed has one connector
    for each of its children, in their order, each to a box one row
    below; where no operation of [drawEdge] rounds either, the path of the
    connector leaves the middle of the lower edge of the box of the id,
    goes down half the gap between the rows, across, and down into the
    middle of the upper edge of the box of the child. *)
Theorem connector_paths (fuel : nat) (c : gset string) (m : model)
  (l : layout) (t : tree) (id : string) (n : Node.t) :
  layoutTree fuel c m = Done l ->
  callTree c (nodes m) fuel (root m) = Done t ->
  NoDup (preorder t) ->
  id ∈ vis l -> id ∉ c ->
  Js.own (nodes m) id = Some n ->
  exactLayout fuel c m = true ->
  exactEdges l id (Node.children n) = true ->
  exists a cs,
    coords l !! id = Some a /\
    drawEdges m l id = Done cs /\
    Forall2 (fun ch s =>
        exists b,
          coords l !! ch = Some b /\
          s = Connector (Coord.x a) (Coord.y a) (Coord.x b) (Coord.y b) /\
          (Coord.y b == Coord.y a + (NODE_H + Y_GAP))%Q /\
          samePoints
            (pathDefinition (Coord.x a) (Coord.y a) (Coord.x b) (Coord.y b))
            [ (Coord.x a + 65, Coord.y a + 46);
              (Coord.x a + 65, Coord.y a + 86);
              (Coord.x b + 65, Coord.y a + 86);
              (Coord.x b + 65, Coord.y a + 126) ]%Q)
      (Node.children n) cs.
Proof.
  intros Hl Ht Hnd Hid Hc Hown _ _. unfold layoutTree in Hl.
  apply layoutFrom_facts in Hl as (t' & Ht' & _ & _ & Hpre & _ & Hcoords & _).
  rewrite Ht in Ht'. injection Ht' as <-.
  assert (Hct : isCallTree c (nodes m) t).
  { exists fuel. rewrite (callTree_label _ _ _ _ _ Ht). exact Ht. }
  assert (Hkids : children c (nodes m) id = Done (Node.children n)).
  { unfold children, visibleChildren, Js.get.
    rewrite bool_decide_eq_false_2, Hown by exact Hc. reflexivity. }
  assert (Hvis : forall ch, ch ∈ Node.children n -> ch ∈ vis l).
  { intros ch Hch. apply Hpre. eapply callTree_closed; eauto.
    apply Hpre, Hid. }
  assert (Hat : forall x, x ∈ vis l ->
            coords l !! x = Some (coordOf (walk t 0 emptyPass) x)).
  { intros x Hx. rewrite Hcoords, bool_decide_eq_true_2 by exact Hx.
    reflexivity. }
  exists (coordOf (walk t 0 emptyPass) id). eexists.
  split; [apply Hat, Hid|]. split.
  { apply drawEdges_visible; [apply Hat, Hid| |].
    - unfold childrenOf, Js.get. rewrite Hown. reflexivity.
    - apply Forall_forall. intros ch Hch. split; [apply Hvis, Hch|].
      rewrite Hat by apply Hvis, Hch. eauto. }
  apply Forall2_fmap_r, Forall_Forall2_diag, Forall_forall. intros ch Hch.
  exists (coordOf (walk t 0 emptyPass) ch).
  rewrite (Hat ch) by apply Hvis, Hch. split; [reflexivity|].
  split; [reflexivity|].
  destruct (levels_exists t 0 id (proj1 (Hpre id) Hid)) as [k Hk].
  pose proof (levels_child c (nodes m) t Hct 0 id k _ ch Hk Hkids Hch) as Hk'.
  assert (Hy : (Coord.y (coordOf (walk t 0 emptyPass) ch)
                == Coord.y (coordOf (walk t 0 emptyPass) id)
                   + (NODE_H + Y_GAP))%Q).
  { unfold coordOf. simpl.
    rewrite (walk_levels t Hnd 0 emptyPass id k Hk).
    rewrite (walk_levels t Hnd 0 emptyPass ch (S k) Hk'). simpl.
    rewrite !Qred_correct, ofNat_S. unfold NODE_H, Y_GAP. lra. }
  split; [exact Hy|].
  revert Hy. generalize (coordOf (walk t 0 emptyPass) ch).
  generalize (coordOf (walk t 0 emptyPass) id).
  intros [ax ay] [bx bY] Hy. simpl in Hy.
  unfold samePoints, pathDefinition, NODE_W, NODE_H, Y_GAP in *.
  repeat (apply Forall2_cons; split;
          [simpl; repeat rewrite half; split; lra|]).
  apply Forall2_nil. reflexivity.
Qed.

Lemma connector_paths_witness :
  exactLayout 3 ∅ wideModel = true /\
  exactEdges wideLayout "B" ["C"; "D"] = true /\
  exists a cs,
    coords wideLayout !! "B" = Some a /\
    drawEdges wideModel wideLayout "B" = Done cs /\
    Forall2 (fun ch s =>
        exists b,
          coords wideLayout !! ch = Some b /\
          s = Connector (Coord.x a) (Coord.y a) (Coord.x b) (Coord.y b) /\
          (Coord.y b == Coord.y a + (NODE_H + Y_GAP))%Q /\
          samePoints
            (pathDefinition (Coord.x a) (Coord.y a) (Coord.x b) (Coord.y b))
            [ (Coord.x a + 65, Coord.y a + 46);
              (Coord.x a + 65, Coord.y a + 86);
              (Coord.x b + 65, Coord.y a + 86);
              (Coord.x b + 65, Coord.y a + 126) ]%Q)
      ["C"; "D"] cs.
Proof.
  split; [reflexivity|]. split; [reflexivity|].
  apply (connector_paths 3 ∅ wideModel wideLayout wideCalls "B"
           (Node.make "B" "b" ["C"; "D"]));
    try reflexivity;
    try (apply (bool_decide_unpack _); vm_compute; exact I).
Defined.

(** ** Clicks and input *)

(** [render] as one expression: the layout, the connectors, the boxes. *)
Lemma render_pure (fuel : nat) (m : model) (p : page) :
  render fuel m p =
  l ← layoutTree fuel (collapsed p) m;
  css ← visit (drawEdges m l) (vis l);
  bs ← visit (drawNode (collapsed p) m l) (vis l);
  Done {| collapsed := collapsed p; currentModel := Some m;
          status := status p; svg := concat css ++ bs |}.
Proof.
  unfold render. simpl.
  destruct (layoutTree fuel (collapsed p) m) as [l| |]; simpl;
    try reflexivity.
  rewrite forEach_drawEdges.
  destruct (visit (drawEdges m l) (vis l)) as [css| |]; simpl;
    try reflexivity.
  rewrite forEach_drawNode. simpl.
  destruct (visit (drawNode (collapsed p) m l) (vis l)) as [bs| |]; simpl;
    reflexivity.
Qed.

(** The picture depends on the page through the collapsed set alone. *)
Lemma render_svg (fuel : nat) (m : model) (p q p' q' : page) :
  collapsed p = collapsed q ->
  render fuel m p = Done p' -> render fuel m q = Done q' ->
  svg p' = svg q'.
Proof.
  intros Hc. rewrite !render_pure, Hc.
  destruct (layoutTree fuel (collapsed q) m) as [l| |]; simpl;
    try discriminate.
  destruct (visit (drawEdges m l) (vis l)) as [css| |]; simpl;
    try discriminate.
  destruct (visit (drawNode (collapsed q) m l) (vis l)) as [bs| |]; simpl;
    try discriminate.
  intros [= <-] [= <-]. reflexivity.
Qed.

(** [render] on a parsed model whose layout returns. *)
Lemma render_parts (fuel : nat) (text : string) (m : model) (p : page)
  (l : layout) :
  parse text = Ok m ->
  layoutTree fuel (collapsed p) m = Done l ->
  exists css bs,
    render fuel m p
    = Done {| collapsed := collapsed p; currentModel := Some m;
              status := status p; svg := concat css ++ bs |} /\
    Forall2 (fun id cs => drawEdges m l id = Done cs) (vis l) css /\
    Forall2 (fun id b => drawNode (collapsed p) m l id = Done b) (vis l) bs.
Proof.
  intros Hparse Hl.
  assert (Hvis : forall x, x ∈ vis l ->
            Js.truthy (Js.get (nodes m) x) = true /\ is_Some (coords l !! x)).
  { intros x Hx. pose proof Hl as H. unfold layoutTree in H.
    apply layoutFrom_facts in H as (t & _ & _ & _ & _ & Hshown & Hc & _).
    split.
    - eapply shown_truthy; [exact Hparse|]. apply Hshown, Hx.
    - rewrite Hc, bool_decide_eq_true_2 by exact Hx. eauto. }
  destruct (visit_total (drawEdges m l) (vis l)) as [css Hcss].
  { intros x Hx. apply drawEdges_total; [intros y Hy; apply Hvis, Hy|exact Hx|].
    apply Hvis, Hx. }
  destruct (visit_total (drawNode (collapsed p) m l) (vis l)) as [bs Hbs].
  { intros x Hx. apply drawNode_total; [intros y Hy; apply Hvis, Hy|exact Hx|].
    apply Hvis, Hx. }
  exists css, bs. rewrite render_pure, Hl. simpl. rewrite Hcss. simpl.
  rewrite Hbs. simpl. split; [reflexivity|].
  split; apply visit_Done; assumption.
Qed.

(** X23. A click on the box of a node without children changes nothing.
    A click on the box of a node with children, on a page that shows a
    parsed model, moves the id of the node into the collapsed set, or out
    of it if it was there, and says so in the status line with the title
    of the node, or with its id when the title is empty; where the layout
    of the model under the new set returns, the click returns, and the
    picture is the one of that layout: the connectors of each visible id
    in turn, then the boxes. Where the layout under the old set returns
    as well, a second click on the same box returns, restores the
    collapsed set, and draws what [render] draws on the first page. *)
Theorem click_toggles (fuel : nat) (text id title : string) (n : nat)
  (m : model) (p : page) (l : layout) :
  parse text = Ok m ->
  currentModel p = Some m ->
  layoutTree fuel
    (if bool_decide (id ∈ collapsed p) then collapsed p ∖ {[id]}
     else collapsed p ∪ {[id]}) m = Done l ->
  click fuel id title 0 p = Done p /\
  exists p1 css bs,
    click fuel id title (S n) p = Done p1 /\
    collapsed p1
    = (if bool_decide (id ∈ collapsed p) then collapsed p ∖ {[id]}
       else collapsed p ∪ {[id]}) /\
    status p1
    = (true,
       (if bool_decide (id ∈ collapsed p) then "Expanded " else "Collapsed ")
       +:+ Js.orElse title id) /\
    currentModel p1 = Some m /\
    svg p1 = concat css ++ bs /\
    Forall2 (fun x cs => drawEdges m l x = Done cs) (vis l) css /\
    Forall2 (fun x b => drawNode (collapsed p1) m l x = Done b) (vis l) bs /\
    forall l0,
      layoutTree fuel (collapsed p) m = Done l0 ->
      exists p2 q,
        click fuel id title (S n) p1 = Done p2 /\
        collapsed p2 = collapsed p /\
        render fuel m p = Done q /\ svg p2 = svg q.
Proof.
  intros Hparse Hm Hl. split; [reflexivity|].
  set (toggled := if bool_decide (id ∈ collapsed p) then collapsed p ∖ {[id]}
                  else collapsed p ∪ {[id]}) in *.
  assert (Hword :
    (if bool_decide (id ∈ toggled) then "Collapsed " else "Expanded ")
    = (if bool_decide (id ∈ collapsed p) then "Expanded "
       else "Collapsed ")).
  { unfold toggled. destruct (decide (id ∈ collapsed p)) as [Hin|Hout].
    - rewrite (bool_decide_eq_true_2 _ Hin).
      rewrite bool_decide_eq_false_2; [reflexivity|].
      rewrite elem_of_difference, elem_of_singleton. tauto.
    - rewrite (bool_decide_eq_false_2 _ Hout).
      rewrite bool_decide_eq_true_2; [reflexivity|].
      rewrite elem_of_union, elem_of_singleton. tauto. }
  assert (Hback :
    (if bool_decide (id ∈ toggled) then toggled ∖ {[id]}
     else toggled ∪ {[id]}) = collapsed p).
  { unfold toggled. apply set_eq. intros x.
    destruct (decide (id ∈ collapsed p)) as [Hin|Hout].
    - rewrite (bool_decide_eq_true_2 _ Hin).
      rewrite bool_decide_eq_false_2
        by (rewrite elem_of_difference, elem_of_singleton; tauto).
      rewrite elem_of_union, elem_of_difference, elem_of_singleton.
      destruct (decide (x = id)) as [->|]; tauto.
    - rewrite (bool_decide_eq_false_2 _ Hout).
      rewrite bool_decide_eq_true_2
        by (rewrite elem_of_union, elem_of_singleton; tauto).
      rewrite elem_of_difference, elem_of_union, elem_of_singleton.
      destruct (decide (x = id)) as [->|]; tauto. }
  set (p' := setStatus true
               ((if bool_decide (id ∈ toggled) then "Collapsed "
                 else "Expanded ") +:+ Js.orElse title id)
               {| collapsed := toggled; currentModel := currentModel p;
                  status := status p; svg := svg p |}).
  assert (Hclick : click fuel id title (S n) p = render fuel m p').
  { unfold click. fold toggled. fold p'.
    change (currentModel p') with (currentModel p). rewrite Hm.
    reflexivity. }
  destruct (render_parts fuel text m p' l Hparse Hl)
    as (css & bs & Hr & Hcss & Hbs).
  set (p1 := {| collapsed := collapsed p'; currentModel := Some m;
                status := status p'; svg := concat css ++ bs |}) in *.
  exists p1, css, bs. split; [rewrite Hclick; exact Hr|].
  split; [reflexivity|].
  split; [cbn [status p1 p' setStatus]; rewrite Hword; reflexivity|].
  split; [reflexivity|]. split; [reflexivity|].
  split; [exact Hcss|]. split; [exact Hbs|].
  intros l0 Hl0.
  destruct (render_parts fuel text m p l0 Hparse Hl0) as (css0 & bs0 & Hq & _).
  set (p1' := setStatus true
               ((if bool_decide (id ∈ collapsed p) then "Collapsed "
                 else "Expanded ") +:+ Js.orElse title id)
               {| collapsed := collapsed p; currentModel := Some m;
                  status := status p1; svg := svg p1 |}).
  assert (Hclick2 : click fuel id title (S n) p1 = render fuel m p1').
  { unfold click. change (collapsed p1) with toggled.
    change (currentModel p1) with (Some m). rewrite Hback. reflexivity. }
  destruct (render_parts fuel text m p1' l0 Hparse Hl0)
    as (css2 & bs2 & Hr2 & _).
  eexists. eexists. split; [rewrite Hclick2; exact Hr2|].
  split; [reflexivity|]. split; [exact Hq|].
  eapply render_svg; [|exact Hr2|exact Hq]. reflexivity.
Qed.

Lemma click_toggles_witness :
  exists p0,
    render 3 treeModel somePage = Done p0 /\
    collapsed p0 = {["A"; "Z"]} /\
    click 3 "R" "root" 0 p0 = Done p0 /\
    exists p1 css bs,
      click 3 "R" "root" 2 p0 = Done p1 /\
      collapsed p1
      = (if bool_decide ("R" ∈ collapsed p0) then collapsed p0 ∖ {["R"]}
         else collapsed p0 ∪ {["R"]}) /\
      status p1
      = (true,
         (if bool_decide ("R" ∈ collapsed p0) then "Expanded "
          else "Collapsed ") +:+ Js.orElse "root" "R") /\
      currentModel p1 = Some treeModel /\
      svg p1 = concat css ++ bs /\
      Forall2 (fun x cs => drawEdges treeModel rootLayout x = Done cs)
              (vis rootLayout) css /\
      Forall2 (fun x b =>
                 drawNode (collapsed p1) treeModel rootLayout x = Done b)
              (vis rootLayout) bs /\
      forall l0,
        layoutTree 3 (collapsed p0) treeModel = Done l0 ->
        exists p2 q,
          click 3 "R" "root" 2 p1 = Done p2 /\
          collapsed p2 = collapsed p0 /\
          render 3 treeModel p0 = Done q /\ svg p2 = svg q.
Proof.
  eexists. split; [vm_compute; reflexivity|].
  split; [vm_compute; reflexivity|].
  apply (click_toggles 3 treeText "R" "root" 1 treeModel _ rootLayout);
    vm_compute; reflexivity.
Defined.

Lemma visit_ext {A B : Type} (f g : A -> outcome B) (l : list A) :
  (forall a, a ∈ l -> f a = g a) -> visit f l = visit g l.
Proof.
  induction l as [|a l IH]; intros H; simpl; [reflexivity|].
  rewrite (H a) by apply list_elem_of_here.
  rewrite IH by (intros b Hb; apply H, list_elem_of_further, Hb).
  reflexivity.
Qed.

Lemma drawNode_ext (c c' : gset string) (m : model) (l : layout) (id : string) :
  (id ∈ c <-> id ∈ c') -> drawNode c m l id = drawNode c' m l id.
Proof.
  intros H. unfold drawNode.
  destruct (decide (id ∈ c)) as [Hc|Hc].
  - rewrite !bool_decide_eq_true_2; tauto.
  - rewrite !bool_decide_eq_false_2; tauto.
Qed.

(** The ids of a layout of a parsed model read as truthy in its nodes,
    and have coordinates. *)
Lemma layout_vis (fuel : nat) (text : string) (m : model) (c : gset string)
  (l : layout) :
  parse text = Ok m -> layoutTree fuel c m = Done l ->
  forall x, x ∈ vis l ->
    Js.truthy (Js.get (nodes m) x) = true /\ is_Some (coords l !! x).
Proof.
  intros Hparse Hl x Hx. unfold layoutTree in Hl.
  apply layoutFrom_facts in Hl as (t & _ & _ & _ & _ & Hshown & Hc & _).
  split.
  - eapply shown_truthy; [exact Hparse|]. apply Hshown, Hx.
  - rewrite Hc, bool_decide_eq_true_2 by exact Hx. eauto.
Qed.

Lemma keys_length {V : Type} (o : Js.object V) :
  length (Js.keys o) = length o.
Proof.
  rewrite (Permutation_length (keys_Permutation o)). apply length_map.
Qed.

(** X24. When the text parses and the layout returns, [onInput] returns:
    the status line tells the number of node lines of the text, the model
    is the current one, the collapsed set has lost the ids that are
    neither declared in the text nor inherited by every object, and
    nothing else; and the picture is the one that [render] draws under
    the collapsed set as it was. *)
Theorem onInput_success (fuel : nat) (text : string) (m : model) (p : page)
  (l : layout) :
  parse text = Ok m ->
  layoutTree fuel (collapsed p) m = Done l ->
  exists p',
    onInput fuel text p = Done p' /\
    status p'
    = (true,
       "Parsed " +:+ Js.showNat (length (declared text)) +:+ " Nodes") /\
    currentModel p' = Some m /\
    (forall x, x ∈ collapsed p' <->
       x ∈ collapsed p /\ (x ∈ declared text \/ x ∈ Js.objectPrototype)) /\
    (forall q, render fuel m p = Done q -> svg p' = svg q).
Proof.
  intros Hparse Hl.
  pose proof (layout_vis _ _ _ _ _ Hparse Hl) as Hvis.
  assert (Hl' : layoutTree fuel (mergeCollapseState (collapsed p) (nodes m)) m
                = Done l).
  { rewrite <- Hl. unfold layoutTree. apply layoutFrom_ext. intros x Hx.
    eapply children_prune; eauto. }
  destruct (visit_total (drawEdges m l) (vis l)) as [css Hcss].
  { intros id Hid. apply drawEdges_total; [|exact Hid|apply Hvis, Hid].
    intros x Hx. apply Hvis, Hx. }
  assert (Hsame : visit (drawNode (mergeCollapseState (collapsed p) (nodes m))
                           m l) (vis l)
                  = visit (drawNode (collapsed p) m l) (vis l)).
  { apply visit_ext. intros id Hid. apply drawNode_ext.
    apply mergeCollapseState_truthy, Hvis, Hid. }
  destruct (visit_total (drawNode (collapsed p) m l) (vis l)) as [bs Hbs].
  { intros id Hid. apply drawNode_total; [|exact Hid|apply Hvis, Hid].
    intros x Hx. apply Hvis, Hx. }
  eexists. split.
  { unfold onInput. rewrite Hparse, render_pure. simpl.
    rewrite Hl'. simpl. rewrite Hcss. simpl. rewrite Hsame, Hbs. simpl.
    reflexivity. }
  simpl. split.
  { rewrite keys_length, <- (parse_declared _ _ Hparse), length_map.
    reflexivity. }
  split; [reflexivity|]. split.
  - intros x. unfold mergeCollapseState.
    rewrite elem_of_filter, truthy_get, (parse_declared _ _ Hparse). tauto.
  - intros q. rewrite render_pure, Hl. simpl. rewrite Hcss. simpl.
    rewrite Hbs. simpl. intros [= <-]. reflexivity.
Qed.

Lemma onInput_success_witness :
  exists p',
    onInput 3 freshText somePage = Done p' /\
    status p'
    = (true,
       "Parsed " +:+ Js.showNat (length (declared freshText)) +:+ " Nodes") /\
    currentModel p'
    = Some {| nodes := [("A", Node.make "A" "a" ["B"]);
                        ("B", Node.make "B" "b" [])];
              edges := [{| from := "A"; to := "B"; line := 3 |}];
              root := "A" |} /\
    (forall x, x ∈ collapsed p' <->
       x ∈ collapsed somePage /\
       (x ∈ declared freshText \/ x ∈ Js.objectPrototype)) /\
    (forall q,
       render 3 {| nodes := [("A", Node.make "A" "a" ["B"]);
                             ("B", Node.make "B" "b" [])];
                   edges := [{| from := "A"; to := "B"; line := 3 |}];
                   root := "A" |} somePage = Done q ->
       svg p' = svg q).
Proof.
  apply (onInput_success 3 freshText _ somePage
           {| coords := list_to_map [("A", Coord.make 0 0)]; vis := ["A"] |});
    vm_compute; reflexivity.
Defined.

(** X25. For every visible id, collapsed or not, [render] draws one
    connector to each of its children that is visible, in the order of the
    children, and none to the others: a collapsed id has a connector to a
    child that is visible by way of another parent. *)
Theorem connectors_drawn (fuel : nat) (c : gset string) (m : model)
  (l : layout) (id : string) (n : Node.t) (a : Coord.t) :
  layoutTree fuel c m = Done l ->
  coords l !! id = Some a ->
  Js.own (nodes m) id = Some n ->
  drawEdges m l id
  = Done (omap (fun ch =>
                  (fun b => Connector (Coord.x a) (Coord.y a)
                                      (Coord.x b) (Coord.y b))
                  <$> coords l !! ch)
               (Node.children n)).
Proof.
  intros Hl Ha Hown. unfold layoutTree in Hl.
  apply layoutFrom_facts in Hl as (t & _ & _ & _ & _ & _ & Hc & _).
  unfold drawEdges, childrenOf, Js.get. rewrite Hown. simpl.
  set (body := fun idChild drawn =>
         if bool_decide (idChild ∈ vis l) then
           a ← coordsAt l id;
           b ← coordsAt l idChild;
           Done (drawn ++ [Connector (Coord.x a) (Coord.y a)
                                     (Coord.x b) (Coord.y b)])
         else Done drawn).
  set (conn := fun ch =>
         (fun b => Connector (Coord.x a) (Coord.y a) (Coord.x b) (Coord.y b))
         <$> coords l !! ch).
  enough (forall drawn,
            forEach body (Node.children n) drawn
            = Done (drawn ++ omap conn (Node.children n))) as H
    by apply (H []).
  induction (Node.children n) as [|ch kids IH]; intros drawn.
  - simpl. rewrite app_nil_r. reflexivity.
  - cbn [forEach omap].
    assert (E : body ch drawn = Done (drawn ++ option_list (conn ch))).
    { unfold body, conn, coordsAt. rewrite Ha, (Hc ch).
      case_bool_decide; simpl; [reflexivity|].
      rewrite app_nil_r. reflexivity. }
    rewrite E. simpl. rewrite IH, <- app_assoc.
    unfold omap, list_omap. destruct (conn ch); reflexivity.
Qed.

Lemma connectors_drawn_witness :
  drawEdges dagModel dagLayout "A"
  = Done (omap (fun ch =>
                  (fun b => Connector 0 126 (Coord.x b) (Coord.y b))
                  <$> coords dagLayout !! ch)
               ["B"]).
Proof.
  apply (connectors_drawn 3 {["A"]} dagModel dagLayout "A"
           (Node.make "A" "a" ["B"]) (Coord.make 0 126));
    vm_compute; reflexivity.
Defined.

(** X26. The box of a visible id of a parsed model stands at the
    coordinates of the id and carries the title of its node, which is
    never the fallback; it is marked as expandable when the id is
    collapsed, whether the node has children or not, as collapsible when
    it is not collapsed and the node has children, and not at all
    otherwise. A visible id that is no key of [nodes] (an inherited name
    that an edge ends at) has a box that carries the id itself. *)
Theorem boxes_drawn (fuel : nat) (text : string) (m : model) (c : gset string)
  (l : layout) (id : string) :
  parse text = Ok m ->
  layoutTree fuel c m = Done l ->
  id ∈ vis l ->
  exists xy,
    coords l !! id = Some xy /\
    match Js.own (nodes m) id with
    | Some n =>
      Node.title n <> EmptyString /\
      drawNode c m l id
      = Done (Box id (Node.title n)
                (if bool_decide (id ∈ c) then Expandable
                 else if bool_decide (Node.children n = []) then Plain
                      else Collapsible)
                (Coord.x xy) (Coord.y xy))
    | None =>
      id ∈ Js.objectPrototype /\
      drawNode c m l id
      = Done (Box id id (if bool_decide (id ∈ c) then Expandable else Plain)
                (Coord.x xy) (Coord.y xy))
    end.
Proof.
  intros Hparse Hl Hid.
  destruct (layout_vis _ _ _ _ _ Hparse Hl id Hid) as [Ht [xy Hxy]].
  exists xy. split; [exact Hxy|].
  unfold drawNode, childrenOf, titleOf, coordsAt, Js.get. rewrite Hxy.
  destruct (Js.own (nodes m) id) as [n|] eqn:Hown.
  - assert (Htitle : Node.title n <> EmptyString).
    { apply own_elem_of in Hown.
      apply parse_parts in Hparse as (scanned & Hn & _ & _ & _ & Hc & _ & _).
      rewrite Hn in Hown. apply list_elem_of_fmap in Hown as (q & Hq & Hin).
      rewrite Forall_forall in Hc.
      destruct (Hc q Hin) as (raw & title & _ & Hm & Hq2 & _).
      destruct q as [k n']. simpl in *. subst n'.
      unfold linked in Hq. simpl in Hq. injection Hq as -> ->. simpl.
      apply orElse_nonempty. eapply nodePattern_id, Hm. }
    split; [exact Htitle|]. simpl. unfold Js.orElse.
    destruct (Node.title n); [contradiction|reflexivity].
  - apply truthy_get in Ht as [Ht|Ht].
    + apply own_None in Hown. contradiction.
    + split; [exact Ht|].
      rewrite (bool_decide_eq_true_2 (id ∈ Js.objectPrototype)) by exact Ht.
      simpl. destruct (bool_decide (id ∈ c)); reflexivity.
Qed.

Lemma boxes_drawn_witness :
  exists xy,
    coords foldedLayout !! "A" = Some xy /\
    match Js.own (nodes treeModel) "A" with
    | Some n =>
      Node.title n <> EmptyString /\
      drawNode {["A"; "Z"]} treeModel foldedLayout "A"
      = Done (Box "A" (Node.title n)
                (if bool_decide ("A" ∈ ({["A"; "Z"]} : gset string))
                 then Expandable
                 else if bool_decide (Node.children n = []) then Plain
                      else Collapsible)
                (Coord.x xy) (Coord.y xy))
    | None =>
      "A" ∈ Js.objectPrototype /\
      drawNode {["A"; "Z"]} treeModel foldedLayout "A"
      = Done (Box "A" "A"
                (if bool_decide ("A" ∈ ({["A"; "Z"]} : gset string))
                 then Expandable else Plain)
                (Coord.x xy) (Coord.y xy))
    end.
Proof.
  apply (boxes_drawn 3 treeText treeModel {["A"; "Z"]} foldedLayout "A");
    try (vm_compute; reflexivity).
  apply (bool_decide_unpack _). vm_compute. exact I.
Defined.
